(** * The Yeelight session of [bulbs/bulb.js]

    A shallow embedding of the class [YeeBulb]: the session object, its
    synchronous methods as functions on the object's state, and its
    asynchronous methods as a transition system whose steps are the
    run-to-completion segments of the JavaScript event loop (an event
    listener, a timer callback, a call from outside, or one job of the
    promise job queue). *)

From stdpp Require Import gmap strings list fin_maps pretty.
From Stdlib Require Import ZArith Ascii String.

Set Warnings "-register-all".
#[local] Open Scope Z_scope.

(** ** JavaScript values *)

(** A value produced by [JSON.parse].  Numbers are the integers (the protocol
    has no others) that a double holds exactly, which [String(n)] writes in
    decimal.  The members of an object are listed in enumeration order and a
    key occurs once; lookup takes the first binding. *)
Inductive json : Type :=
| JNull
| JBool (b : bool)
| JNum (n : Z)
| JStr (s : string)
| JArr (items : list json)
| JObj (fields : list (string * json)).

(** The values that travel through promises: JSON values, [undefined], and
    error objects ([new Error(msg)] made by the class, [TypeError] and
    [RangeError] raised by the runtime). *)
Inductive jsval : Type :=
| VUndefined
| VJson (j : json)
| VError (msg : string)
| VTypeError (what : string)
| VRangeError (what : string).

(** A settled promise. *)
Inductive outcome : Type :=
| Fulfilled (v : jsval)
| Rejected (e : jsval).

(** A JavaScript number, which is a double.  [Num z] is an integer below
    [2 ^ 53] in magnitude: a double holds it exactly and [String] writes all
    its digits.  [Float neg m e] is any other finite double but zero, of
    magnitude [m * 2 ^ e] with [2 ^ 52 <= m < 2 ^ 53] and [e <= 971], or
    with [m < 2 ^ 52] and [e = -1074]. *)
Inductive jsnum : Type :=
| Num (z : Z)
| NaN
| NegZero
| Infinity (neg : bool)
| Float (neg : bool) (m e : Z).

Fixpoint obj_get (k : string) (fs : list (string * json)) : option json :=
  match fs with
  | [] => None
  | (k', v) :: fs' => if String.eqb k k' then Some v else obj_get k fs'
  end.

(** [k in obj] for an object made by [JSON.parse], at a key that
    [Object.prototype] does not define. *)
Definition has_key (k : string) (fs : list (string * json)) : bool :=
  match obj_get k fs with Some _ => true | None => false end.

Definition obj_keys (fs : list (string * json)) : list string := map fst fs.

(** [String(v)], which is also the property key [obj[v]] uses.  [None] is
    the [TypeError] of an object whose own [toString] member hides the
    inherited method. *)
Fixpoint js_to_string (j : json) : option string :=
  match j with
  | JNull => Some "null"
  | JBool true => Some "true"
  | JBool false => Some "false"
  | JNum n => Some (pretty n)
  | JStr s => Some s
  | JArr items =>
      (fix join (l : list json) : option string :=
         match l with
         | [] => Some ""
         | x :: l' =>
             let elem := match x with JNull => Some "" | _ => js_to_string x end in
             match l' with
             | [] => elem
             | _ :: _ =>
                 match elem, join l' with
                 | Some s, Some r => Some (s +:+ "," +:+ r)
                 | _, _ => None
                 end
             end
         end) items
  | JObj fs => if has_key "toString" fs then None else Some "[object Object]"
  end.

(** The property names every plain object inherits from [Object.prototype]. *)
Definition Object_prototype_keys : list string :=
  [ "constructor"; "__defineGetter__"; "__defineSetter__"; "hasOwnProperty";
    "__lookupGetter__"; "__lookupSetter__"; "isPrototypeOf";
    "propertyIsEnumerable"; "toString"; "valueOf"; "__proto__";
    "toLocaleString" ].

(** [key in obj] for a plain object used as a map. *)
Definition js_in {A} (key : string) (obj : gmap string A) : bool :=
  match obj !! key with
  | Some _ => true
  | None => bool_decide (key ∈ Object_prototype_keys)
  end.

(** [ToInt32] and the operator [<<]: both operands are taken modulo 2^32,
    the shift count modulo 32, and the result is a signed 32-bit integer. *)
Definition to_int32 (z : Z) : Z :=
  let m := z mod 2 ^ 32 in
  if 2 ^ 31 <=? m then m - 2 ^ 32 else m.

Definition to_uint32 (z : Z) : Z := z mod 2 ^ 32.

Definition js_shl (a n : Z) : Z :=
  to_int32 (Z.shiftl (to_int32 a) (Z.land (to_uint32 n) 31)).

(** ** Strings: [split(':')], [Number(s)], template literals

    A string is a sequence of code units below 256. *)

(** [s.split(c)] for a one-character separator: never empty. *)
Fixpoint split_on (c : ascii) (s : string) : list string :=
  match s with
  | EmptyString => [EmptyString]
  | String a s' =>
      if Ascii.eqb a c then EmptyString :: split_on c s'
      else match split_on c s' with
           | [] => [String a EmptyString]
           | w :: ws => String a w :: ws
           end
  end.

Definition digit_of (a : ascii) : option Z :=
  let n := Z.of_nat (nat_of_ascii a) in
  if (48 <=? n) && (n <=? 57) then Some (n - 48) else None.

Fixpoint digits_value (acc : Z) (s : string) : option Z :=
  match s with
  | EmptyString => Some acc
  | String a s' =>
      match digit_of a with
      | Some d => digits_value (10 * acc + d) s'
      | None => None
      end
  end.

(** [StrWhiteSpaceChar], among the code units below 256: TAB, LF, VT, FF,
    CR, SP and NBSP. *)
Definition is_space (a : ascii) : bool :=
  let n := Z.of_nat (nat_of_ascii a) in
  ((9 <=? n) && (n <=? 13)) || (n =? 32) || (n =? 160).

Fixpoint ltrim (s : string) : string :=
  match s with
  | EmptyString => EmptyString
  | String a s' => if is_space a then ltrim s' else s
  end.

Fixpoint rtrim (s : string) : string :=
  match s with
  | EmptyString => EmptyString
  | String a s' =>
      match rtrim s' with
      | EmptyString => if is_space a then EmptyString else String a EmptyString
      | r => String a r
      end
  end.

(** The digit a character is in hexadecimal. *)
Definition hex_digit_of (a : ascii) : option Z :=
  let n := Z.of_nat (nat_of_ascii a) in
  if (48 <=? n) && (n <=? 57) then Some (n - 48)
  else if (65 <=? n) && (n <=? 70) then Some (n - 55)
  else if (97 <=? n) && (n <=? 102) then Some (n - 87)
  else None.

(** The value of a run of digits of radix [r]. *)
Fixpoint radix_value (r acc : Z) (s : string) : option Z :=
  match s with
  | EmptyString => Some acc
  | String a s' =>
      match hex_digit_of a with
      | Some d => if d <? r then radix_value r (r * acc + d) s' else None
      | None => None
      end
  end.

(** [NonDecimalIntegerLiteral]: [0x], [0o] or [0b], in either case, and at
    least one digit. *)
Definition nondecimal_literal (s : string) : option Z :=
  match s with
  | String "0" (String c (String a ds)) =>
      let r := if Ascii.eqb c "x" || Ascii.eqb c "X" then 16
               else if Ascii.eqb c "o" || Ascii.eqb c "O" then 8
               else if Ascii.eqb c "b" || Ascii.eqb c "B" then 2
               else 0 in
      radix_value r 0 (String a ds)
  | _ => None
  end.

(** The longest run of decimal digits a string starts with, and the rest. *)
Fixpoint span_digits (s : string) : string * string :=
  match s with
  | EmptyString => (EmptyString, EmptyString)
  | String a s' =>
      match digit_of a with
      | Some _ => let '(ds, r) := span_digits s' in (String a ds, r)
      | None => (EmptyString, s)
      end
  end.

(** [ExponentPart], or nothing: the exponent. *)
Definition exponent_part (s : string) : option Z :=
  match s with
  | EmptyString => Some 0
  | String c s' =>
      if Ascii.eqb c "e" || Ascii.eqb c "E" then
        let '(neg, ds) := match s' with
                          | String "+" ds => (false, ds)
                          | String "-" ds => (true, ds)
                          | _ => (false, s')
                          end in
        match ds with
        | EmptyString => None
        | _ => x ← digits_value 0 ds; Some (if neg : bool then - x else x)
        end
      else None
  end.

(** [StrUnsignedDecimalLiteral] other than [Infinity]: digits, a point and
    digits, an exponent, with a digit before or after the point.  The
    literal denotes [M * 10 ^ E]. *)
Definition decimal_literal (s : string) : option (Z * Z) :=
  let '(ip, r1) := span_digits s in
  let '(fp, r2) := match r1 with
                   | String "." r => span_digits r
                   | _ => (EmptyString, r1)
                   end in
  if String.eqb (ip +:+ fp) "" then None
  else
    x ← exponent_part r2;
    M ← digits_value 0 (ip +:+ fp);
    Some (M, x - Z.of_nat (String.length fp)).

(** The fraction [n / (d * 2 ^ e)], as numerator and denominator. *)
Definition scale2 (n d e : Z) : Z * Z :=
  if 0 <=? e then (n, d * 2 ^ e) else (n * 2 ^ (- e), d).

(** The integer nearest to [n / d], the even one of two. *)
Definition round_half_even (n d : Z) : Z :=
  let q := n / d in
  let r := n mod d in
  if (d <? 2 * r) || ((d =? 2 * r) && Z.odd q) then q + 1 else q.

(** The exponent [e] of a double next to [n / d]: the one with
    [2 ^ 52 <= n / (d * 2 ^ e) < 2 ^ 53], and no less than that of the
    subnormals. *)
Definition double_exponent (n d : Z) : Z :=
  let e0 := Z.log2 n - Z.log2 d - 52 in
  let '(n0, d0) := scale2 n d e0 in
  Z.max (if n0 / d0 <? 2 ^ 52 then e0 - 1 else e0) (-1074).

(** The double nearest to the rational [n / d], for positive [n] and [d],
    ties to the even significand.  [Some (m, e)] is the double [m * 2 ^ e],
    with [2 ^ 52 <= m < 2 ^ 53], or with [m < 2 ^ 52] and [e = -1074] (a
    subnormal, or zero); [None] is the overflow. *)
Definition nearest_double (n d : Z) : option (Z * Z) :=
  let e := double_exponent n d in
  let '(n1, d1) := scale2 n d e in
  let q := round_half_even n1 d1 in
  let '(m, e') := if q =? 2 ^ 53 then (2 ^ 52, e + 1) else (q, e) in
  if 971 <? e' then None else Some (m, e').

(** The number a double is: an integer below [2 ^ 53] in magnitude is
    [Num]. *)
Definition of_double (neg : bool) (x : option (Z * Z)) : jsnum :=
  match x with
  | None => Infinity neg
  | Some (m, e) =>
      if m =? 0 then if neg then NegZero else Num 0
      else if (e <=? 0) && (m mod 2 ^ (- e) =? 0)
      then Num (if neg then - (m / 2 ^ (- e)) else m / 2 ^ (- e))
      else Float neg m e
  end.

(** The Number value of [n / d], for [0 <= n] and [0 < d]. *)
Definition to_number (neg : bool) (n d : Z) : jsnum :=
  if n =? 0 then if neg then NegZero else Num 0
  else of_double neg (nearest_double n d).

(** [Number(v)] on what the endpoint setter passes: [undefined], when the
    endpoint has no colon, or a string.  A string is read as
    [StringToNumber] reads it: white space around a numeric literal, which
    is binary, octal or hexadecimal digits behind their prefix, or an
    optional sign before [Infinity] or a decimal literal; the empty text is
    0 and any other text [NaN]; the value is the nearest double. *)
Definition js_Number (v : option string) : jsnum :=
  match v with
  | None => NaN
  | Some s =>
      let t := rtrim (ltrim s) in
      if String.eqb t "" then Num 0
      else
        match nondecimal_literal t with
        | Some z => to_number false z 1
        | None =>
            let '(neg, u) := match t with
                             | String "+" u => (false, u)
                             | String "-" u => (true, u)
                             | _ => (false, t)
                             end in
            if String.eqb u "Infinity" then Infinity neg
            else
              match decimal_literal u with
              | Some (M, E) =>
                  if 0 <=? E then to_number neg (M * 10 ^ E) 1
                  else to_number neg M (10 ^ (- E))
              | None => NaN
              end
        end
  end.

(** [x < 10 ^ n] for the rational [x = xn / xd]. *)
Definition below_pow10 (xn xd n : Z) : bool :=
  if 0 <=? n then xn <? xd * 10 ^ n else xn * 10 ^ (- n) <? xd.

(** The least [n] with [xn / xd < 10 ^ n], searched upwards and then
    downwards from an estimate by the binary logarithms; a double is
    between [10 ^ -324] and [10 ^ 309]. *)
Fixpoint exponent_up (fuel : nat) (xn xd n : Z) : Z :=
  match fuel with
  | O => n
  | S fuel' => if below_pow10 xn xd n then n else exponent_up fuel' xn xd (n + 1)
  end.

Fixpoint exponent_down (fuel : nat) (xn xd n : Z) : Z :=
  match fuel with
  | O => n
  | S fuel' =>
      if below_pow10 xn xd (n - 1) then exponent_down fuel' xn xd (n - 1) else n
  end.

Definition decimal_exponent (xn xd : Z) : Z :=
  let est := (Z.log2 xn - Z.log2 xd) * 1233 / 4096 in
  exponent_down 640 xn xd (exponent_up 640 xn xd est).

(** The digits [s] of which there are [k], if [s * 10 ^ (n - k)] is a
    decimal that reads back as the double [(m, e)] of value [xn / xd], where
    [10 ^ (n - 1) <= xn / xd < 10 ^ n]: of the two decimals of [k] digits
    around the value, the one that reads back, the nearer one (the even one
    in a tie) when both do.  The answer is [(s, k, n)]. *)
Definition digits_at (m e xn xd n k : Z) : option (Z * Z * Z) :=
  let '(sn, sd) := if 0 <=? n - k then (xn, xd * 10 ^ (n - k))
                   else (xn * 10 ^ (k - n), xd) in
  let lo := sn / sd in
  let back s := if 0 <=? n - k
                then bool_decide (nearest_double (s * 10 ^ (n - k)) 1 = Some (m, e))
                else bool_decide (nearest_double s (10 ^ (k - n)) = Some (m, e)) in
  let pick s := if s =? 10 ^ k then Some (1, 1, n + 1) else Some (s, k, n) in
  match (0 <? lo) && back lo, back (lo + 1) with
  | true, true => pick (round_half_even sn sd)
  | true, false => pick lo
  | false, true => pick (lo + 1)
  | false, false => None
  end.

Definition zeros (n : Z) : string :=
  String.concat "" (replicate (Z.to_nat n) "0").

(** [Number::toString] for a positive finite double: the shortest decimal
    that reads back as it (seventeen digits always do), in positional or in
    exponent notation. *)
Definition double_to_string (m e : Z) : string :=
  let '(xn, xd) := if 0 <=? e then (m * 2 ^ e, 1) else (m, 2 ^ (- e)) in
  let n0 := decimal_exponent xn xd in
  match head (omap (digits_at m e xn xd n0) (seqZ 1 17)) with
  | None => "NaN"
  | Some (s, k, n) =>
      let ds := pretty s in
      if (k <=? n) && (n <=? 21) then ds +:+ zeros (n - k)
      else if (0 <? n) && (n <=? 21)
      then String.substring 0 (Z.to_nat n) ds +:+ "."
           +:+ String.substring (Z.to_nat n) (Z.to_nat (k - n)) ds
      else if (-6 <? n) && (n <=? 0) then "0." +:+ zeros (- n) +:+ ds
      else
        let x := (if 0 <=? n - 1 then "+" else "-") +:+ pretty (Z.abs (n - 1)) in
        if k =? 1 then ds +:+ "e" +:+ x
        else String.substring 0 1 ds +:+ "."
             +:+ String.substring 1 (Z.to_nat (k - 1)) ds +:+ "e" +:+ x
  end.

(** [String(n)], as the template literal of the endpoint getter writes a
    number. *)
Definition num_to_string (n : jsnum) : string :=
  match n with
  | Num z => pretty z
  | NaN => "NaN"
  | NegZero => "0"
  | Infinity neg => if neg then "-Infinity" else "Infinity"
  | Float neg m e => (if neg then "-" else "") +:+ double_to_string m e
  end.


(** ** The session object *)

(** A request as the methods build it: [{ method, params }].  The same shape
    is what the pending cache stores ("minimal shape without id"). *)
Record command : Type := Command {
  method : string;
  params : json;
}.

(** [net.Socket], as far as the class looks at it. *)
Record socket : Type := Socket {
  sock_id : nat;
  destroyed : bool;
}.

(** An entry of [this.cmds]: the settling functions of the attempt's promise
    (named by the promise) and the deadline timer. *)
Record inflight : Type := Inflight {
  if_promise : nat;
  if_timer : nat;
}.

(** [platform.config], the part the class reads: a field is [None] when the
    configuration does not have it, and the two numbers are integers. *)
Record config : Type := Config {
  cfg_retries : option Z;         (* config.connection.retries *)
  cfg_timeout : option Z;         (* config.connection.timeout *)
  cfg_transition : option json;   (* config.transitions.power *)
}.

Record bulb : Type := Bulb {
  host : string;
  port : jsnum;
  sock : option socket;
  cmds : gmap string inflight;
  pendingByKey : gmap string command;
  online : bool;
  _reconciling : bool;
  _power : option bool;
  retries : Z;
  timeout : Z;
  transitions_power : option json;
}.

Definition set_endpoint_fields (h : string) (p : jsnum) (b : bulb) : bulb :=
  Bulb h p (sock b) (cmds b) (pendingByKey b) (online b) (_reconciling b)
       (_power b) (retries b) (timeout b) (transitions_power b).

Definition set_sock (s : option socket) (b : bulb) : bulb :=
  Bulb (host b) (port b) s (cmds b) (pendingByKey b) (online b)
       (_reconciling b) (_power b) (retries b) (timeout b) (transitions_power b).

Definition set_cmds (c : gmap string inflight) (b : bulb) : bulb :=
  Bulb (host b) (port b) (sock b) c (pendingByKey b) (online b)
       (_reconciling b) (_power b) (retries b) (timeout b) (transitions_power b).

Definition set_pendingByKey (p : gmap string command) (b : bulb) : bulb :=
  Bulb (host b) (port b) (sock b) (cmds b) p (online b)
       (_reconciling b) (_power b) (retries b) (timeout b) (transitions_power b).

Definition set_online (o : bool) (b : bulb) : bulb :=
  Bulb (host b) (port b) (sock b) (cmds b) (pendingByKey b) o
       (_reconciling b) (_power b) (retries b) (timeout b) (transitions_power b).

Definition set_reconciling (r : bool) (b : bulb) : bulb :=
  Bulb (host b) (port b) (sock b) (cmds b) (pendingByKey b) (online b)
       r (_power b) (retries b) (timeout b) (transitions_power b).

Definition set__power (p : option bool) (b : bulb) : bulb :=
  Bulb (host b) (port b) (sock b) (cmds b) (pendingByKey b) (online b)
       (_reconciling b) p (retries b) (timeout b) (transitions_power b).

(** [this.sock && !this.sock.destroyed] *)
Definition live (s : option socket) : bool :=
  match s with
  | Some sk => negb (destroyed sk)
  | None => false
  end.

(** [get endpoint()] *)
Definition endpoint (b : bulb) : string :=
  host b +:+ ":" +:+ num_to_string (port b).

(** [set endpoint(endpoint)]: [const [host, port] = endpoint.split(':')]. *)
Definition endpoint_set (ep : string) (b : bulb) : bulb :=
  let parts := split_on ":" ep in
  set_endpoint_fields (default EmptyString (parts !! 0%nat))
                      (js_Number (parts !! 1%nat)) b.

(** [get power()]: [!!this._power] *)
Definition power (b : bulb) : bool :=
  match _power b with
  | Some p => p
  | None => false
  end.

(** [set power(state)]: [state === 'on' ? true : false] *)
Definition power_set (state : jsval) (b : bulb) : bulb :=
  set__power (Some match state with
                   | VJson (JStr s) => String.eqb s "on"
                   | _ => false
                   end) b.

(** [_cachePending(cmd)] *)
Definition _cachePending (cmd : command) (b : bulb) : bulb :=
  if String.eqb (method cmd) "" then b
  else set_pendingByKey
         (<[method cmd := Command (method cmd) (params cmd)]> (pendingByKey b)) b.

(** [updateStateFromProp(prop, value)]; the second component is the value
    pushed to the On characteristic, if any. *)
Definition updateStateFromProp (prop : string) (value : json) (b : bulb)
  : bulb * option bool :=
  if negb (String.eqb prop "power") then (b, None)
  else let b' := power_set (VJson value) b in (b', Some (power b')).

(** ** Suspended activations, promise jobs, observable effects *)

(** Who awaits the promise an asynchronous method returned. *)
Inductive kont : Type :=
| KCaller (tag : nat)                     (* a caller outside the class; [tag] names it in the trace *)
| KSetPower (state : string) (k : kont)   (* [setPower], at [await this.sendCmd(req)] *)
| KCharGet (tag : nat)                    (* the [get] listener, at [await this.getProperty(['power'])] *)
| KFlush (rest : list string)             (* [_flushPending], at [await this.sendCmd(req)], with the methods still to visit *)
| KOnConnected.                           (* [_onConnected], at [await this._flushPending()] *)

(** One call of [_sendCmd(cmd, duration)]: the promise it returns, the
    command with the id [sendCmd] gave it, and the deadline. *)
Record attempt : Type := Attempt {
  a_promise : nat;
  a_cmd : command;
  a_id : nat;
  a_duration : Z;
}.

(** An activation of [sendCmd] suspended at [await this._sendCmd(cmd, t)]:
    its locals, who awaits it, and (for the statements below, read by no
    transition) the attempts it has started as pairs [(i, t)] and the errors
    it has caught. *)
Record send_task : Type := SendTask {
  t_cmd : command;
  t_id : nat;
  t_isGet : bool;
  t_retries : Z;
  t_timeout : Z;
  t_i : Z;
  t_k : kont;
  t_attempts : list (Z * Z);
  t_errors : list jsval;
}.

(** The jobs of the promise job queue. *)
Inductive job : Type :=
| JConnected (a : attempt) (r : outcome)   (* [_connect] resumes after [await this.connect()] *)
| JCatch (a : attempt) (r : outcome)       (* the reaction [.catch(reject)] of [_sendCmd] *)
| JThen (a : attempt)                      (* the reaction [.then(() => {...})] of [_sendCmd] *)
| JSendCmd (t : send_task) (r : outcome)   (* [sendCmd] resumes after [await this._sendCmd(cmd, t)] *)
| JDefer (n : nat) (k : kont) (r : outcome) (* an async function returned a promise: [n] more jobs before its own promise settles *)
| JKont (k : kont) (r : outcome).          (* the awaiting function resumes *)

(** What the session does to the outside, in order. *)
Inductive obs : Type :=
| OConnect (sid : nat) (h : string) (p : jsnum)   (* [net.connect(this.port, this.host, ...)] returned socket [sid] *)
| ODestroy (sid : nat)                            (* [this.sock.destroy()] *)
| OSetTimeout (tid : nat) (id : nat) (duration : Z) (* [setTimeout(..., duration)] of the attempt on command [id] *)
| OWrite (sid : nat) (id : nat) (c : command)     (* [this.sock.write(JSON.stringify(cmd) + EOL)] *)
| OUpdateValue (p : bool)                         (* the On characteristic's [updateValue] *)
| OSettled (tag : nat) (r : outcome)              (* the promise or callback of caller [tag] *)
| OUncaught (e : jsval)                           (* an exception leaves a listener, or a rejection nobody handles *)
| OSendCmd (id : nat) (c : command) (k : kont)    (* [sendCmd(cmd)] was entered and gave the command its id *)
| ODone (id : nat) (c : command) (attempts : list (Z * Z))
        (errors : list jsval) (r : outcome).      (* [sendCmd] returned: its promise settles as [r] *)

Record machine : Type := Machine {
  this : bulb;
  id_next : nat;                       (* the id generator of [utils] *)
  next_sock : nat;
  next_promise : nat;
  next_timer : nat;
  connecting : gmap nat attempt;       (* sockets whose [connect()] promise is pending, with the attempt awaiting it *)
  pool : list (nat * send_task);       (* pending attempt promises, with the [sendCmd] awaiting each *)
  timers : gmap nat (nat * nat);       (* armed deadline timers: the promise to reject and the command id *)
  queue : list job;
  trace : list obs;
}.

Definition with_this (f : bulb → bulb) (m : machine) : machine :=
  Machine (f (this m)) (id_next m) (next_sock m) (next_promise m) (next_timer m)
          (connecting m) (pool m) (timers m) (queue m) (trace m).

Definition set_id_next (n : nat) (m : machine) : machine :=
  Machine (this m) n (next_sock m) (next_promise m) (next_timer m)
          (connecting m) (pool m) (timers m) (queue m) (trace m).

Definition set_next_sock (n : nat) (m : machine) : machine :=
  Machine (this m) (id_next m) n (next_promise m) (next_timer m)
          (connecting m) (pool m) (timers m) (queue m) (trace m).

Definition set_next_promise (n : nat) (m : machine) : machine :=
  Machine (this m) (id_next m) (next_sock m) n (next_timer m)
          (connecting m) (pool m) (timers m) (queue m) (trace m).

Definition set_next_timer (n : nat) (m : machine) : machine :=
  Machine (this m) (id_next m) (next_sock m) (next_promise m) n
          (connecting m) (pool m) (timers m) (queue m) (trace m).

Definition set_connecting (c : gmap nat attempt) (m : machine) : machine :=
  Machine (this m) (id_next m) (next_sock m) (next_promise m) (next_timer m)
          c (pool m) (timers m) (queue m) (trace m).

Definition set_pool (p : list (nat * send_task)) (m : machine) : machine :=
  Machine (this m) (id_next m) (next_sock m) (next_promise m) (next_timer m)
          (connecting m) p (timers m) (queue m) (trace m).

Definition set_timers (t : gmap nat (nat * nat)) (m : machine) : machine :=
  Machine (this m) (id_next m) (next_sock m) (next_promise m) (next_timer m)
          (connecting m) (pool m) t (queue m) (trace m).

Definition set_queue (q : list job) (m : machine) : machine :=
  Machine (this m) (id_next m) (next_sock m) (next_promise m) (next_timer m)
          (connecting m) (pool m) (timers m) q (trace m).

Definition enqueue (j : job) (m : machine) : machine :=
  set_queue (queue m ++ [j]) m.

Definition emit (o : obs) (m : machine) : machine :=
  Machine (this m) (id_next m) (next_sock m) (next_promise m) (next_timer m)
          (connecting m) (pool m) (timers m) (queue m) (trace m ++ [o]).

Fixpoint pool_find (p : nat) (l : list (nat * send_task)) : option send_task :=
  match l with
  | [] => None
  | (q, t) :: l' => if Nat.eqb p q then Some t else pool_find p l'
  end.

Fixpoint pool_remove (p : nat) (l : list (nat * send_task)) : list (nat * send_task) :=
  match l with
  | [] => []
  | (q, t) :: l' => if Nat.eqb p q then l' else (q, t) :: pool_remove p l'
  end.

(** Calling [resolve] or [reject] of attempt promise [p]: the first call
    settles it and queues the awaiting [sendCmd]; later calls do nothing. *)
Definition settle (p : nat) (r : outcome) (m : machine) : machine :=
  match pool_find p (pool m) with
  | Some t => enqueue (JSendCmd t r) (set_pool (pool_remove p (pool m)) m)
  | None => m
  end.

(** The same for the promise of [connect()] on socket [sid]. *)
Definition settle_connect (sid : nat) (r : outcome) (m : machine) : machine :=
  match connecting m !! sid with
  | Some a => enqueue (JConnected a r) (set_connecting (delete sid (connecting m)) m)
  | None => m
  end.

(** The key of [this.cmds[cmd.id]] for an id of the generator. *)
Definition id_key (id : nat) : string := pretty (Z.of_nat id).

(** ** The methods *)

(** [net.connect(port, host, ...)] throws on a port that is not an integer
    of 0..65535; it takes [-0] for 0. *)
Definition valid_port (p : jsnum) : bool :=
  match p with
  | Num z => (0 <=? z) && (z <=? 65535)
  | NegZero => true
  | NaN | Infinity _ | Float _ _ _ => false
  end.

(** [connect()], called by attempt [a]: the executor of the promise.  The
    three listeners are the transitions [on_connect], [on_error] and
    [on_close] below. *)
Definition connect (a : attempt) (m : machine) : machine :=
  if live (sock (this m)) then enqueue (JConnected a (Fulfilled VUndefined)) m
  else if valid_port (port (this m)) then
    let sid := next_sock m in
    set_connecting (<[sid := a]> (connecting m))
      (emit (OConnect sid (host (this m)) (port (this m)))
        (set_next_sock (S sid)
          (with_this (set_sock (Some (Socket sid false))) m)))
  else enqueue (JConnected a (Rejected (VRangeError "port"))) m.

(** [_sendCmd(cmd, duration)] up to its return: [_connect()] either returns
    at once or awaits [this.connect()]. *)
Definition _sendCmd (a : attempt) (m : machine) : machine :=
  if live (sock (this m)) then enqueue (JCatch a (Fulfilled VUndefined)) m
  else connect a m.

(** The function passed to [.then] in [_sendCmd]. *)
Definition _sendCmd_then (a : attempt) (m : machine) : machine :=
  let tid := next_timer m in
  let m1 := emit (OSetTimeout tid (a_id a) (a_duration a))
              (set_next_timer (S tid)
                 (set_timers (<[tid := (a_promise a, a_id a)]> (timers m)) m)) in
  match sock (this m1) with
  | None => emit (OUncaught (VTypeError "this.sock is null")) m1
  | Some s =>
      with_this (fun b => set_cmds (<[id_key (a_id a) := Inflight (a_promise a) tid]> (cmds b)) b)
        (emit (OWrite (sock_id s) (a_id a) (a_cmd a)) m1)
  end.

(** The callback of the deadline timer [tid]. *)
Definition on_timer (tid : nat) (m : machine) : machine :=
  match timers m !! tid with
  | Some (p, id) =>
      with_this (fun b => set_cmds (delete (id_key id) (cmds b)) b)
        (settle p (Rejected (VError (id_key id)))
          (set_timers (delete tid (timers m)) m))
  | None => m
  end.

(** [sendCmd], after the loop: the command has failed. *)
Definition sendCmd_failed (t : send_task) (m : machine) : machine :=
  let m1 := match sock (this m) with
            | Some s =>
                if destroyed s then m
                else emit (ODestroy (sock_id s))
                       (with_this (set_sock (Some (Socket (sock_id s) true))) m)
            | None => m
            end in
  let m2 := with_this (set_online false) m1 in
  let r := if t_isGet t then Rejected (VError (id_key (t_id t)))
           else Fulfilled (VJson (JArr [])) in
  enqueue (JDefer 2 (t_k t) r)
    (emit (ODone (t_id t) (t_cmd t) (t_attempts t) (t_errors t) r) m2).

(** [sendCmd], at the test [i <= retries] of the loop. *)
Definition sendCmd_loop (t : send_task) (m : machine) : machine :=
  if t_i t <=? t_retries t then
    let d := js_shl (t_timeout t) (t_i t) in
    let p := next_promise m in
    let t' := SendTask (t_cmd t) (t_id t) (t_isGet t) (t_retries t) (t_timeout t)
                (t_i t) (t_k t) (t_attempts t ++ [(t_i t, d)]) (t_errors t) in
    _sendCmd (Attempt p (t_cmd t) (t_id t) d)
      (set_pool (pool m ++ [(p, t')]) (set_next_promise (S p) m))
  else sendCmd_failed t m.

(** [sendCmd(cmd)] up to its first [await]. *)
Definition sendCmd (cmd : command) (k : kont) (m : machine) : machine :=
  let isGet := String.eqb (method cmd) "get_prop" in
  let m1 := if isGet then m else with_this (_cachePending cmd) m in
  let id := id_next m1 in
  let m2 := emit (OSendCmd id cmd k) (set_id_next (S id) m1) in
  sendCmd_loop
    (SendTask cmd id isGet (retries (this m2)) (timeout (this m2)) 0 k [] []) m2.

Definition is_EHOSTUNREACH (e : jsval) : bool :=
  match e with
  | VJson (JStr s) => String.eqb s "EHOSTUNREACH"
  | _ => false
  end.

(** [sendCmd] resumes: the attempt's promise has settled. *)
Definition sendCmd_resume (t : send_task) (r : outcome) (m : machine) : machine :=
  match r with
  | Fulfilled v =>
      enqueue (JKont (t_k t) (Fulfilled v))
        (emit (ODone (t_id t) (t_cmd t) (t_attempts t) (t_errors t) (Fulfilled v)) m)
  | Rejected e =>
      let t' := SendTask (t_cmd t) (t_id t) (t_isGet t) (t_retries t) (t_timeout t)
                  (t_i t) (t_k t) (t_attempts t) (t_errors t ++ [e]) in
      if is_EHOSTUNREACH e then sendCmd_failed t' m
      else if t_i t =? t_retries t then sendCmd_failed t' m
      else sendCmd_loop
             (SendTask (t_cmd t) (t_id t) (t_isGet t) (t_retries t) (t_timeout t)
                (t_i t + 1) (t_k t) (t_attempts t) (t_errors t ++ [e])) m
  end.

(** [getProperty(properties)] and [identify()] *)
Definition getProperty (properties : json) (k : kont) (m : machine) : machine :=
  sendCmd (Command "get_prop" properties) k m.

Definition identify (k : kont) (m : machine) : machine :=
  sendCmd (Command "start_cf"
             (JArr [JNum 10; JNum 0; JStr "500,2,0,10,500,2,0,100"])) k m.

(** [setPower(power)] up to its [await], for a boolean [power]. *)
Definition setPower (p : bool) (k : kont) (m : machine) : machine :=
  if Bool.eqb (power (this m)) p then
    enqueue (JKont k (Fulfilled (VJson (JBool p)))) m
  else
    let transition := default (JNum 400) (transitions_power (this m)) in
    let state := if p then "on" else "off" in
    sendCmd (Command "set_power" (JArr [JStr state; JStr "smooth"; transition]))
            (KSetPower state k) m.

(** The order of [_flushPending]. *)
Definition order : list string :=
  [ "set_power"; "bg_set_power"; "set_ct_abx"; "set_hsv"; "set_bright";
    "bg_set_hsv"; "bg_set_bright" ].

(** [_flushPending()], at the head of its loop with [rest] still to visit,
    up to the next [await] or the return. *)
Fixpoint _flushPending_loop (rest : list string) (m : machine) : machine :=
  match rest with
  | [] => enqueue (JKont KOnConnected (Fulfilled VUndefined)) m
  | meth :: rest' =>
      match pendingByKey (this m) !! meth with
      | None => _flushPending_loop rest' m
      | Some cmd =>
          sendCmd (Command (method cmd) (params cmd)) (KFlush rest') m
      end
  end.

Definition _flushPending (m : machine) : machine := _flushPending_loop order m.

(** [_onConnected()] up to its [await]. *)
Definition _onConnected (m : machine) : machine :=
  if _reconciling (this m) then m
  else _flushPending (with_this (set_reconciling true) m).

(** [const [value] = result] of the [get] listener: [None] is the
    [TypeError] of a value that cannot be iterated. *)
Definition first_of (v : jsval) : option jsval :=
  match v with
  | VJson (JArr []) => Some VUndefined
  | VJson (JArr (x :: _)) => Some (VJson x)
  | VJson (JStr EmptyString) => Some VUndefined
  | VJson (JStr (String a _)) => Some (VJson (JStr (String a EmptyString)))
  | _ => None
  end.

(** An awaiting function resumes with the outcome of what it awaited. *)
Definition resume (k : kont) (r : outcome) (m : machine) : machine :=
  match k with
  | KCaller tag => emit (OSettled tag r) m
  | KSetPower state k' =>
      match r with
      | Fulfilled _ =>
          enqueue (JKont k' (Fulfilled VUndefined))
            (with_this (power_set (VJson (JStr state))) m)
      | Rejected e => enqueue (JKont k' (Rejected e)) m
      end
  | KCharGet tag =>
      match r with
      | Fulfilled v =>
          match first_of v with
          | Some value =>
              let m1 := with_this (power_set value) m in
              emit (OSettled tag (Fulfilled (VJson (JBool (power (this m1)))))) m1
          | None => emit (OSettled tag (Rejected (VTypeError "not iterable"))) m
          end
      | Rejected e => emit (OSettled tag (Rejected e)) m
      end
  | KFlush rest => _flushPending_loop rest m
  | KOnConnected => with_this (set_reconciling false) m
  end.

(** One job of the promise job queue. *)
Definition run_job (j : job) (m : machine) : machine :=
  match j with
  | JConnected a r => enqueue (JCatch a r) m
  | JCatch a (Fulfilled _) => enqueue (JThen a) m
  | JCatch a (Rejected e) => enqueue (JThen a) (settle (a_promise a) (Rejected e) m)
  | JThen a => _sendCmd_then a m
  | JSendCmd t r => sendCmd_resume t r m
  | JDefer (S (S n)) k r => enqueue (JDefer (S n) k r) m
  | JDefer _ k r => enqueue (JKont k r) m
  | JKont k r => resume k r m
  end.

(** [updateEndpoint(endpoint)] *)
Definition updateEndpoint (ep : string) (m : machine) : machine :=
  if String.eqb (endpoint (this m)) ep then m
  else
    let m1 := with_this (endpoint_set ep) m in
    match sock (this m1) with
    | Some s =>
        if destroyed s then m1
        else with_this (set_sock None) (emit (ODestroy (sock_id s)) m1)
    | None => m1
    end.

(** ** Inbound messages *)

(** What a handler answers: [true], [false], or an exception. *)
Inductive claim : Type :=
| Claimed
| Declined
| Threw (e : jsval).

Definition clearTimeout (tid : nat) (m : machine) : machine :=
  set_timers (delete tid (timers m)) m.

Definition delete_cmd (key : string) (m : machine) : machine :=
  with_this (fun b => set_cmds (delete key (cmds b)) b) m.

(** [responseHandler(message)].  When [message.id in this.cmds] holds through
    [Object.prototype] only, [cmd] is not an entry and [cmd.resolve] or
    [cmd.reject] is not a function. *)
Definition responseHandler (message : json) (m : machine) : machine * claim :=
  match message with
  | JObj fs =>
      if negb (has_key "id" fs) then (m, Declined)
      else
        match js_to_string (default JNull (obj_get "id" fs)) with
        | None => (m, Threw (VTypeError "Cannot convert object to primitive value"))
        | Some key =>
            if negb (js_in key (cmds (this m))) then (m, Claimed)
            else
              match cmds (this m) !! key with
              | None => (m, Threw (VTypeError "cmd.resolve is not a function"))
              | Some cmd =>
                  let m1 := clearTimeout (if_timer cmd) m in
                  match obj_get "result" fs with
                  | Some result =>
                      (delete_cmd key
                         (settle (if_promise cmd) (Fulfilled (VJson result)) m1),
                       Claimed)
                  | None =>
                      match obj_get "error" fs with
                      | Some JNull =>
                          (m1, Threw (VTypeError "Cannot read properties of null (reading 'message')"))
                      | Some (JObj efs) =>
                          let msg := match obj_get "message" efs with
                                     | Some v => VJson v
                                     | None => VUndefined
                                     end in
                          (delete_cmd key
                             (settle (if_promise cmd) (Rejected msg) m1),
                           Claimed)
                      | Some _ =>
                          (delete_cmd key
                             (settle (if_promise cmd) (Rejected VUndefined) m1),
                           Claimed)
                      | None =>
                          (m1, Threw (VTypeError "Cannot read properties of undefined (reading 'message')"))
                      end
                  end
              end
        end
  | JArr _ => (m, Declined)
  | _ => (m, Threw (VTypeError "Cannot use 'in' operator"))
  end.

(** [Object.keys(message.params).forEach(...)] on an object. *)
Fixpoint apply_props (keys : list string) (ps : list (string * json))
    (m : machine) : machine :=
  match keys with
  | [] => m
  | k :: keys' =>
      let '(b', pushed) :=
        updateStateFromProp k (default JNull (obj_get k ps)) (this m) in
      let m1 := with_this (fun _ => b') m in
      apply_props keys' ps
        match pushed with
        | Some p => emit (OUpdateValue p) m1
        | None => m1
        end
  end.

(** [stateHandler(message)].  The keys of a string or an array are indices,
    none of which is [power]; a number or a boolean has none. *)
Definition stateHandler (message : json) (m : machine) : machine * claim :=
  match message with
  | JObj fs =>
      if has_key "method" fs
         && match obj_get "method" fs with
            | Some (JStr s) => String.eqb s "props"
            | _ => false
            end
      then
        match obj_get "params" fs with
        | None | Some JNull =>
            (m, Threw (VTypeError "Cannot convert undefined or null to object"))
        | Some (JObj ps) => (apply_props (obj_keys ps) ps m, Claimed)
        | Some _ => (m, Claimed)
        end
      else (m, Declined)
  | JArr _ => (m, Declined)
  | _ => (m, Threw (VTypeError "Cannot use 'in' operator"))
  end.

(** Which handler took a message. *)
Inductive routed : Type :=
| ByResponse
| ByState
| ByNone
| Raised (e : jsval).

(** Modelled from the spec: [handle] of [utils], which is not among the
    sources.  Every parsed message is offered to the handlers in order,
    the response handler first, until one claims it. *)
Definition route (message : json) (m : machine) : machine * routed :=
  match responseHandler message m with
  | (m1, Claimed) => (m1, ByResponse)
  | (m1, Threw e) => (m1, Raised e)
  | (m1, Declined) =>
      match stateHandler message m1 with
      | (m2, Claimed) => (m2, ByState)
      | (m2, Threw e) => (m2, Raised e)
      | (m2, Declined) => (m2, ByNone)
      end
  end.

(** The [data] listener [handle([responseHandler, stateHandler])] on the
    messages of one chunk; an exception leaves the listener. *)
Fixpoint handle (messages : list json) (m : machine) : machine :=
  match messages with
  | [] => m
  | message :: rest =>
      match route message m with
      | (m1, Raised e) => emit (OUncaught e) m1
      | (m1, _) => handle rest m1
      end
  end.

(** ** Socket events *)

(** The runtime has destroyed socket [sid] (it does so before it emits
    [error] or [close]). *)
Definition mark_destroyed (sid : nat) (m : machine) : machine :=
  match sock (this m) with
  | Some s =>
      if Nat.eqb (sock_id s) sid
      then with_this (set_sock (Some (Socket sid true))) m
      else m
  | None => m
  end.

(** The connect listener passed to [net.connect]. *)
Definition on_connect (sid : nat) (m : machine) : machine :=
  settle_connect sid (Fulfilled VUndefined)
    (_onConnected (with_this (set_online true) m)).

(** The [error] listener: [reject(error.code)]. *)
Definition on_error (sid : nat) (code : option string) (m : machine) : machine :=
  settle_connect sid
    (Rejected match code with
              | Some c => VJson (JStr c)
              | None => VUndefined
              end)
    (with_this (set_online false) (mark_destroyed sid m)).

(** The [close] listener. *)
Definition on_close (sid : nat) (hadError : bool) (m : machine) : machine :=
  settle_connect sid
    (Rejected (VError ("close: error? " +:+ (if hadError then "true" else "false"))))
    (with_this (fun b => set_online false (set_cmds ∅ b)) (mark_destroyed sid m)).

(** ** The event loop *)

Inductive label : Type :=
| LJob                                      (* the next job of the promise job queue *)
| LSendCmd (cmd : command) (tag : nat)      (* [sendCmd(req)] called by a capability mixin *)
| LSetPower (p : bool) (tag : nat)          (* [setPower(value)], also the [set] listener *)
| LGetProperty (properties : json) (tag : nat)
| LIdentify (tag : nat)
| LCharGet (tag : nat)                      (* the [get] listener of the On characteristic *)
| LUpdateEndpoint (ep : string)
| LConnect (sid : nat)
| LDestroyed (sid : nat)                    (* the runtime destroys the socket; no listener runs yet *)
| LError (sid : nat) (code : option string)
| LClose (sid : nat) (hadError : bool)
| LData (sid : nat) (messages : list json)
| LTimer (tid : nat)
| LIdDrawn.                                 (* another session takes an id from the shared generator *)

(** One run-to-completion segment: a promise job, which needs one in the
    queue, or a call from outside, a socket event or a timer callback.  These
    are accepted whatever the queue holds: a caller may call twice in a row,
    or from a job of its own, and the runtime delivers the events it
    scheduled with [process.nextTick] (an [error] and the [close] after it)
    ahead of the promise jobs.  A socket event needs a socket the session has
    opened, a timer event an armed timer. *)
Definition step (l : label) (m : machine) : option machine :=
  match l with
  | LJob =>
      match queue m with
      | j :: q => Some (run_job j (set_queue q m))
      | [] => None
      end
  | LSendCmd cmd tag => Some (sendCmd cmd (KCaller tag) m)
  | LSetPower p tag => Some (setPower p (KCaller tag) m)
  | LGetProperty ps tag => Some (getProperty ps (KCaller tag) m)
  | LIdentify tag => Some (identify (KCaller tag) m)
  | LCharGet tag => Some (getProperty (JArr [JStr "power"]) (KCharGet tag) m)
  | LUpdateEndpoint ep => Some (updateEndpoint ep m)
  | LConnect sid =>
      if (sid <? next_sock m)%nat then Some (on_connect sid m) else None
  | LDestroyed sid =>
      if (sid <? next_sock m)%nat then Some (mark_destroyed sid m) else None
  | LError sid code =>
      if (sid <? next_sock m)%nat then Some (on_error sid code m) else None
  | LClose sid hadError =>
      if (sid <? next_sock m)%nat then Some (on_close sid hadError m) else None
  | LData sid messages =>
      if (sid <? next_sock m)%nat then Some (handle messages m) else None
  | LTimer tid =>
      match timers m !! tid with
      | Some _ => Some (on_timer tid m)
      | None => None
      end
  | LIdDrawn => Some (set_id_next (S (id_next m)) m)
  end.

Fixpoint run (ls : list label) (m : machine) : option machine :=
  match ls with
  | [] => Some m
  | l :: ls' =>
      match step l m with
      | Some m' => run ls' m'
      | None => None
      end
  end.

(** The fields the constructor sets.  Modelled from the spec: the id
    generator of [utils], which is not among the sources, gives fresh,
    increasing ids to all sessions of the process; [id0] is its next id. *)
Definition new_bulb (cfg : config) (ep : string) : bulb :=
  endpoint_set ep
    (Bulb EmptyString NaN None ∅ ∅ false false None
          (default 5 (cfg_retries cfg)) (default 100 (cfg_timeout cfg))
          (cfg_transition cfg)).

Definition init (cfg : config) (ep : string) (id0 : nat) : machine :=
  Machine (new_bulb cfg ep) id0 0 0 0 ∅ [] ∅ [] [OUpdateValue false].

Definition default_config : config := Config None None None.

(** The states the session can be in. *)
Definition reachable (m : machine) : Prop :=
  ∃ cfg ep id0 ls, run ls (init cfg ep id0) = Some m.

(** ** Vocabulary of the statements *)

(** The first [n] attempts of the retry loop with base deadline [t]:
    attempt [i] has deadline [t << i]. *)
Definition schedule (t : Z) (n : nat) : list (Z * Z) :=
  map (fun i => (Z.of_nat i, js_shl t (Z.of_nat i))) (seq 0 n).

(** [_cachePending] on a sequence of commands, oldest first. *)
Definition cache_all (cs : list command) (b : bulb) : bulb :=
  foldl (fun b c => _cachePending c b) b cs.

(** The most recent command of [cs] for method [k]. *)
Definition latest (k : string) (cs : list command) : option command :=
  last (filter (fun c => method c = k) cs).

(** The hosts and ports of the sockets opened in a trace. *)
Definition connects (tr : list obs) : list (string * jsnum) :=
  omap (fun o => match o with OConnect _ h p => Some (h, p) | _ => None end) tr.

(** The commands entered into [sendCmd] in a trace. *)
Definition sent (tr : list obs) : list command :=
  omap (fun o => match o with OSendCmd _ c _ => Some c | _ => None end) tr.

(** Every entry of the pending cache sits under its own method, which is
    neither empty nor the query method. *)
Definition cache_wf (c : gmap string command) : Prop :=
  ∀ k e, c !! k = Some e → method e = k ∧ k ≠ EmptyString ∧ k ≠ "get_prop".

(** What the pending cache holds under [k] after the commands [cs] were
    entered into [sendCmd], oldest first: the most recent one of method [k],
    unless [k] is empty or the query method. *)
Definition cached_latest (k : string) (cs : list command) : option command :=
  if decide (k = EmptyString ∨ k = "get_prop") then None else latest k cs.

(** An attempt of a session with configuration [R], [T]: its deadline is
    [T << i] for an index [i] of [0..R]. *)
Definition attempt_ok (R T : Z) (a : attempt) : Prop :=
  ∃ i, 0 ≤ i ≤ R ∧ a_duration a = js_shl T i.

(** A flush behind a continuation is somewhere on its way through [order]. *)
Fixpoint kont_ok (k : kont) : Prop :=
  match k with
  | KFlush rest => rest `suffix_of` order
  | KSetPower _ k' => kont_ok k'
  | _ => True
  end.

(** A suspended [sendCmd] of a session with configuration [R], [T] and
    trace [tr]: it was entered in [tr], is at attempt [i] of [0..R], has
    started the attempts [0..i] with their deadlines, and has caught [i]
    errors, none of which is EHOSTUNREACH. *)
Record task_ok (R T : Z) (tr : list obs) (t : send_task) : Prop := {
  tk_isGet : t_isGet t = String.eqb (method (t_cmd t)) "get_prop";
  tk_retries : t_retries t = R;
  tk_timeout : t_timeout t = T;
  tk_i : 0 ≤ t_i t ≤ R;
  tk_attempts : t_attempts t = schedule T (S (Z.to_nat (t_i t)));
  tk_errors : List.length (t_errors t) = Z.to_nat (t_i t);
  tk_nohost : Forall (fun e => is_EHOSTUNREACH e = false) (t_errors t);
  tk_sent : OSendCmd (t_id t) (t_cmd t) (t_k t) ∈ tr;
  tk_kont : kont_ok (t_k t);
}.

(** What [sendCmd] knows when it tests [i <= retries]: it has started [i]
    attempts and caught [i] errors. *)
Record loop_ok (R T : Z) (tr : list obs) (t : send_task) : Prop := {
  lk_isGet : t_isGet t = String.eqb (method (t_cmd t)) "get_prop";
  lk_retries : t_retries t = R;
  lk_timeout : t_timeout t = T;
  lk_i : 0 ≤ t_i t ∧ (t_i t = 0 ∨ t_i t ≤ R);
  lk_attempts : t_attempts t = schedule T (Z.to_nat (t_i t));
  lk_errors : List.length (t_errors t) = Z.to_nat (t_i t);
  lk_nohost : Forall (fun e => is_EHOSTUNREACH e = false) (t_errors t);
  lk_sent : OSendCmd (t_id t) (t_cmd t) (t_k t) ∈ tr;
  lk_kont : kont_ok (t_k t);
}.

(** A returned [sendCmd]: [n] attempts were started, at most [R + 1], with
    the deadlines of the schedule; an EHOSTUNREACH error can only be the
    last thing that happened; and when every attempt failed with another
    error the whole budget was used. *)
Definition done_ok (R T : Z) (attempts : list (Z * Z)) (errors : list jsval) : Prop :=
  ∃ n : nat,
    attempts = schedule T n ∧
    Z.of_nat n ≤ Z.max 0 (R + 1) ∧
    (List.length errors = n ∨ S (List.length errors) = n) ∧
    (∀ j e, errors !! j = Some e → is_EHOSTUNREACH e = true →
            S j = n ∧ S j = List.length errors) ∧
    (List.length errors = n → Forall (fun e => is_EHOSTUNREACH e = false) errors →
     Z.of_nat n = Z.max 0 (R + 1)).

Definition job_ok (R T : Z) (tr : list obs) (j : job) : Prop :=
  match j with
  | JSendCmd t _ => task_ok R T tr t
  | JConnected a _ | JCatch a _ | JThen a => attempt_ok R T a
  | JDefer _ k _ | JKont k _ => kont_ok k
  end.

Definition obs_ok (R T : Z) (o : obs) : Prop :=
  match o with
  | ODone _ _ attempts errors _ => done_ok R T attempts errors
  | OSetTimeout _ _ d => ∃ i, 0 ≤ i ≤ R ∧ d = js_shl T i
  | _ => True
  end.

Definition is_send (o : obs) : bool :=
  match o with
  | OSendCmd _ _ _ => true
  | _ => false
  end.

(** Activations of [_onConnected] past its guard (the flush it awaits
    included), and of [_flushPending] alone, behind a continuation. *)
Fixpoint reconciles (k : kont) : nat :=
  match k with
  | KFlush _ | KOnConnected => 1
  | KSetPower _ k' => reconciles k'
  | _ => 0
  end.

Fixpoint flushes (k : kont) : nat :=
  match k with
  | KFlush _ => 1
  | KSetPower _ k' => flushes k'
  | _ => 0
  end.

Definition job_kont (j : job) : option kont :=
  match j with
  | JSendCmd t _ => Some (t_k t)
  | JDefer _ k _ | JKont k _ => Some k
  | _ => None
  end.

Definition job_rc (j : job) : nat :=
  match job_kont j with
  | Some k => reconciles k
  | None => 0
  end.

(** The continuations alive in a machine. *)
Definition konts (m : machine) : list kont :=
  map (fun pt => t_k pt.2) (pool m) ++ omap job_kont (queue m).

Definition reconciling_count (m : machine) : nat := sum_list_with reconciles (konts m).

(** The number of [_flushPending] activations in progress. *)
Definition flush_count (m : machine) : nat := sum_list_with flushes (konts m).

(** The invariant of the event loop, for a piece of code that itself holds
    [d] activations of [_onConnected] not yet put back into the machine:
    the configuration is that of the constructor; the pending cache holds,
    per method, the most recent command entered; the attempts, the
    suspended and the returned activations of [sendCmd] and the timers armed
    follow the schedule; and the reconciling flag is set exactly when one
    activation of [_onConnected] is past its guard. *)
Record Inv (R T : Z) (d : nat) (m : machine) : Prop := {
  inv_retries : retries (this m) = R;
  inv_timeout : timeout (this m) = T;
  inv_latest : ∀ k, pendingByKey (this m) !! k = cached_latest k (sent (trace m));
  inv_connecting : map_Forall (fun _ a => attempt_ok R T a) (connecting m);
  inv_pool : Forall (fun pt => task_ok R T (trace m) pt.2) (pool m);
  inv_queue : Forall (job_ok R T (trace m)) (queue m);
  inv_trace : Forall (obs_ok R T) (trace m);
  inv_flush : (reconciling_count m + d = if _reconciling (this m) then 1 else 0)%nat;
}.

(** A function on the session object that leaves alone, at [b], what the
    invariant reads. *)
Definition keeps_core (f : bulb → bulb) (b : bulb) : Prop :=
  retries (f b) = retries b ∧ timeout (f b) = timeout b
  ∧ pendingByKey (f b) = pendingByKey b
  ∧ _reconciling (f b) = _reconciling b.

(** The pending entries a flush visits, in its order. *)
Definition flush_plan (c : gmap string command) (rest : list string) : list command :=
  omap (fun k => c !! k) rest.

(** From [m] to [m'] the host and the port have stayed, and every socket
    opened on the way was opened to them. *)
Definition endpoint_kept (m m' : machine) : Prop :=
  host (this m') = host (this m) ∧ port (this m') = port (this m)
  ∧ ∃ n, connects (trace m') =
           connects (trace m) ++ replicate n (host (this m), port (this m)).

(** A function on the session object that leaves host and port alone at
    [b]; an observation that is no socket opened to another host or port
    than those of [b]. *)
Definition keeps_endpoint (f : bulb → bulb) (b : bulb) : Prop :=
  host (f b) = host b ∧ port (f b) = port b.

Definition connects_here (o : obs) (b : bulb) : Prop :=
  match o with
  | OConnect _ h p => h = host b ∧ p = port b
  | _ => True
  end.

Definition is_endpoint_change (l : label) : bool :=
  match l with
  | LUpdateEndpoint _ => true
  | _ => false
  end.

(** C9 as it is written, for an endpoint other than the current one: the
    session is left disconnected, which the [online] flag shows, and the
    next command opens a socket to the new host and port. *)
Definition left_disconnected (ep : string) (cmd : command) (m : machine) : Prop :=
  let m' := updateEndpoint ep m in
  live (sock (this m')) = false ∧ online (this m') = false
  ∧ connects (trace (sendCmd cmd (KCaller 0) m')) =
      connects (trace m') ++ [(host (this m'), port (this m'))].

(** Exactly one of the two handlers answers [true] to a message. *)
Definition exactly_one_claims (message : json) (m : machine) : Prop :=
  ((responseHandler message m).2 = Claimed ∧ (stateHandler message m).2 ≠ Claimed)
  ∨ ((responseHandler message m).2 ≠ Claimed ∧ (stateHandler message m).2 = Claimed).

(** The command [c] is what the pending cache holds under its method. *)
Definition stays_cached (c : command) (m : machine) : Prop :=
  pendingByKey (this m) !! method c = Some c.

(** [m'] differs from [m] at most in the mirrored power and in the trace. *)
Definition same_but_power (m m' : machine) : Prop :=
  set__power None (this m') = set__power None (this m) ∧
  id_next m' = id_next m ∧ next_sock m' = next_sock m ∧
  next_promise m' = next_promise m ∧ next_timer m' = next_timer m ∧
  connecting m' = connecting m ∧ pool m' = pool m ∧ timers m' = timers m ∧
  queue m' = queue m.

(** The returns of [sendCmd] in a trace (the id, the command, the numbers
    of attempts and of errors, the outcome), and the settled callers. *)
Definition dones (tr : list obs) : list (nat * command * nat * nat * outcome) :=
  omap (fun o => match o with
                 | ODone id c a e r => Some (id, c, List.length a, List.length e, r)
                 | _ => None
                 end) tr.

Definition settled (tr : list obs) : list (nat * outcome) :=
  omap (fun o => match o with OSettled tag r => Some (tag, r) | _ => None end) tr.

(** What a [props] notification with parameters [ps] makes of the mirrored
    power, and how many of its keys are [power]. *)
Definition pushed_power (ps : list (string * json)) : bool :=
  match obj_get "power" ps with
  | Some (JStr s) => String.eqb s "on"
  | _ => false
  end.

Definition power_keys (keys : list string) : nat :=
  List.length (filter (fun k => k = "power") keys).

(** ** Vocabulary of the further properties *)

(** A host name as [split(':')] leaves it whole: no colon in it. *)
Fixpoint colon_free (s : string) : bool :=
  match s with
  | EmptyString => true
  | String a s' => negb (Ascii.eqb a ":") && colon_free s'
  end.

(** The continuations that are awaits inside the class: [setPower],
    [_flushPending] and [_onConnected]. *)
Definition inner (k : kont) : bool :=
  match k with
  | KSetPower _ _ | KFlush _ | KOnConnected => true
  | KCaller _ | KCharGet _ => false
  end.

Definition fulfilled (r : outcome) : bool :=
  match r with
  | Fulfilled _ => true
  | Rejected _ => false
  end.

(** A suspended [sendCmd] knows whether its command is a query, and is not
    awaited from inside the class when it is one. *)
Record task_sound (t : send_task) : Prop := {
  ts_isGet : t_isGet t = String.eqb (method (t_cmd t)) "get_prop";
  ts_inner : inner (t_k t) = true → t_isGet t = false;
}.

Definition job_sound (j : job) : Prop :=
  match j with
  | JSendCmd t _ => task_sound t
  | JDefer _ k r | JKont k r => inner k = true → fulfilled r = true
  | _ => True
  end.

Definition obs_sound (o : obs) : Prop :=
  match o with
  | ODone id c _ _ (Rejected e) => method c = "get_prop" ∧ e = VError (id_key id)
  | _ => True
  end.

(** What keeps rejections away from the awaits inside the class: no query
    is cached, none is awaited from inside, and [sendCmd] has rejected
    queries only. *)
Record Sound (m : machine) : Prop := {
  snd_cache : ∀ k c, pendingByKey (this m) !! k = Some c → method c ≠ "get_prop";
  snd_pool : Forall (fun pt => task_sound pt.2) (pool m);
  snd_queue : Forall job_sound (queue m);
  snd_trace : Forall obs_sound (trace m);
}.

(** The socket a runtime event is about: the runtime destroys a socket
    before it emits [error] or [close] on it. *)
Definition runtime_kills (l : label) : option nat :=
  match l with
  | LDestroyed sid | LError sid _ | LClose sid _ => Some sid
  | _ => None
  end.

(** From [m] to [m'] the trace has only grown, by [tr]; and the socket that
    was live in [m] is still the session's socket, or the session has
    destroyed it, or the runtime has (the sockets [K]). *)
Definition evolves (K : list nat) (m m' : machine) : Prop :=
  ∃ tr, trace m' = trace m ++ tr
    ∧ ∀ s, sock (this m) = Some s → destroyed s = false →
           sock (this m') = Some s ∨ ODestroy (sock_id s) ∈ tr ∨ sock_id s ∈ K.

(** A function on the session object that keeps the socket at [b], unless
    none is live there. *)
Definition sock_kept (f : bulb → bulb) (b : bulb) : Prop :=
  sock (f b) = sock b ∨ live (sock b) = false.

(** The attempt [sendCmd] starts at index [t_i t], and the task it is
    suspended as. *)
Definition attempt_of (t : send_task) (m : machine) : attempt :=
  Attempt (next_promise m) (t_cmd t) (t_id t) (js_shl (t_timeout t) (t_i t)).

Definition suspended (t : send_task) : send_task :=
  SendTask (t_cmd t) (t_id t) (t_isGet t) (t_retries t) (t_timeout t) (t_i t)
           (t_k t) (t_attempts t ++ [(t_i t, js_shl (t_timeout t) (t_i t))])
           (t_errors t).

(** [sendCmd] after it has caught [e]. *)
Definition caught (e : jsval) (t : send_task) : send_task :=
  SendTask (t_cmd t) (t_id t) (t_isGet t) (t_retries t) (t_timeout t)
           (t_i t + 1) (t_k t) (t_attempts t) (t_errors t ++ [e]).

(** The command [c] was entered into [sendCmd] and given the id [id]. *)
Definition entered (tr : list obs) (id : nat) (c : command) : Prop :=
  ∃ k, OSendCmd id c k ∈ tr.

Definition job_entered (tr : list obs) (j : job) : Prop :=
  match j with
  | JConnected a _ | JCatch a _ | JThen a => entered tr (a_id a) (a_cmd a)
  | JSendCmd t _ => entered tr (t_id t) (t_cmd t)
  | JDefer _ _ _ | JKont _ _ => True
  end.

Definition obs_entered (tr : list obs) (o : obs) : Prop :=
  match o with
  | OWrite _ id c => entered tr id c
  | OSetTimeout _ id _ => ∃ c, entered tr id c
  | ODone id c _ _ _ => entered tr id c
  | _ => True
  end.

(** Whatever the session is doing, it is doing it for a command that was
    entered into [sendCmd], under the id [sendCmd] gave it. *)
Record Entered (m : machine) : Prop := {
  en_connecting : map_Forall (fun _ a => entered (trace m) (a_id a) (a_cmd a))
                             (connecting m);
  en_pool : Forall (fun pt => entered (trace m) (t_id pt.2) (t_cmd pt.2)) (pool m);
  en_queue : Forall (job_entered (trace m)) (queue m);
  en_trace : Forall (obs_entered (trace m)) (trace m);
}.

(** ** Discovery: [handleMessage] and [buildDevice] of the platform *)

(** [s.split(sep)] for a separator that is not empty: the string is cut at
    every occurrence of [sep], found from left to right without overlap.
    [skip] counts the characters of an occurrence still to pass over and
    [cur] is the piece collected so far. *)
Fixpoint split_go (sep : string) (skip : nat) (cur s : string) : list string :=
  match s with
  | EmptyString => [cur]
  | String a s' =>
      match skip with
      | S k => split_go sep k cur s'
      | O =>
          if String.prefix sep s
          then cur :: split_go sep (String.length sep - 1) EmptyString s'
          else split_go sep 0 (cur +:+ String a EmptyString) s'
      end
  end.

Definition split_str (sep s : string) : list string :=
  split_go sep 0 EmptyString s.

(** The character [c] does not occur in [s]; the string [sep] does. *)
Fixpoint avoids (c : ascii) (s : string) : bool :=
  match s with
  | EmptyString => true
  | String a s' => negb (Ascii.eqb a c) && avoids c s'
  end.

Fixpoint occurs (sep s : string) : bool :=
  match s with
  | EmptyString => String.prefix sep EmptyString
  | String _ s' => String.prefix sep s || occurs sep s'
  end.

(** The header object of [handleMessage]: for each line, in order,
    [const [k, v] = kv.split(': '); headers[k] = v], where [v] is [None] for
    [undefined]; a key assigned again keeps its last value.  Assigning a
    string or [undefined] to [__proto__] leaves the object as it is. *)
Definition parse_header (kv : string) : string * option string :=
  let parts := split_str ": " kv in
  (default EmptyString (parts !! 0%nat), parts !! 1%nat).

Definition add_header (h : gmap string (option string)) (kv : string)
  : gmap string (option string) :=
  let '(k, v) := parse_header kv in
  if String.eqb k "__proto__" then h else <[k := v]> h.

Definition headers_of (kvs : list string) : gmap string (option string) :=
  foldl add_header ∅ kvs.

(** What [handleMessage(message)] comes to, with [debugMode] off: the
    datagram is ignored, or an exception is thrown, or [buildDevice] is
    called with the endpoint ([None] for [undefined]) and the headers. *)
Inductive discovery : Type :=
| Ignored
| Failed (e : jsval)
| Advertised (endpoint : option string) (headers : gmap string (option string)).

(** [handleMessage(message)] for the text [message.toString()], where [eol]
    is [global.EOL]. *)
Definition handleMessage (eol : string) (message : string) : discovery :=
  match split_str eol message with
  | [] => Ignored
  | method :: kvs =>
      if String.prefix "M-SEARCH" method then Ignored
      else
        let headers := headers_of kvs in
        match headers !! "Location" with
        | Some (Some location) => Advertised (split_str "//" location !! 1%nat) headers
        | _ => Failed (VTypeError "Cannot read properties of undefined (reading 'split')")
        end
  end.

(** The capability mixins of [buildDevice], in the order it pushes them. *)
Inductive mixin : Type :=
| MoonlightMode
| Brightness
| Color
| Temperature
| Backlight
| BacklightBrightness
| BacklightColor.

#[local] Instance mixin_eq_dec : EqDecision mixin.
Proof. solve_decision. Defined.

(** [support.split(' ').concat(Object.keys(props)).filter((f) =>
    !hidden.includes(f))], where [hidden f] is [hidden.includes(f)] and
    [props] are the keys of the other headers. *)
Definition features (hidden : string → bool) (support : string)
    (props : list string) : list string :=
  filter (fun f => hidden f = false) (split_on " " support ++ props).

Definition includes (fs : list string) (f : string) : bool :=
  bool_decide (f ∈ fs).

(** The mixins [buildDevice] composes the class of a new bulb from. *)
Definition mixins (hidden : string → bool) (fs : list string) : list mixin :=
  (if negb (hidden "active_mode") then [MoonlightMode] else [])
  ++ (if includes fs "set_bright" then [Brightness] else [])
  ++ (if includes fs "set_hsv" then [Color] else [])
  ++ (if includes fs "set_ct_abx" then [Temperature] else [])
  ++ (if includes fs "bg_set_power" then [Backlight] else [])
  ++ (if includes fs "bg_set_bright" then [BacklightBrightness] else [])
  ++ (if includes fs "bg_set_hsv" then [BacklightColor] else []).

(** The feature each capability mixin is attached for. *)
Definition capability (x : mixin) : string :=
  match x with
  | MoonlightMode => "active_mode"
  | Brightness => "set_bright"
  | Color => "set_hsv"
  | Temperature => "set_ct_abx"
  | Backlight => "bg_set_power"
  | BacklightBrightness => "bg_set_bright"
  | BacklightColor => "bg_set_hsv"
  end.

(** A header line [key: value], and what makes it split into its key and
    its value: no colon in the key, no colon followed by a blank in the
    value. *)
Definition header_line (kv : string * string) : string :=
  kv.1 +:+ ": " +:+ kv.2.

Definition header_ok (kv : string * string) : Prop :=
  avoids ":" kv.1 = true ∧ occurs ": " kv.2 = false.

(** ** Concrete sessions used as examples *)

(** A session with the default configuration, in a process whose next
    command id is 1. *)
Definition demo_init : machine := init default_config "192.168.1.5:55443" 1.

(** One failed attempt to connect socket [sid]: the error event and the four
    promise jobs up to the next attempt (or the return). *)
Definition refused (sid : nat) : list label :=
  [LError sid (Some "ECONNREFUSED"); LJob; LJob; LJob; LJob].

(** [setPower(true)] while the bulb refuses every connection. *)
Definition demo_offline_run : list label :=
  [LSetPower true 7] ++ refused 0 ++ refused 1 ++ refused 2 ++ refused 3
  ++ refused 4 ++ refused 5 ++ [LJob; LJob; LJob; LJob].

Definition demo_offline : machine :=
  default demo_init (run demo_offline_run demo_init).

(** A command in flight: [setPower(true)] written to a connected socket. *)
Definition demo_inflight_run : list label :=
  [LSetPower true 7; LConnect 0; LJob; LJob; LJob; LJob; LJob].

Definition demo_inflight : machine :=
  default demo_init (run demo_inflight_run demo_init).

(** A command nobody gave a method, refused six times. *)
Definition demo_nameless_run : list label :=
  [LSendCmd (Command EmptyString (JArr [])) 9] ++ refused 0 ++ refused 1
  ++ refused 2 ++ refused 3 ++ refused 4 ++ refused 5 ++ [LJob; LJob; LJob].

Definition demo_nameless : machine :=
  default demo_init (run demo_nameless_run demo_init).

(** [set_bright] to 50, overtaken by [set_bright] to 80 while the bulb
    refuses every connection. *)
Definition bright (n : Z) : command :=
  Command "set_bright" (JArr [JNum n; JStr "smooth"; JNum 400]).

Definition demo_superseded_run : list label :=
  [LSendCmd (bright 50) 1; LSendCmd (bright 80) 2; LJob; LJob] ++ refused 0
  ++ refused 1 ++ refused 2 ++ refused 3 ++ refused 4 ++ refused 5
  ++ [LJob; LJob; LJob].

Definition demo_superseded : machine :=
  default demo_init (run demo_superseded_run demo_init).

(** [setPower(true)] at the moment its sixth and last attempt has failed
    and [sendCmd] is about to resume. *)
Definition demo_last_failure_run : list label :=
  [LSetPower true 7] ++ refused 0 ++ refused 1 ++ refused 2 ++ refused 3
  ++ refused 4 ++ [LError 5 (Some "ECONNREFUSED"); LJob; LJob].

Definition demo_last_failure : machine :=
  default demo_init (run demo_last_failure_run demo_init).

Definition demo_last_task : send_task :=
  SendTask (Command "set_power" (JArr [JStr "on"; JStr "smooth"; JNum 400]))
           1 false 5 100 5 (KSetPower "on" (KCaller 7))
           (schedule 100 6) (replicate 5 (VJson (JStr "ECONNREFUSED"))).

(** [getProperty(['power'])] on a host that cannot be reached, at the
    moment [sendCmd] is about to resume from its first attempt. *)
Definition demo_unreachable_run : list label :=
  [LGetProperty (JArr [JStr "power"]) 3; LError 0 (Some "EHOSTUNREACH");
   LJob; LJob].

Definition demo_unreachable : machine :=
  default demo_init (run demo_unreachable_run demo_init).

Definition demo_unreachable_task : send_task :=
  SendTask (Command "get_prop" (JArr [JStr "power"])) 1 true 5 100 0
           (KCaller 3) (schedule 100 1) [].

(** [setPower(true)] on a fresh session, before the socket has connected. *)
Definition demo_connecting : machine :=
  default demo_init (run [LSetPower true 7] demo_init).

(** [setPower(true)] refused six times, at the moment [setPower] is about
    to resume from the [sendCmd] that gave up. *)
Definition demo_giving_up_run : list label :=
  [LSetPower true 7] ++ refused 0 ++ refused 1 ++ refused 2 ++ refused 3
  ++ refused 4 ++ refused 5 ++ [LJob; LJob].

Definition demo_giving_up : machine :=
  default demo_init (run demo_giving_up_run demo_init).

(** The query on the unreachable host, once [sendCmd] has returned. *)
Definition demo_rejected : machine :=
  default demo_init (run (demo_unreachable_run ++ [LJob]) demo_init).

(** The line end of the discovery protocol, and an advertisement: its
    status line and its headers before and after [Location]. *)
Definition crlf : string := String "013" (String "010" EmptyString).

Definition demo_status : string := "HTTP/1.1 200 OK".

Definition demo_headers_before : list (string * string) :=
  [("Cache-Control", "max-age=3600")].

Definition demo_headers_after : list (string * string) :=
  [("id", "0x000000000015243f"); ("model", "color");
   ("support", "get_prop set_power set_bright")].

(** ** The pending cache *)

Lemma cache_all_snoc (cs : list command) (c : command) (b : bulb) :
  cache_all (cs ++ [c]) b = _cachePending c (cache_all cs b).
Proof. unfold cache_all. by rewrite foldl_app. Qed.

Lemma latest_snoc (k : string) (cs : list command) (c : command) :
  latest k (cs ++ [c]) = if decide (method c = k) then Some c else latest k cs.
Proof.
  unfold latest. rewrite filter_app, filter_cons, filter_nil.
  case_decide as Hk; [by rewrite last_snoc | by rewrite app_nil_r].
Qed.

Lemma cachePending_lookup (c : command) (b : bulb) (k : string) :
  pendingByKey (_cachePending c b) !! k =
    if decide (method c = k ∧ k ≠ EmptyString)
    then Some (Command k (params c))
    else pendingByKey b !! k.
Proof.
  unfold _cachePending.
  destruct (String.eqb (method c) "") eqn:He; cbn.
  - apply String.eqb_eq in He.
    case_decide as Hk; [| done]. destruct Hk as [Hk1 Hk2]. congruence.
  - apply String.eqb_neq in He. case_decide as Hk.
    + destruct Hk as [Hk1 Hk2]. subst k. by rewrite lookup_insert_eq.
    + rewrite lookup_insert_ne; [done |]. intros Hk'. apply Hk. by subst k.
Qed.

(** C4. The pending cache is a map from method names, so it holds at most one
    entry per name; caching a command under a method that already has an
    entry replaces that entry; and after any sequence of cached commands the
    entry of a method is the most recent command of the sequence for that
    method (a command without a method name is not cached, so the empty
    name keeps what it had, which in a session is nothing). *)
Theorem cachePending_last_writer_wins (cs : list command) (b : bulb) (k : string) :
  pendingByKey (cache_all cs b) !! k =
    match latest k cs with
    | Some c =>
        if decide (k = EmptyString) then pendingByKey b !! k
        else Some (Command (method c) (params c))
    | None => pendingByKey b !! k
    end
  ∧ (∀ c1 c2 : command, method c1 = method c2 →
       _cachePending c2 (_cachePending c1 b) = _cachePending c2 b).
Proof.
  split.
  - induction cs as [| c cs IH] using rev_ind; [done |].
    rewrite cache_all_snoc, latest_snoc, cachePending_lookup, IH.
    repeat case_decide; destruct_and?; simplify_eq; try done.
    + by destruct (latest "" cs).
    + exfalso. naive_solver.
  - intros c1 c2 Hm. unfold _cachePending. rewrite <- Hm.
    destruct (String.eqb (method c1) ""); [done |]. cbn.
    by rewrite insert_insert_eq.
Qed.

(** ** Facts about single methods *)

Lemma cachePending_frame (c : command) (b : bulb) :
  host (_cachePending c b) = host b ∧ port (_cachePending c b) = port b
  ∧ sock (_cachePending c b) = sock b ∧ retries (_cachePending c b) = retries b
  ∧ timeout (_cachePending c b) = timeout b
  ∧ _reconciling (_cachePending c b) = _reconciling b
  ∧ cmds (_cachePending c b) = cmds b ∧ online (_cachePending c b) = online b
  ∧ _power (_cachePending c b) = _power b
  ∧ transitions_power (_cachePending c b) = transitions_power b.
Proof. unfold _cachePending. by destruct (String.eqb _ _). Qed.

Lemma connects_app (l1 l2 : list obs) :
  connects (l1 ++ l2) = connects l1 ++ connects l2.
Proof. apply omap_app. Qed.

(** A command entered while no socket is live opens exactly one socket, to
    the session's current host and port, provided the loop runs at all and
    the port is one [net.connect] accepts. *)
Lemma sendCmd_connects (cmd : command) (k : kont) (m : machine) :
  live (sock (this m)) = false →
  connects (trace (sendCmd cmd k m)) =
    connects (trace m)
    ++ (if (0 <=? retries (this m)) && valid_port (port (this m))
        then [(host (this m), port (this m))] else []).
Proof.
  intros Hl. unfold sendCmd, sendCmd_loop, sendCmd_failed, _sendCmd, connect.
  destruct (cachePending_frame cmd (this m)) as (Hh & Hp & Hs & Hr & _).
  destruct (String.eqb (method cmd) "get_prop"); cbn;
    rewrite ?Hh, ?Hp, ?Hs, ?Hr, ?Hl;
    destruct (0 <=? retries (this m)); cbn;
    try destruct (valid_port (port (this m))); cbn;
    try (destruct (sock (this m)) as [[sid [|]] |]; try discriminate Hl; cbn);
    rewrite ?connects_app; cbn; rewrite ?Hh, ?Hp, ?app_nil_r; done.
Qed.

Lemma sendCmd_trace (cmd : command) (k : kont) (m : machine) :
  ∃ rest, trace (sendCmd cmd k m) = trace m ++ OSendCmd (id_next m) cmd k :: rest.
Proof.
  unfold sendCmd, sendCmd_loop, sendCmd_failed, _sendCmd, connect.
  repeat (case_match; cbn); rewrite <- ?app_assoc; cbn; eauto.
Qed.

Lemma sendCmd_pending (cmd : command) (k : kont) (m : machine) :
  pendingByKey (this (sendCmd cmd k m)) =
    if String.eqb (method cmd) "get_prop" then pendingByKey (this m)
    else pendingByKey (_cachePending cmd (this m)).
Proof.
  unfold sendCmd, sendCmd_loop, sendCmd_failed, _sendCmd, connect.
  repeat (case_match; cbn); done.
Qed.

(** C10. [setPower(power)] with a boolean equal to the mirrored power does
    nothing: the session object, the trace (no command is entered, nothing
    is written), the pending attempts, timers and the id generator are as
    before, and the caller's promise is fulfilled with [power].  With a
    different boolean it enters [sendCmd] with the request
    [{ method: 'set_power', params: [state, 'smooth', transition] }], which
    is thereby cached under [set_power]. *)
Theorem setPower_skips_when_mirrored (p : bool) (k : kont) (m : machine) :
  (power (this m) = p →
     this (setPower p k m) = this m
     ∧ trace (setPower p k m) = trace m
     ∧ id_next (setPower p k m) = id_next m
     ∧ pool (setPower p k m) = pool m
     ∧ timers (setPower p k m) = timers m
     ∧ connecting (setPower p k m) = connecting m
     ∧ queue (setPower p k m) = queue m ++ [JKont k (Fulfilled (VJson (JBool p)))])
  ∧ (power (this m) ≠ p →
     ∀ state req,
       state = (if p then "on" else "off") →
       req = Command "set_power"
               (JArr [JStr state; JStr "smooth";
                      default (JNum 400) (transitions_power (this m))]) →
       setPower p k m = sendCmd req (KSetPower state k) m
       ∧ pendingByKey (this (setPower p k m)) !! "set_power" = Some req
       ∧ ∃ rest, trace (setPower p k m) =
                 trace m ++ OSendCmd (id_next m) req (KSetPower state k) :: rest).
Proof.
  split.
  - intros Hp. unfold setPower. rewrite Hp, Bool.eqb_reflx. by cbn.
  - intros Hp state req -> ->. unfold setPower.
    destruct (Bool.eqb (power (this m)) p) eqn:He.
    { apply Bool.eqb_prop in He. done. }
    split; [done |]. split.
    + rewrite sendCmd_pending. cbn. unfold _cachePending. cbn.
      by rewrite lookup_insert_eq.
    + apply sendCmd_trace.
Qed.

(** ** Numbers and endpoints *)

Lemma string_app_cons (a : ascii) (s t : string) :
  String a s +:+ t = String a (s +:+ t).
Proof. reflexivity. Qed.

Lemma string_app_assoc (s1 s2 s3 : string) :
  (s1 +:+ s2) +:+ s3 = s1 +:+ (s2 +:+ s3).
Proof.
  induction s1 as [| a s1 IH]; [done |]. rewrite !string_app_cons. by f_equal.
Qed.

Lemma split_on_colon_free (s : string) :
  colon_free s = true → split_on ":" s = [s].
Proof.
  induction s as [| a s IH]; [done |]. cbn.
  destruct (Ascii.eqb a ":"); [done |]. cbn. intros Hs. by rewrite IH.
Qed.

Lemma split_on_app (h r : string) :
  colon_free h = true →
  split_on ":" (h +:+ String ":" r) = h :: split_on ":" r.
Proof.
  induction h as [| a h IH]; [done |]. rewrite string_app_cons. cbn.
  destruct (Ascii.eqb a ":"); [done |]. cbn. intros Hs. by rewrite IH.
Qed.

Lemma digit_of_pretty_N_char (d : N) :
  (d < 10)%N → digit_of (pretty_N_char d) = Some (Z.of_N d)
               ∧ Ascii.eqb (pretty_N_char d) ":" = false.
Proof.
  intros Hd.
  assert (d = 0 ∨ d = 1 ∨ d = 2 ∨ d = 3 ∨ d = 4 ∨ d = 5 ∨ d = 6 ∨ d = 7
          ∨ d = 8 ∨ d = 9)%N as Hc by lia.
  destruct_or!; subst d; done.
Qed.

(** The decimal digits [pretty] writes for [x] in front of [s]. *)
Lemma pretty_N_go_digits (x : N) :
  ∃ ds n, (∀ s, pretty_N_go x s = ds +:+ s)
    ∧ (∀ acc s, digits_value acc (ds +:+ s) = digits_value (acc * 10 ^ n + Z.of_N x) s)
    ∧ 0 ≤ n ∧ colon_free ds = true.
Proof.
  induction (N.lt_wf_0 x) as [x _ IH].
  destruct (decide (x = 0%N)) as [-> | Hx].
  - exists EmptyString, 0. split_and!; try done.
    intros acc s. cbn. f_equal. lia.
  - assert (0 < x)%N as Hpos by lia.
    destruct (IH (x `div` 10)%N) as (ds & n & Hgo & Hval & Hn & Hcf).
    { by apply N.div_lt. }
    destruct (digit_of_pretty_N_char (x `mod` 10)%N) as [Hd Hc].
    { by apply N.mod_lt. }
    exists (ds +:+ String (pretty_N_char (x `mod` 10)%N) EmptyString), (n + 1).
    split_and!.
    + intros s. rewrite pretty_N_go_step, Hgo by done.
      by rewrite string_app_assoc.
    + intros acc s. rewrite string_app_assoc, Hval, string_app_cons.
      change (EmptyString +:+ s) with s. cbn [digits_value]. rewrite Hd.
      f_equal. rewrite Z.pow_add_r by lia.
      pose proof (N.div_mod x 10) as Hdm.
      assert (Z.of_N x = 10 * Z.of_N (x `div` 10) + Z.of_N (x `mod` 10)) by lia.
      lia.
    + lia.
    + clear -Hcf Hc. induction ds as [| a ds IHd].
      * change (colon_free (String (pretty_N_char (x `mod` 10)) EmptyString) = true).
        cbn. by rewrite Hc.
      * rewrite string_app_cons. cbn in *.
        destruct (Ascii.eqb a ":"); [done |]. cbn in *. auto.
Qed.

(** [Number(String(p))] is [p], for the decimal form of a natural number,
    which has no colon in it. *)
Lemma js_Number_pretty (p : Z) :
  0 ≤ p → digits_value 0 (pretty p) = Some p ∧ colon_free (pretty p) = true.
Proof.
  intros Hp. destruct p as [| q | q]; [done | | lia].
  unfold pretty, pretty_Z, pretty, pretty_positive, pretty, pretty_N.
  rewrite decide_False by done.
  destruct (pretty_N_go_digits (N.pos q)) as (ds & n & Hgo & Hval & Hn & Hcf).
  rewrite Hgo. split.
  - rewrite Hval. cbn. done.
  - clear -Hcf. induction ds as [| a ds IH]; [done |].
    rewrite string_app_cons. cbn in *.
    destruct (Ascii.eqb a ":"); [done |]. cbn in *. auto.
Qed.

(** A decimal digit is no white space, no sign, no point, no letter. *)
Lemma digit_of_char (a : ascii) (d : Z) :
  digit_of a = Some d →
  0 ≤ d ≤ 9 ∧ hex_digit_of a = Some d ∧ is_space a = false
  ∧ a ≠ "+"%char ∧ a ≠ "-"%char ∧ a ≠ "I"%char
  ∧ Ascii.eqb a "x" || Ascii.eqb a "X" = false
  ∧ Ascii.eqb a "o" || Ascii.eqb a "O" = false
  ∧ Ascii.eqb a "b" || Ascii.eqb a "B" = false.
Proof.
  destruct a as [[|] [|] [|] [|] [|] [|] [|] [|]]; intros Hd;
    try discriminate Hd; vm_compute in Hd; injection Hd as <-;
    by vm_compute.
Qed.

Lemma digits_value_span (s : string) (acc z : Z) :
  digits_value acc s = Some z →
  span_digits s = (s, EmptyString) ∧ rtrim s = s.
Proof.
  revert acc. induction s as [| a s IH]; intros acc Hv; [done |].
  cbn in Hv |- *. destruct (digit_of a) as [d |] eqn:Ha; [| done].
  destruct (IH _ Hv) as [-> ->]. split; [done |].
  destruct (digit_of_char a d Ha) as (_ & _ & -> & _). by destruct s.
Qed.

Lemma nondecimal_digits (s : string) (acc z : Z) :
  digits_value acc s = Some z → nondecimal_literal s = None.
Proof.
  destruct s as [| a0 [| c [| a s]]]; [done | | |].
  1, 2: by destruct a0 as [[|] [|] [|] [|] [|] [|] [|] [|]].
  intros Hv. cbn in Hv. destruct (digit_of a0) as [d0 |] eqn:H0; [| done].
  destruct (digit_of c) as [dc |] eqn:Hc; [| done].
  destruct (digit_of a) as [d |] eqn:Ha; [| done].
  destruct (digit_of_char c dc Hc) as (_ & _ & _ & _ & _ & _ & Hx & Ho & Hb).
  destruct (digit_of_char a d Ha) as (Hr & Hh & _).
  unfold nondecimal_literal. rewrite Hx, Ho, Hb.
  destruct a0 as [[|] [|] [|] [|] [|] [|] [|] [|]]; try done.
  cbn [radix_value]. rewrite Hh.
  destruct (d <? 0) eqn:Hlt; [lia | done].
Qed.

(** A positive integer below [2 ^ 53] is a double. *)
Lemma nearest_double_exact (z : Z) :
  0 < z < 2 ^ 53 → of_double false (nearest_double z 1) = Num z.
Proof.
  intros Hz.
  pose proof (Z.log2_spec z ltac:(lia)) as [Hlo Hhi].
  pose proof (Z.log2_nonneg z) as Hnn.
  assert (Z.log2 z ≤ 52) as Hle.
  { apply Z.lt_succ_r. apply (Z.pow_lt_mono_r_iff 2); lia. }
  set (l := Z.log2 z) in *.
  assert (2 ^ 52 = 2 ^ l * 2 ^ (52 - l)) as H52.
  { rewrite <- Z.pow_add_r by lia. f_equal. lia. }
  assert (0 < 2 ^ (52 - l)) as Hpos by (apply Z.pow_pos_nonneg; lia).
  replace (Z.succ l) with (l + 1) in Hhi by lia.
  rewrite Z.pow_add_r in Hhi by lia. change (2 ^ 1) with 2 in Hhi.
  assert (2 ^ 52 ≤ z * 2 ^ (52 - l) < 2 * 2 ^ 52) as Hq by nia.
  assert (∃ n1 d1, scale2 z 1 (l - 52) = (n1, d1)
            ∧ n1 / d1 = z * 2 ^ (52 - l) ∧ n1 mod d1 = 0 ∧ 0 < d1)
    as (n1 & d1 & Hsc & Hdiv & Hmod & Hd1).
  { unfold scale2. destruct (0 <=? l - 52) eqn:He.
    - assert (l = 52) as -> by lia. exists z, 1. split_and!; try done.
      + change (52 - 52) with 0. change (2 ^ 0) with 1.
        by rewrite Z.div_1_r, Z.mul_1_r.
      + apply Z.mod_1_r.
    - exists (z * 2 ^ (52 - l)), 1. replace (- (l - 52)) with (52 - l) by lia.
      split_and!; try done; [apply Z.div_1_r | apply Z.mod_1_r]. }
  assert (double_exponent z 1 = l - 52) as Hexp.
  { unfold double_exponent. change (Z.log2 1) with 0. rewrite Z.sub_0_r.
    fold l. rewrite Hsc, Hdiv.
    destruct (z * 2 ^ (52 - l) <? 2 ^ 52) eqn:Hlt; lia. }
  assert (round_half_even n1 d1 = z * 2 ^ (52 - l)) as Hr.
  { unfold round_half_even. rewrite Hdiv, Hmod.
    assert ((d1 <? 2 * 0) = false) as -> by lia.
    assert ((d1 =? 2 * 0) = false) as -> by lia. done. }
  unfold nearest_double. rewrite Hexp, Hsc, Hr.
  assert ((z * 2 ^ (52 - l) =? 2 ^ 53) = false) as ->.
  { change (2 ^ 53) with (2 * 2 ^ 52). lia. }
  assert ((971 <? l - 52) = false) as -> by lia.
  unfold of_double.
  assert ((z * 2 ^ (52 - l) =? 0) = false) as -> by lia.
  assert ((l - 52 <=? 0) = true) as -> by lia.
  replace (- (l - 52)) with (52 - l) by lia.
  rewrite Z.mod_mul by lia. cbn [Z.eqb andb].
  by rewrite Z.div_mul by lia.
Qed.

(** [Number] reads a run of decimal digits as the integer it writes, when
    a double holds it. *)
Lemma js_Number_digits (s : string) (z : Z) :
  s ≠ EmptyString → digits_value 0 s = Some z → 0 ≤ z < 2 ^ 53 →
  js_Number (Some s) = Num z.
Proof.
  intros Hs Hv Hz. unfold js_Number.
  destruct (digits_value_span s 0 z Hv) as [Hsp Hr].
  assert (ltrim s = s ∧ (∀ u, s ≠ String "+" u) ∧ (∀ u, s ≠ String "-" u)
          ∧ s ≠ "Infinity") as (Hl & Hplus & Hminus & Hinf).
  { destruct s as [| a s]; [done |]. cbn in Hv.
    destruct (digit_of a) as [d |] eqn:Ha; [| done].
    destruct (digit_of_char a d Ha) as (_ & _ & Hsp' & Hp & Hm & Hi & _).
    cbn. rewrite Hsp'. split_and!; [done | | |]; congruence. }
  rewrite Hl, Hr. destruct (String.eqb s "") eqn:He.
  { apply String.eqb_eq in He. done. }
  rewrite (nondecimal_digits s 0 z Hv).
  assert (match s with
          | String "+" u => (false, u)
          | String "-" u => (true, u)
          | _ => (false, s)
          end = (false, s)) as ->.
  { destruct s as [| a s']; [done |].
    destruct a as [[|] [|] [|] [|] [|] [|] [|] [|]]; try done.
    all: first [by destruct (Hminus s') | by destruct (Hplus s')]. }
  destruct (String.eqb s "Infinity") eqn:Hi.
  { apply String.eqb_eq in Hi. done. }
  unfold decimal_literal. rewrite Hsp. 
  assert (s +:+ EmptyString = s) as Hnil.
  { clear. induction s as [| a s IH]; [done |]. rewrite string_app_cons. by f_equal. }
  rewrite Hnil, He. cbn [exponent_part mbind option_bind]. rewrite Hv.
  cbn [mbind option_bind String.length Z.of_nat Z.sub Z.opp Z.add Z.leb Z.compare].
  change (10 ^ 0) with 1. rewrite Z.mul_1_r. unfold to_number.
  destruct (z =? 0) eqn:H0.
  - apply Z.eqb_eq in H0. by subst z.
  - apply nearest_double_exact. lia.
Qed.

(** [Number(String(p))] is [p] for a natural number that a double holds. *)
Lemma js_Number_natural (p : Z) :
  0 ≤ p < 2 ^ 53 → js_Number (Some (pretty p)) = Num p.
Proof.
  intros Hp. destruct (js_Number_pretty p) as [Hv _]; [lia |].
  apply js_Number_digits; [| done | done].
  intros He. rewrite He in Hv. cbn in Hv. injection Hv as <-. done.
Qed.

Lemma string_app_nil_r (s : string) : s +:+ EmptyString = s.
Proof. induction s as [| a s IH]; [done |]. rewrite string_app_cons. by f_equal. Qed.

Lemma endpoint_has_colon (b : bulb) : colon_free (endpoint b) = false.
Proof.
  unfold endpoint. induction (host b) as [| a h IH]; [done |].
  rewrite string_app_cons. cbn. rewrite IH. by destruct (Ascii.eqb a ":").
Qed.

Lemma sendCmd_no_port (cmd : command) (k : kont) (m : machine) :
  valid_port (port (this m)) = false →
  connects (trace (sendCmd cmd k m)) = connects (trace m).
Proof.
  intros Hv. unfold sendCmd, sendCmd_loop, sendCmd_failed, _sendCmd, connect.
  destruct (cachePending_frame cmd (this m)) as (Hh & Hp & Hs & Hr & _).
  repeat (case_match; cbn in * );
    rewrite ?connects_app; cbn; rewrite ?app_nil_r; try done; congruence.
Qed.

Lemma endpoint_set_host_port (h : string) (p : Z) (b : bulb) :
  colon_free h = true → 0 ≤ p < 2 ^ 53 →
  host (endpoint_set (h +:+ ":" +:+ pretty p) b) = h
  ∧ port (endpoint_set (h +:+ ":" +:+ pretty p) b) = Num p.
Proof.
  intros Hh Hp. destruct (js_Number_pretty p) as [Hv Hc]; [lia |].
  unfold endpoint_set.
  change (":" +:+ pretty p) with (String ":" (pretty p)).
  rewrite split_on_app, split_on_colon_free by done. cbn -[js_Number].
  by rewrite js_Number_natural.
Qed.


(** What the endpoint setter makes of port texts that are not plain
    decimal digits. *)
Lemma endpoint_set_literals (b : bulb) :
  port (endpoint_set "h:0x10" b) = Num 16
  ∧ port (endpoint_set "h:55443 " b) = Num 55443
  ∧ port (endpoint_set "h:1e3" b) = Num 1000
  ∧ port (endpoint_set "h:080" b) = Num 80
  ∧ port (endpoint_set "h:" b) = Num 0
  ∧ port (endpoint_set "h:443:80" b) = Num 443
  ∧ port (endpoint_set "h:-1" b) = Num (-1)
  ∧ port (endpoint_set "h:70000" b) = Num 70000
  ∧ endpoint (endpoint_set "h:80.5" b) = "h:80.5"
  ∧ endpoint (endpoint_set "h:1e21" b) = "h:1e+21"
  ∧ port (endpoint_set "h:80px" b) = NaN
  ∧ valid_port (port (endpoint_set "h:1e3" b)) = true
  ∧ valid_port (port (endpoint_set "h:-1" b)) = false
  ∧ valid_port (port (endpoint_set "h:70000" b)) = false
  ∧ valid_port (port (endpoint_set "h:80.5" b)) = false.
Proof. split_and!; by vm_compute. Qed.

(** ** The endpoint between two changes *)

Create HintDb kept.

Lemma endpoint_kept_trans (m1 m2 m3 : machine) :
  endpoint_kept m1 m2 → endpoint_kept m2 m3 → endpoint_kept m1 m3.
Proof.
  intros (Hh1 & Hp1 & n1 & Hc1) (Hh2 & Hp2 & n2 & Hc2).
  split_and!; [congruence | congruence |]. exists (n1 + n2)%nat.
  rewrite Hc2, Hc1, Hh1, Hp1, <- app_assoc. by rewrite replicate_add.
Qed.

Section Kept.
Context (m0 : machine).

Lemma kept_refl : endpoint_kept m0 m0.
Proof. split_and!; [done | done |]. exists 0%nat. by rewrite app_nil_r. Qed.

Lemma kept_same (m m' : machine) :
  this m' = this m → trace m' = trace m → endpoint_kept m0 m → endpoint_kept m0 m'.
Proof. intros Hb Ht (? & ? & ?). unfold endpoint_kept. by rewrite Hb, Ht. Qed.

Lemma kept_emit (o : obs) (m : machine) :
  connects_here o (this m) → endpoint_kept m0 m → endpoint_kept m0 (emit o m).
Proof.
  intros Ho (Hh & Hp & n & Hc). split_and!; [done | done |]. cbn.
  rewrite connects_app, Hc.
  destruct o as [sid h p | | | | | | | |]; cbn;
    try (exists n; by rewrite app_nil_r).
  destruct Ho as [-> ->]. exists (S n). rewrite Hh, Hp, <- app_assoc.
  change [(host (this m0), port (this m0))]
    with (replicate 1 (host (this m0), port (this m0))).
  rewrite <- replicate_add. do 2 f_equal. lia.
Qed.

Lemma kept_with_this (f : bulb → bulb) (m : machine) :
  keeps_endpoint f (this m) → endpoint_kept m0 m → endpoint_kept m0 (with_this f m).
Proof.
  intros [Hfh Hfp] (Hh & Hp & Hc). split_and!; cbn; [congruence | congruence | done].
Qed.

Lemma kept_set_id_next n m : endpoint_kept m0 m → endpoint_kept m0 (set_id_next n m).
Proof. by apply kept_same. Qed.
Lemma kept_set_next_sock n m : endpoint_kept m0 m → endpoint_kept m0 (set_next_sock n m).
Proof. by apply kept_same. Qed.
Lemma kept_set_next_promise n m :
  endpoint_kept m0 m → endpoint_kept m0 (set_next_promise n m).
Proof. by apply kept_same. Qed.
Lemma kept_set_next_timer n m : endpoint_kept m0 m → endpoint_kept m0 (set_next_timer n m).
Proof. by apply kept_same. Qed.
Lemma kept_set_connecting c m : endpoint_kept m0 m → endpoint_kept m0 (set_connecting c m).
Proof. by apply kept_same. Qed.
Lemma kept_set_timers t m : endpoint_kept m0 m → endpoint_kept m0 (set_timers t m).
Proof. by apply kept_same. Qed.
Lemma kept_set_pool p m : endpoint_kept m0 m → endpoint_kept m0 (set_pool p m).
Proof. by apply kept_same. Qed.
Lemma kept_set_queue q m : endpoint_kept m0 m → endpoint_kept m0 (set_queue q m).
Proof. by apply kept_same. Qed.
Lemma kept_enqueue j m : endpoint_kept m0 m → endpoint_kept m0 (enqueue j m).
Proof. by apply kept_same. Qed.

Lemma kept_settle p r m : endpoint_kept m0 m → endpoint_kept m0 (settle p r m).
Proof.
  intros HE. unfold settle. destruct (pool_find _ _); [| done].
  by apply (kept_same m).
Qed.

Lemma kept_settle_connect sid r m :
  endpoint_kept m0 m → endpoint_kept m0 (settle_connect sid r m).
Proof.
  intros HE. unfold settle_connect. destruct (_ !! _); [| done].
  by apply (kept_same m).
Qed.

#[local] Hint Resolve kept_emit kept_with_this kept_set_id_next
  kept_set_next_sock kept_set_next_promise kept_set_next_timer
  kept_set_connecting kept_set_timers kept_set_pool kept_set_queue
  kept_enqueue kept_settle kept_settle_connect : kept.
#[local] Hint Extern 1 (keeps_endpoint _ _) => split; reflexivity : kept.
#[local] Hint Extern 1 (connects_here _ _) => cbn; done : kept.

Ltac kept_cases := repeat case_match; eauto 20 with kept.

Lemma kept_connect a m : endpoint_kept m0 m → endpoint_kept m0 (connect a m).
Proof. intros HE. unfold connect. kept_cases. Qed.

Lemma kept__sendCmd a m : endpoint_kept m0 m → endpoint_kept m0 (_sendCmd a m).
Proof. intros HE. unfold _sendCmd. pose proof kept_connect. kept_cases. Qed.

Lemma kept__sendCmd_then a m : endpoint_kept m0 m → endpoint_kept m0 (_sendCmd_then a m).
Proof. intros HE. unfold _sendCmd_then. cbn. kept_cases. Qed.

Lemma kept_on_timer tid m : endpoint_kept m0 m → endpoint_kept m0 (on_timer tid m).
Proof. unfold on_timer. kept_cases. Qed.

Lemma kept_clearTimeout tid m : endpoint_kept m0 m → endpoint_kept m0 (clearTimeout tid m).
Proof. unfold clearTimeout. kept_cases. Qed.

Lemma kept_delete_cmd key m : endpoint_kept m0 m → endpoint_kept m0 (delete_cmd key m).
Proof. unfold delete_cmd. kept_cases. Qed.

Lemma kept_mark_destroyed sid m :
  endpoint_kept m0 m → endpoint_kept m0 (mark_destroyed sid m).
Proof. unfold mark_destroyed. kept_cases. Qed.

#[local] Hint Resolve kept_connect kept__sendCmd kept__sendCmd_then
  kept_on_timer kept_clearTimeout kept_delete_cmd kept_mark_destroyed : kept.

Lemma kept_responseHandler msg m :
  endpoint_kept m0 m → endpoint_kept m0 (responseHandler msg m).1.
Proof. unfold responseHandler. kept_cases. Qed.

Lemma kept_apply_props keys ps m :
  endpoint_kept m0 m → endpoint_kept m0 (apply_props keys ps m).
Proof.
  revert m. induction keys as [| k keys IH]; intros m HE; [done |].
  cbn [apply_props]. unfold updateStateFromProp.
  destruct (negb _); cbn; apply IH; eauto 10 with kept.
Qed.

Lemma kept_stateHandler msg m :
  endpoint_kept m0 m → endpoint_kept m0 (stateHandler msg m).1.
Proof. unfold stateHandler. pose proof kept_apply_props. kept_cases. Qed.

Lemma kept_route msg m : endpoint_kept m0 m → endpoint_kept m0 (route msg m).1.
Proof.
  intros HE. unfold route.
  pose proof (kept_responseHandler msg m HE) as H1.
  destruct (responseHandler msg m) as [m1 []]; cbn in *; try done.
  pose proof (kept_stateHandler msg m1 H1) as H2.
  by destruct (stateHandler msg m1) as [m2 []].
Qed.

Lemma kept_handle msgs m : endpoint_kept m0 m → endpoint_kept m0 (handle msgs m).
Proof.
  revert m. induction msgs as [| msg msgs IH]; intros m HE; [done |].
  cbn [handle]. pose proof (kept_route msg m HE) as H1.
  destruct (route msg m) as [m1 []]; cbn in *; eauto with kept.
Qed.

Lemma kept_sendCmd_failed t m :
  endpoint_kept m0 m → endpoint_kept m0 (sendCmd_failed t m).
Proof. intros HE. unfold sendCmd_failed. kept_cases. Qed.

Lemma kept_sendCmd_loop t m :
  endpoint_kept m0 m → endpoint_kept m0 (sendCmd_loop t m).
Proof.
  intros HE. unfold sendCmd_loop. destruct (_ <=? _).
  - eauto 10 with kept.
  - by apply kept_sendCmd_failed.
Qed.

Lemma kept_sendCmd cmd k m : endpoint_kept m0 m → endpoint_kept m0 (sendCmd cmd k m).
Proof.
  intros HE. unfold sendCmd. apply kept_sendCmd_loop.
  destruct (cachePending_frame cmd (this m)) as (Hh & Hp & _).
  destruct (String.eqb _ _); [eauto 10 with kept |].
  apply kept_emit; [done |]. apply kept_set_id_next, kept_with_this; [| done].
  by split.
Qed.

Lemma kept_sendCmd_resume t r m :
  endpoint_kept m0 m → endpoint_kept m0 (sendCmd_resume t r m).
Proof.
  intros HE. unfold sendCmd_resume.
  pose proof kept_sendCmd_failed. pose proof kept_sendCmd_loop. kept_cases.
Qed.

Lemma kept_flushPending_loop rest m :
  endpoint_kept m0 m → endpoint_kept m0 (_flushPending_loop rest m).
Proof.
  revert m. induction rest as [| meth rest IH]; intros m HE; cbn.
  - by apply kept_enqueue.
  - destruct (pendingByKey (this m) !! meth); [| by apply IH].
    by apply kept_sendCmd.
Qed.

Lemma kept_onConnected m : endpoint_kept m0 m → endpoint_kept m0 (_onConnected m).
Proof.
  intros HE. unfold _onConnected, _flushPending.
  destruct (_reconciling (this m)); [done |].
  apply kept_flushPending_loop. eauto with kept.
Qed.

Lemma kept_resume k r m : endpoint_kept m0 m → endpoint_kept m0 (resume k r m).
Proof.
  intros HE. destruct k; cbn [resume].
  - by apply kept_emit.
  - destruct r; eauto 10 with kept.
  - kept_cases.
  - by apply kept_flushPending_loop.
  - eauto with kept.
Qed.

Lemma kept_run_job j m : endpoint_kept m0 m → endpoint_kept m0 (run_job j m).
Proof.
  intros HE. destruct j as [a r | a [v | e] | a | t r | [| [| n]] k r | k r];
    cbn [run_job]; eauto 10 with kept.
  - by apply kept_sendCmd_resume.
  - by apply kept_resume.
Qed.

Lemma kept_setPower p k m : endpoint_kept m0 m → endpoint_kept m0 (setPower p k m).
Proof.
  intros HE. unfold setPower. destruct (Bool.eqb _ p).
  - by apply kept_enqueue.
  - by apply kept_sendCmd.
Qed.

End Kept.

(** Whatever happens to the session other than [updateEndpoint], the host
    and the port stay and every socket is opened to them. *)
Lemma kept_step (l : label) (m m' : machine) :
  is_endpoint_change l = false → step l m = Some m' → endpoint_kept m m'.
Proof.
  intros Hl Hs. unfold step in Hs.
  destruct l; try discriminate Hl; repeat case_match; simplify_eq.
  - apply kept_run_job, kept_set_queue, kept_refl.
  - apply kept_sendCmd, kept_refl.
  - apply kept_setPower, kept_refl.
  - apply kept_sendCmd, kept_refl.
  - apply kept_sendCmd, kept_refl.
  - apply kept_sendCmd, kept_refl.
  - apply kept_settle_connect, kept_onConnected, kept_with_this;
      [by split | apply kept_refl].
  - apply kept_mark_destroyed, kept_refl.
  - apply kept_settle_connect, kept_with_this; [by split |].
    apply kept_mark_destroyed, kept_refl.
  - apply kept_settle_connect, kept_with_this; [by split |].
    apply kept_mark_destroyed, kept_refl.
  - apply kept_handle, kept_refl.
  - apply kept_on_timer, kept_refl.
  - apply kept_set_id_next, kept_refl.
Qed.

Lemma kept_run (ls : list label) (m m' : machine) :
  Forall (fun l => is_endpoint_change l = false) ls →
  run ls m = Some m' → endpoint_kept m m'.
Proof.
  revert m. induction ls as [| l ls IH]; intros m Hls Hr; cbn in Hr.
  - injection Hr as <-. apply kept_refl.
  - apply Forall_cons in Hls as [Hl Hls].
    destruct (step l m) as [m1 |] eqn:Hs; [| done].
    exact (endpoint_kept_trans _ _ _ (kept_step _ _ _ Hl Hs) (IH _ Hls Hr)).
Qed.


Lemma power_keys_cons (k : string) (keys : list string) :
  power_keys (k :: keys) =
    if String.eqb k "power" then S (power_keys keys) else power_keys keys.
Proof.
  unfold power_keys. rewrite filter_cons.
  destruct (String.eqb k "power") eqn:Hk.
  - apply String.eqb_eq in Hk. by rewrite decide_True.
  - apply String.eqb_neq in Hk. by rewrite decide_False.
Qed.

(** [Object.keys(params).forEach(...)] changes the mirrored power only, to
    what the [power] member says, and pushes it once per [power] key; keys
    other than [power] leave no mark. *)
Lemma apply_props_spec (keys : list string) (ps : list (string * json)) (m : machine) :
  same_but_power m (apply_props keys ps m)
  ∧ trace (apply_props keys ps m) =
      trace m ++ replicate (power_keys keys) (OUpdateValue (pushed_power ps))
  ∧ _power (this (apply_props keys ps m)) =
      if decide (power_keys keys = 0%nat) then _power (this m)
      else Some (pushed_power ps).
Proof.
  revert m. induction keys as [| k keys IH]; intros m.
  - cbn. rewrite app_nil_r. by repeat split.
  - cbn [apply_props]. unfold updateStateFromProp. rewrite power_keys_cons.
    destruct (String.eqb k "power") eqn:Hk; cbn [negb].
    + apply String.eqb_eq in Hk. subst k.
      match goal with
      | |- context [apply_props keys ps ?x] => destruct (IH x) as (Hs & Ht & Hp)
      end.
      assert (power (power_set (VJson (default JNull (obj_get "power" ps))) (this m))
              = pushed_power ps) as Hpp.
      { unfold power, power_set, pushed_power. cbn.
        by destruct (obj_get "power" ps) as [[]|]. }
      split; [| split].
      * destruct Hs as (? & ? & ? & ? & ? & ? & ? & ? & ?). repeat split; try done.
      * rewrite Ht, Hpp. cbn. by rewrite <- app_assoc.
      * rewrite Hp. rewrite (decide_False (P := S _ = 0%nat)) by done.
        case_decide; [| done]. cbn. f_equal. unfold pushed_power.
        by destruct (obj_get "power" ps) as [[]|].
    + match goal with
      | |- context [apply_props keys ps ?x] => destruct (IH x) as (Hs & Ht & Hp)
      end.
      split; [| split]; [| exact Ht | exact Hp].
      destruct Hs as (? & ? & ? & ? & ? & ? & ? & ? & ?). by repeat split.
Qed.

(** Settling the promise of an in-flight entry while taking the entry out
    of [this.cmds] and disarming its timer. *)
Lemma settle_entry (key : string) (e : inflight) (r : outcome) (m : machine) :
  ∃ m', m' = delete_cmd key (settle (if_promise e) r (clearTimeout (if_timer e) m))
    ∧ cmds (this m') = delete key (cmds (this m))
    ∧ timers m' = delete (if_timer e) (timers m)
    ∧ trace m' = trace m
    ∧ match pool_find (if_promise e) (pool m) with
      | Some t => queue m' = queue m ++ [JSendCmd t r]
                  ∧ pool m' = pool_remove (if_promise e) (pool m)
      | None => queue m' = queue m ∧ pool m' = pool m
      end.
Proof.
  eexists. split; [reflexivity |].
  unfold delete_cmd, settle, clearTimeout. cbn.
  destruct (pool_find (if_promise e) (pool m)); cbn; done.
Qed.



(** The same message goes through the router unclaimed and without effect. *)
Lemma empty_message_is_dropped :
  route (JObj []) demo_init = (demo_init, ByNone).
Proof. reflexivity. Qed.

(** A response with the id of an in-flight request but neither a result nor
    an error: the handler disarms the timer and then throws at
    [message.error.message], before it rejects the request or removes it. *)
Lemma responseHandler_bare_id (fs : list (string * json)) (id : json)
    (key : string) (e : inflight) (m : machine) :
  obj_get "id" fs = Some id → js_to_string id = Some key →
  cmds (this m) !! key = Some e →
  obj_get "result" fs = None → obj_get "error" fs = None →
  responseHandler (JObj fs) m =
    (clearTimeout (if_timer e) m,
     Threw (VTypeError "Cannot read properties of undefined (reading 'message')")).
Proof.
  intros Hid Hkey He Hres Herr. unfold responseHandler, has_key, js_in.
  by rewrite Hid; cbn; rewrite Hkey, He; cbn; rewrite Hres, Herr.
Qed.

(** C8. The code does not keep this promise.  In the session
    [demo_inflight] command 1 is in flight; the message [{"id": 1}] makes
    the response handler throw a [TypeError]; the request stays in
    [this.cmds] with its deadline timer disarmed and its promise pending, so
    the [sendCmd] awaiting it is never resumed. *)
Theorem response_without_result_or_error_throws :
  ∃ m', cmds (this demo_inflight) !! "1" = Some (Inflight 0 1)
    ∧ responseHandler (JObj [("id", JNum 1)]) demo_inflight =
        (m', Threw (VTypeError "Cannot read properties of undefined (reading 'message')"))
    ∧ cmds (this m') !! "1" = Some (Inflight 0 1)
    ∧ timers demo_inflight !! 1%nat = Some (0%nat, 1%nat)
    ∧ timers m' !! 1%nat = None
    ∧ pool m' = pool demo_inflight
    ∧ queue m' = [].
Proof.
  eexists. split_and!; [| vm_compute; reflexivity | ..]; by vm_compute.
Qed.

(** ** The invariant of the event loop *)

Create HintDb inv.

Lemma schedule_S (t : Z) (n : nat) :
schedule t (S n) = schedule t n ++ [(Z.of_nat n, js_shl t (Z.of_nat n))].
Proof. unfold schedule. by rewrite seq_S, map_app. Qed.

Lemma schedule_length (t : Z) (n : nat) : List.length (schedule t n) = n.
Proof. unfold schedule. by rewrite length_map, length_seq. Qed.


Section Invariant.
Context (R T : Z).

Lemma task_ok_mono (tr tr' : list obs) (t : send_task) :
  tr ⊆ tr' → task_ok R T tr t → task_ok R T tr' t.
Proof. intros Hc [? ? ? ? ? ? ? Hk ?]. split; auto. Qed.

Lemma job_ok_mono (tr tr' : list obs) (j : job) :
  tr ⊆ tr' → job_ok R T tr j → job_ok R T tr' j.
Proof. intros Hc. destruct j; cbn; try done. by apply task_ok_mono. Qed.

Lemma sent_snoc (tr : list obs) (o : obs) :
  sent (tr ++ [o]) =
    sent tr ++ match o with OSendCmd _ c _ => [c] | _ => [] end.
Proof. unfold sent. rewrite omap_app. by destruct o. Qed.

Lemma rc_enqueue (j : job) (m : machine) :
  reconciling_count (enqueue j m) = (reconciling_count m + job_rc j)%nat.
Proof.
  unfold reconciling_count, konts, job_rc. cbn.
  rewrite omap_app, app_assoc, sum_list_with_app. cbn.
  destruct (job_kont j); cbn; lia.
Qed.

Lemma Inv_enqueue (d : nat) (j : job) (m : machine) :
  job_ok R T (trace m) j →
  Inv R T (job_rc j + d) m → Inv R T d (enqueue j m).
Proof.
  intros Hj [? ? ? ? ? ? ? Hf]. split; try done.
  - apply Forall_app. split; [done | by constructor].
  - rewrite rc_enqueue. change (this (enqueue j m)) with (this m). lia.
Qed.

Lemma Inv_emit (d : nat) (o : obs) (m : machine) :
  obs_ok R T o → is_send o = false → Inv R T d m → Inv R T d (emit o m).
Proof.
  intros Ho Hs [? ? Hl ? Hp Hq ? ?].
  assert (trace m ⊆ trace m ++ [o]) as Hsub by set_solver.
  split; try done.
  - intros k. cbn. rewrite sent_snoc, Hl.
    by destruct o; try done; rewrite app_nil_r.
  - eapply Forall_impl; [exact Hp |]. intros pt. by apply task_ok_mono.
  - eapply Forall_impl; [exact Hq |]. intros j. by apply job_ok_mono.
  - apply Forall_app. split; [done | by constructor].
Qed.

Lemma Inv_with_this (d : nat) (f : bulb → bulb) (m : machine) :
  keeps_core f (this m) → Inv R T d m → Inv R T d (with_this f m).
Proof.
  intros (Hr & Ht & Hc & Hg) [? ? ? ? ? ? ? ?].
  split; cbn; rewrite ?Hr, ?Ht, ?Hc, ?Hg; done.
Qed.

Lemma Inv_set_id_next d n m : Inv R T d m → Inv R T d (set_id_next n m).
Proof. by intros []. Qed.
Lemma Inv_set_next_sock d n m : Inv R T d m → Inv R T d (set_next_sock n m).
Proof. by intros []. Qed.
Lemma Inv_set_next_promise d n m : Inv R T d m → Inv R T d (set_next_promise n m).
Proof. by intros []. Qed.
Lemma Inv_set_next_timer d n m : Inv R T d m → Inv R T d (set_next_timer n m).
Proof. by intros []. Qed.
Lemma Inv_connecting_insert d sid a c m :
  connecting m = c → attempt_ok R T a →
  Inv R T d m → Inv R T d (set_connecting (<[sid := a]> c) m).
Proof.
  intros <- Ha [? ? ? Hc ? ? ? ?]. split; try done.
  cbn. by apply map_Forall_insert_2.
Qed.
Lemma Inv_connecting_delete d sid m :
  Inv R T d m → Inv R T d (set_connecting (delete sid (connecting m)) m).
Proof.
  intros [? ? ? Hc ? ? ? ?]. split; try done.
  cbn. by apply map_Forall_delete.
Qed.
Lemma Inv_set_timers d t m : Inv R T d m → Inv R T d (set_timers t m).
Proof. by intros []. Qed.

Lemma Inv_add_task (d p : nat) (t : send_task) (l : list (nat * send_task))
    (m : machine) :
  pool m = l →
  task_ok R T (trace m) t →
  Inv R T (reconciles (t_k t) + d) m →
  Inv R T d (set_pool (l ++ [(p, t)]) m).
Proof.
  intros <- Ht [? ? ? ? ? ? ? Hf]. split; try done.
  - apply Forall_app. split; [done | by constructor].
  - revert Hf. unfold reconciling_count, konts. cbn.
    rewrite map_app, !sum_list_with_app. cbn. lia.
Qed.

Lemma pool_find_remove (p : nat) (l : list (nat * send_task)) (t : send_task) :
  pool_find p l = Some t →
  (sum_list_with reconciles (map (fun pt => t_k pt.2) (pool_remove p l))
   + reconciles (t_k t))%nat
  = sum_list_with reconciles (map (fun pt => t_k pt.2) l).
Proof.
  intros Hf. induction l as [| [q u] l IH]; [done |].
  cbn in *. destruct (Nat.eqb p q).
  - injection Hf as ->. lia.
  - cbn. rewrite <- IH by done. lia.
Qed.

Lemma pool_find_In (p : nat) (l : list (nat * send_task)) (t : send_task) :
  pool_find p l = Some t → (p, t) ∈ l.
Proof.
  induction l as [| [q u] l IH]; [done |]. cbn.
  destruct (Nat.eqb_spec p q) as [-> |].
  - intros [= ->]. left.
  - intros H. right. auto.
Qed.

Lemma pool_remove_sub (p : nat) (l : list (nat * send_task)) :
  pool_remove p l ⊆ l.
Proof.
  induction l as [| [q u] l IH]; [done |]. cbn.
  destruct (Nat.eqb p q).
  - by apply list_subseteq_cons.
  - intros x [-> | Hx]%elem_of_cons; [left | right; auto].
Qed.

Lemma Inv_settle (d p : nat) (r : outcome) (m : machine) :
  Inv R T d m → Inv R T d (settle p r m).
Proof.
  intros HI. unfold settle. destruct (pool_find p (pool m)) as [t |] eqn:Hp; [| done].
  destruct HI as [? ? ? ? Hpool ? ? Hf]. split; try done.
  - cbn. rewrite Forall_forall in *. intros x Hx. apply Hpool.
    by apply (pool_remove_sub p).
  - cbn. apply Forall_app. split; [done |]. constructor; [| done].
    cbn. rewrite Forall_forall in Hpool.
    by apply (Hpool (p, t)), pool_find_In.
  - revert Hf. unfold reconciling_count, konts. cbn.
    rewrite omap_app, !sum_list_with_app. cbn.
    rewrite <- (pool_find_remove p (pool m) t) by auto. lia.
Qed.

Lemma Inv_settle_connect (d sid : nat) (r : outcome) (m : machine) :
  Inv R T d m → Inv R T d (settle_connect sid r m).
Proof.
  intros HI. unfold settle_connect.
  destruct (connecting m !! sid) as [a |] eqn:Ha; [| done].
  apply Inv_enqueue; [| by apply Inv_connecting_delete].
  exact (inv_connecting _ _ _ _ HI sid a Ha).
Qed.

#[local] Hint Resolve Inv_enqueue Inv_emit Inv_with_this Inv_set_id_next
  Inv_set_next_sock Inv_set_next_promise Inv_set_next_timer
  Inv_connecting_insert Inv_connecting_delete Inv_set_timers Inv_add_task
  Inv_settle Inv_settle_connect : inv.
#[local] Hint Extern 1 (keeps_core _ _) => done : inv.
#[local] Hint Extern 1 (job_ok _ _ _ _) => (cbn; done) : inv.
#[local] Hint Extern 1 (obs_ok _ _ _) => (cbn; done) : inv.
#[local] Hint Extern 1 (_ = _ :> gmap _ _) => reflexivity : inv.
#[local] Hint Extern 1 (is_send _ = false) => reflexivity : inv.

Ltac inv_cases := repeat case_match; eauto 20 with inv.
Ltac task_simpl :=
  cbn [t_cmd t_id t_isGet t_retries t_timeout t_i t_k t_attempts t_errors].

Lemma Inv_connect d a m :
  attempt_ok R T a → Inv R T d m → Inv R T d (connect a m).
Proof. intros Ha HI. unfold connect. inv_cases. Qed.

Lemma Inv__sendCmd d a m :
  attempt_ok R T a → Inv R T d m → Inv R T d (_sendCmd a m).
Proof. intros Ha HI. unfold _sendCmd. pose proof Inv_connect. inv_cases. Qed.

Lemma Inv__sendCmd_then d a m :
  attempt_ok R T a → Inv R T d m → Inv R T d (_sendCmd_then a m).
Proof. intros Ha HI. unfold _sendCmd_then. cbn. inv_cases. Qed.

Lemma Inv_on_timer d tid m : Inv R T d m → Inv R T d (on_timer tid m).
Proof. unfold on_timer. inv_cases. Qed.

Lemma Inv_mark_destroyed d sid m : Inv R T d m → Inv R T d (mark_destroyed sid m).
Proof. unfold mark_destroyed. inv_cases. Qed.

Lemma Inv_updateEndpoint d ep m : Inv R T d m → Inv R T d (updateEndpoint ep m).
Proof. unfold updateEndpoint. cbn. inv_cases. Qed.

Lemma Inv_clearTimeout d tid m : Inv R T d m → Inv R T d (clearTimeout tid m).
Proof. unfold clearTimeout. inv_cases. Qed.

Lemma Inv_delete_cmd d key m : Inv R T d m → Inv R T d (delete_cmd key m).
Proof. unfold delete_cmd. inv_cases. Qed.

#[local] Hint Resolve Inv_connect Inv__sendCmd Inv__sendCmd_then Inv_on_timer
  Inv_mark_destroyed Inv_updateEndpoint Inv_clearTimeout Inv_delete_cmd : inv.

Lemma Inv_responseHandler d msg m :
  Inv R T d m → Inv R T d (responseHandler msg m).1.
Proof. unfold responseHandler. inv_cases. Qed.

Lemma Inv_apply_props d keys ps m :
  Inv R T d m → Inv R T d (apply_props keys ps m).
Proof.
  revert m. induction keys as [| k keys IH]; intros m HI; [done |].
  cbn [apply_props]. unfold updateStateFromProp.
  destruct (negb _); cbn; apply IH; eauto 10 with inv.
Qed.

Lemma Inv_stateHandler d msg m :
  Inv R T d m → Inv R T d (stateHandler msg m).1.
Proof. unfold stateHandler. pose proof Inv_apply_props. inv_cases. Qed.

Lemma Inv_route d msg m : Inv R T d m → Inv R T d (route msg m).1.
Proof.
  intros HI. unfold route.
  pose proof (Inv_responseHandler d msg m HI) as H1.
  destruct (responseHandler msg m) as [m1 []]; cbn in *; try done.
  pose proof (Inv_stateHandler d msg m1 H1) as H2.
  by destruct (stateHandler msg m1) as [m2 []].
Qed.

Lemma Inv_handle d msgs m : Inv R T d m → Inv R T d (handle msgs m).
Proof.
  revert m. induction msgs as [| msg msgs IH]; intros m HI; [done |].
  cbn [handle]. pose proof (Inv_route d msg m HI) as H1.
  destruct (route msg m) as [m1 []]; cbn in *; eauto with inv.
Qed.

Lemma Inv_on_error d sid code m : Inv R T d m → Inv R T d (on_error sid code m).
Proof. unfold on_error. inv_cases. Qed.

Lemma Inv_on_close d sid e m : Inv R T d m → Inv R T d (on_close sid e m).
Proof. unfold on_close. inv_cases. Qed.

#[local] Hint Resolve Inv_handle Inv_on_error Inv_on_close : inv.

Lemma Inv_sendCmd_failed d t m :
  done_ok R T (t_attempts t) (t_errors t) → kont_ok (t_k t) →
  Inv R T (reconciles (t_k t) + d) m → Inv R T d (sendCmd_failed t m).
Proof.
  intros Hd Hk HI. unfold sendCmd_failed.
  apply Inv_enqueue; [done |]. apply Inv_emit; [done | done |].
  apply Inv_with_this; [done |]. inv_cases.
Qed.

Lemma Inv_sendCmd_loop d t m :
  loop_ok R T (trace m) t →
  Inv R T (reconciles (t_k t) + d) m → Inv R T d (sendCmd_loop t m).
Proof.
  intros [Hg Hr Ht [Hi0 Hi] Ha He Hn Hc Hk] HI. unfold sendCmd_loop.
  destruct (Z.leb_spec (t_i t) (t_retries t)) as [Hle | Hgt].
  - apply Inv__sendCmd; [exists (t_i t); cbn; split; [lia | by rewrite Ht] |].
    apply Inv_add_task; [done | | by apply Inv_set_next_promise].
    split; task_simpl; try done; try lia.
    rewrite Ha, schedule_S, Z2Nat.id by done. by rewrite Ht.
  - apply Inv_sendCmd_failed; [| done | done].
    assert (t_i t = 0) as H0 by lia.
    exists 0%nat. rewrite Ha, He, H0. cbn.
    split_and!; try done; try lia.
    intros j e Hj. destruct (t_errors t); [done |]. by rewrite H0 in He.
Qed.

Lemma latest_in (k : string) (cs : list command) (c : command) :
  latest k cs = Some c → method c = k ∧ c ∈ cs.
Proof.
  unfold latest. intros Hl. apply last_Some_elem_of in Hl.
  apply list_elem_of_filter in Hl. naive_solver.
Qed.

(** Entering [sendCmd]: the command is cached, unless it is a query or
    has no method, and recorded as entered. *)
Lemma Inv_enter d cmd k m :
  Inv R T d m →
  Inv R T d
    (emit (OSendCmd (id_next m) cmd k)
       (set_id_next (S (id_next m))
          (if String.eqb (method cmd) "get_prop" then m
           else with_this (_cachePending cmd) m))).
Proof.
  intros [Hr Ht Hl Hco Hp Hq Htr Hf].
  destruct (cachePending_frame cmd (this m)) as (_ & _ & _ & Hr' & Ht' & Hrc & _).
  assert (trace m ⊆ trace m ++ [OSendCmd (id_next m) cmd k]) as Hsub by set_solver.
  destruct (String.eqb (method cmd) "get_prop") eqn:Hg;
    (split; cbn; rewrite ?Hr', ?Ht', ?Hrc; try done;
     [ | eapply Forall_impl; [exact Hp |]; intros pt; by apply task_ok_mono
       | eapply Forall_impl; [exact Hq |]; intros j; by apply job_ok_mono
       | apply Forall_app; split; [done | by constructor] ]).
  - apply String.eqb_eq in Hg. intros k'. rewrite sent_snoc, Hl.
    unfold cached_latest. case_decide as Hk; [done |].
    rewrite latest_snoc, decide_False; [done |]. naive_solver.
  - apply String.eqb_neq in Hg. intros k'.
    rewrite cachePending_lookup, sent_snoc, Hl.
    unfold cached_latest. rewrite latest_snoc.
    destruct cmd as [meth ps]. cbn in *.
    repeat case_decide; destruct_or?; destruct_and?; simplify_eq; try done;
      exfalso; naive_solver.
Qed.

Lemma Inv_sendCmd d cmd k m :
  kont_ok k → Inv R T (reconciles k + d) m → Inv R T d (sendCmd cmd k m).
Proof.
  intros Hk HI. unfold sendCmd.
  destruct (cachePending_frame cmd (this m)) as (_ & _ & _ & Hr & Ht & _).
  pose proof (Inv_enter _ cmd k m HI) as HE.
  destruct HI.
  destruct (String.eqb (method cmd) "get_prop") eqn:Hg;
    (apply Inv_sendCmd_loop; [| exact HE]);
    (split; task_simpl; cbn; rewrite ?Hr, ?Ht; try done; try lia; set_solver).
Qed.

Lemma nohost_lookup (errors : list jsval) (j : nat) (e : jsval) :
  Forall (fun e => is_EHOSTUNREACH e = false) errors →
  errors !! j = Some e → is_EHOSTUNREACH e = true → False.
Proof.
  intros Hn Hj He. rewrite Forall_forall in Hn.
  rewrite (Hn e) in He; [done |]. by eapply list_elem_of_lookup_2.
Qed.

Lemma Inv_sendCmd_resume d t r m :
  task_ok R T (trace m) t →
  Inv R T (reconciles (t_k t) + d) m → Inv R T d (sendCmd_resume t r m).
Proof.
  intros [Hg Hr Ht Hi Ha He Hn Hc Hk] HI. unfold sendCmd_resume.
  destruct r as [v | e].
  - apply Inv_enqueue; [done |]. apply Inv_emit; [| done | done].
    exists (S (Z.to_nat (t_i t))). split_and!; try done; try lia; try by right.
    intros j e Hj Hh. destruct (nohost_lookup _ _ _ Hn Hj Hh).
  - destruct (is_EHOSTUNREACH e) eqn:Hh; [| destruct (Z.eqb_spec (t_i t) (t_retries t))].
    + apply Inv_sendCmd_failed; [| done | done]. task_simpl.
      exists (S (Z.to_nat (t_i t))).
      rewrite length_app, He. cbn.
      split_and!; try done; try lia.
      * intros j e' Hj Hh'.
        destruct (decide (j < List.length (t_errors t))%nat) as [Hlt | Hge].
        { rewrite lookup_app_l in Hj by done.
          destruct (nohost_lookup _ _ _ Hn Hj Hh'). }
        apply lookup_lt_Some in Hj. rewrite length_app in Hj. cbn in Hj. lia.
      * intros _ Hall. apply Forall_app in Hall as [_ Hall].
        rewrite Forall_singleton in Hall. congruence.
    + apply Inv_sendCmd_failed; [| done | done]. task_simpl.
      exists (S (Z.to_nat (t_i t))).
      rewrite length_app, He. cbn.
      split_and!; try done; try lia.
      * intros j e' Hj Hh'.
        apply list_elem_of_lookup_2, elem_of_app in Hj as [Hj | Hj].
        { rewrite Forall_forall in Hn. rewrite (Hn e' Hj) in Hh'. done. }
        apply list_elem_of_singleton in Hj. subst e'. congruence.
    + apply Inv_sendCmd_loop; [| done].
      split; task_simpl; try done; try lia.
      * rewrite Ha. f_equal. lia.
      * rewrite length_app, He. cbn. lia.
      * apply Forall_app. split; [done |]. by apply Forall_singleton.
Qed.

Lemma Inv_flushPending_loop d rest m :
  rest `suffix_of` order →
  Inv R T (S d) m → Inv R T d (_flushPending_loop rest m).
Proof.
  revert m. induction rest as [| meth rest IH]; intros m Hs HI; cbn.
  - by apply Inv_enqueue.
  - assert (rest `suffix_of` order) as Hs'.
    { etrans; [| exact Hs]. by apply suffix_cons_r. }
    destruct (pendingByKey (this m) !! meth); [| by apply IH].
    by apply Inv_sendCmd.
Qed.

Lemma Inv_onConnected d m : Inv R T d m → Inv R T d (_onConnected m).
Proof.
  intros HI. unfold _onConnected, _flushPending.
  destruct (_reconciling (this m)) eqn:Hf; [done |].
  apply Inv_flushPending_loop; [done |]. destruct HI as [? ? ? ? ? ? ? Hc].
  split; try done. rewrite Hf in Hc.
  change (reconciling_count (with_this (set_reconciling true) m))
    with (reconciling_count m). cbn. lia.
Qed.

Lemma Inv_resume d k r m :
  kont_ok k → Inv R T (reconciles k + d) m → Inv R T d (resume k r m).
Proof.
  intros Hk HI. destruct k; cbn [resume].
  - by apply Inv_emit.
  - destruct r; eauto 10 with inv.
  - inv_cases.
  - by apply Inv_flushPending_loop.
  - destruct HI as [? ? ? ? ? ? ? Hc]. split; try done.
    change (reconciling_count (with_this (set_reconciling false) m))
      with (reconciling_count m). cbn in *.
    destruct (_reconciling (this m)); lia.
Qed.

Lemma Inv_run_job d j m :
  job_ok R T (trace m) j →
  Inv R T (job_rc j + d) m → Inv R T d (run_job j m).
Proof.
  intros Hj HI. destruct j as [a r | a [v | e] | a | t r | [| [| n]] k r | k r];
    cbn [run_job]; eauto 10 with inv.
  - by apply Inv_sendCmd_resume.
  - by apply Inv_resume.
Qed.

Lemma Inv_setPower d p k m :
  kont_ok k → Inv R T (reconciles k + d) m → Inv R T d (setPower p k m).
Proof.
  intros Hk HI. unfold setPower. destruct (Bool.eqb _ p).
  - by apply Inv_enqueue.
  - by apply Inv_sendCmd.
Qed.

Lemma Inv_pop d j q m :
  queue m = j :: q → Inv R T d m →
  job_ok R T (trace m) j ∧ Inv R T (job_rc j + d) (set_queue q m).
Proof.
  intros Hq [? ? ? ? ? Hjobs ? Hc]. rewrite Hq in Hjobs.
  apply Forall_cons in Hjobs as [Hj Hjobs]. split; [done |].
  split; try done. revert Hc. unfold reconciling_count, konts, job_rc.
  rewrite Hq. cbn. destruct (job_kont j); cbn; rewrite !sum_list_with_app; cbn; lia.
Qed.

Lemma Inv_step l m m' : Inv R T 0 m → step l m = Some m' → Inv R T 0 m'.
Proof.
  intros HI Hs. unfold step in Hs.
  destruct l; [destruct (queue m) as [| j q] eqn:Hq |..]; simplify_eq.
  - destruct (Inv_pop 0 j q m Hq HI) as [Hj HI'].
    by apply Inv_run_job.
  - by apply Inv_sendCmd.
  - by apply Inv_setPower.
  - by apply Inv_sendCmd.
  - by apply Inv_sendCmd.
  - by apply Inv_sendCmd.
  - eauto 10 with inv.
  - case_match; simplify_eq.
    by apply Inv_settle_connect, Inv_onConnected, Inv_with_this.
  - case_match; simplify_eq. eauto 10 with inv.
  - case_match; simplify_eq. eauto 10 with inv.
  - case_match; simplify_eq. eauto 10 with inv.
  - case_match; simplify_eq. eauto 10 with inv.
  - case_match; simplify_eq. eauto 10 with inv.
  - eauto 10 with inv.
Qed.
End Invariant.

(** ** What the session guarantees in every reachable state *)

Lemma Inv_init (cfg : config) (ep : string) (id0 : nat) :
  Inv (retries (new_bulb cfg ep)) (timeout (new_bulb cfg ep)) 0 (init cfg ep id0).
Proof.
  split; cbn; try done.
  - intros k. rewrite lookup_empty. unfold cached_latest. by case_decide.
  - by repeat constructor.
Qed.

Lemma Inv_run (R T : Z) (ls : list label) (m m' : machine) :
  Inv R T 0 m → run ls m = Some m' → Inv R T 0 m'.
Proof.
  revert m. induction ls as [| l ls IH]; intros m HI Hr; cbn in Hr.
  - by injection Hr as <-.
  - destruct (step l m) as [m1 |] eqn:Hs; [| done].
    eapply IH; [| done]. by eapply Inv_step.
Qed.

(** Every state the session reaches satisfies the invariant, for its own
    configuration. *)
Lemma reachable_Inv (m : machine) :
  reachable m → Inv (retries (this m)) (timeout (this m)) 0 m.
Proof.
  intros (cfg & ep & id0 & ls & Hr).
  pose proof (Inv_run _ _ _ _ _ (Inv_init cfg ep id0) Hr) as HI.
  by rewrite (inv_retries _ _ _ _ HI), (inv_timeout _ _ _ _ HI).
Qed.

Lemma latest_app (k : string) (l1 l2 : list command) :
  latest k (l1 ++ l2) =
    match latest k l2 with
    | Some c => Some c
    | None => latest k l1
    end.
Proof.
  induction l2 as [| c l2 IH] using rev_ind.
  - by rewrite app_nil_r.
  - rewrite app_assoc, !latest_snoc. case_decide; [done |]. exact IH.
Qed.

Lemma sent_app (l1 l2 : list obs) : sent (l1 ++ l2) = sent l1 ++ sent l2.
Proof. apply omap_app. Qed.

(** In a reachable state the pending cache is well formed. *)
Lemma reachable_cache_wf (m : machine) :
  reachable m → cache_wf (pendingByKey (this m)).
Proof.
  intros Hr k e. rewrite (inv_latest _ _ _ _ (reachable_Inv m Hr)).
  unfold cached_latest. case_decide as Hk; [done |].
  intros [Hm _]%latest_in. naive_solver.
Qed.

Lemma schedule_lookup (t : Z) (n : nat) (i d : Z) :
  (i, d) ∈ schedule t n → 0 ≤ i < Z.of_nat n ∧ d = js_shl t i.
Proof.
  unfold schedule. intros (j & [= -> ->] & Hj%elem_of_seq)%list_elem_of_fmap.
  split; [lia | done].
Qed.

(** C2. In every state the session reaches, every [sendCmd] that has
    returned or is suspended has started its attempts one after the other
    with the indices 0, 1, 2, ..., never more than [retries + 1] of them and
    none with an index above [retries]; attempt [i] had the deadline
    [timeout << i], and every timer the session has armed was armed with
    such a deadline; and a command whose every attempt failed, none with
    EHOSTUNREACH, used the whole budget of [retries + 1] attempts.  The
    constructor's defaults are [retries = 5] and [timeout = 100], which
    gives the six deadlines 100, 200, 400, 800, 1600 and 3200. *)
Theorem sendCmd_attempt_schedule (m : machine) :
  reachable m →
  (∀ id c attempts errors r,
     ODone id c attempts errors r ∈ trace m →
     attempts = schedule (timeout (this m)) (List.length attempts)
     ∧ Z.of_nat (List.length attempts) ≤ Z.max 0 (retries (this m) + 1)
     ∧ (∀ i d, (i, d) ∈ attempts →
          0 ≤ i ≤ retries (this m) ∧ d = js_shl (timeout (this m)) i)
     ∧ (List.length errors = List.length attempts →
        Forall (fun e => is_EHOSTUNREACH e = false) errors →
        Z.of_nat (List.length attempts) = Z.max 0 (retries (this m) + 1)))
  ∧ (∀ p t,
       (p, t) ∈ pool m →
       t_attempts t = schedule (timeout (this m)) (List.length (t_attempts t))
       ∧ Z.of_nat (List.length (t_attempts t)) = t_i t + 1
       ∧ t_i t ≤ retries (this m)
       ∧ ∀ i d, (i, d) ∈ t_attempts t →
           0 ≤ i ≤ retries (this m) ∧ d = js_shl (timeout (this m)) i)
  ∧ (∀ tid id d,
       OSetTimeout tid id d ∈ trace m →
       ∃ i, 0 ≤ i ≤ retries (this m) ∧ d = js_shl (timeout (this m)) i)
  ∧ (∀ ep id0,
       retries (this (init default_config ep id0)) = 5
       ∧ timeout (this (init default_config ep id0)) = 100)
  ∧ schedule 100 (Z.to_nat (5 + 1)) =
      [(0, 100); (1, 200); (2, 400); (3, 800); (4, 1600); (5, 3200)].
Proof.
  intros Hr. pose proof (reachable_Inv m Hr) as [_ _ _ _ Hp _ Ht _].
  split_and!; [| | | done | done].
  - intros id c attempts errors r Hd.
    rewrite Forall_forall in Ht. specialize (Ht _ Hd).
    destruct Ht as (n & -> & Hn & _ & _ & Hall).
    rewrite schedule_length. split_and!; try done.
    intros i d [Hi ->]%schedule_lookup. split; [lia | done].
  - intros p t Hpt. rewrite Forall_forall in Hp. specialize (Hp _ Hpt).
    destruct Hp as [_ _ _ Hi Ha _ _ _ _]. change ((p, t).2) with t in *.
    rewrite Ha, schedule_length. split_and!; try done; try lia.
    intros i d [Hi' ->]%schedule_lookup. split; [lia | done].
  - intros tid id d Hd. rewrite Forall_forall in Ht. exact (Ht _ Hd).
Qed.

(** The code after the retry loop, whatever state it finds. *)
Lemma sendCmd_failed_spec (t : send_task) (m : machine) :
  ∃ r, r = (if t_isGet t then Rejected (VError (id_key (t_id t)))
            else Fulfilled (VJson (JArr [])))
    ∧ live (sock (this (sendCmd_failed t m))) = false
    ∧ online (this (sendCmd_failed t m)) = false
    ∧ trace (sendCmd_failed t m) =
        trace m
        ++ match sock (this m) with
           | Some s => if destroyed s then [] else [ODestroy (sock_id s)]
           | None => []
           end
        ++ [ODone (t_id t) (t_cmd t) (t_attempts t) (t_errors t) r]
    ∧ queue (sendCmd_failed t m) = queue m ++ [JDefer 2 (t_k t) r]
    ∧ pendingByKey (this (sendCmd_failed t m)) = pendingByKey (this m)
    ∧ pool (sendCmd_failed t m) = pool m
    ∧ next_promise (sendCmd_failed t m) = next_promise m
    ∧ next_sock (sendCmd_failed t m) = next_sock m
    ∧ connecting (sendCmd_failed t m) = connecting m
    ∧ timers (sendCmd_failed t m) = timers m
    ∧ cmds (this (sendCmd_failed t m)) = cmds (this m).
Proof.
  eexists. split; [reflexivity |]. unfold sendCmd_failed.
  destruct (sock (this m)) as [[sid [|]] |] eqn:Hs; cbn; rewrite ?Hs; cbn;
    rewrite <- ?app_assoc; done.
Qed.

(** C3. When an attempt is rejected with the string ['EHOSTUNREACH'],
    [sendCmd] resumes and leaves the loop whatever its index [i] and its
    budget are: no attempt promise, socket or timer is created, the socket,
    if live, is destroyed, the session is marked offline, and [sendCmd]
    returns (a query rejected with its id, a mutating command fulfilled with
    the empty list) with the attempts it had made and no more. *)
Theorem sendCmd_aborts_on_EHOSTUNREACH (m : machine) (t : send_task) (q : list job) :
  queue m = JSendCmd t (Rejected (VJson (JStr "EHOSTUNREACH"))) :: q →
  ∃ m' r,
    step LJob m = Some m'
    ∧ next_promise m' = next_promise m
    ∧ pool m' = pool m
    ∧ next_sock m' = next_sock m
    ∧ connecting m' = connecting m
    ∧ timers m' = timers m
    ∧ live (sock (this m')) = false
    ∧ online (this m') = false
    ∧ trace m' =
        trace m
        ++ match sock (this m) with
           | Some s => if destroyed s then [] else [ODestroy (sock_id s)]
           | None => []
           end
        ++ [ODone (t_id t) (t_cmd t) (t_attempts t)
                  (t_errors t ++ [VJson (JStr "EHOSTUNREACH")]) r]
    ∧ r = (if t_isGet t then Rejected (VError (id_key (t_id t)))
           else Fulfilled (VJson (JArr [])))
    ∧ queue m' = q ++ [JDefer 2 (t_k t) r].
Proof.
  intros Hq. unfold step. rewrite Hq. cbn [run_job sendCmd_resume is_EHOSTUNREACH].
  rewrite String.eqb_refl.
  match goal with
  | |- context [sendCmd_failed ?t' ?m'] =>
      destruct (sendCmd_failed_spec t' m')
        as (r & Hr & Hl & Ho & Htr & Hqu & Hc & Hp & Hnp & Hns & Hco & Hti & _)
  end.
  eexists _, r. split; [reflexivity |]. by split_and!.
Qed.

(** C1, as amended.  When the last attempt of the budget ([i = retries])
    has failed too, [sendCmd] has made all [retries + 1] attempts; it
    destroys the socket if one is live, sets [online] to false and returns:
    a query ([get_prop]) rejected with [new Error] of the command's id,
    any other command fulfilled with the empty list (the promise settles two
    jobs later, as it was returned through [Promise.resolve] or
    [Promise.reject]).  Giving up leaves the pending cache as it is: a
    mutating command with a method name still has an entry under its method,
    namely the command itself, or the latest command of that method entered
    after it. *)
Theorem sendCmd_gives_up (m : machine) (t : send_task) (e : jsval) (q : list job) :
  reachable m →
  queue m = JSendCmd t (Rejected e) :: q →
  t_i t = t_retries t →
  ∃ m' r tr1 tr2,
    step LJob m = Some m'
    ∧ t_attempts t = schedule (timeout (this m)) (Z.to_nat (retries (this m) + 1))
    ∧ List.length (t_errors t ++ [e]) = Z.to_nat (retries (this m) + 1)
    ∧ live (sock (this m')) = false
    ∧ online (this m') = false
    ∧ trace m' =
        trace m
        ++ match sock (this m) with
           | Some s => if destroyed s then [] else [ODestroy (sock_id s)]
           | None => []
           end
        ++ [ODone (t_id t) (t_cmd t) (t_attempts t) (t_errors t ++ [e]) r]
    ∧ queue m' = q ++ [JDefer 2 (t_k t) r]
    ∧ r = (if String.eqb (method (t_cmd t)) "get_prop"
           then Rejected (VError (id_key (t_id t)))
           else Fulfilled (VJson (JArr [])))
    ∧ pendingByKey (this m') = pendingByKey (this m)
    ∧ trace m = tr1 ++ OSendCmd (t_id t) (t_cmd t) (t_k t) :: tr2
    ∧ (method (t_cmd t) ≠ "get_prop" → method (t_cmd t) ≠ EmptyString →
       pendingByKey (this m') !! method (t_cmd t) =
         Some (default (t_cmd t) (latest (method (t_cmd t)) (sent tr2)))).
Proof.
  intros Hr Hq Hi.
  pose proof (reachable_Inv m Hr) as [_ _ Hl _ _ Hjobs _ _].
  rewrite Hq in Hjobs. apply Forall_cons in Hjobs as [Ht _].
  destruct Ht as [Hg HR HT Hi' Ha He _ Hs _].
  apply list_elem_of_split in Hs as (tr1 & tr2 & Htr).
  set (t' := SendTask (t_cmd t) (t_id t) (t_isGet t) (t_retries t) (t_timeout t)
               (t_i t) (t_k t) (t_attempts t) (t_errors t ++ [e])).
  destruct (sendCmd_failed_spec t' (set_queue q m))
    as (r & Hr' & Hlv & Ho & Htr' & Hqu & Hc & _).
  assert (step LJob m = Some (sendCmd_failed t' (set_queue q m))) as Hstep.
  { unfold step. rewrite Hq. cbn [run_job sendCmd_resume].
    destruct (is_EHOSTUNREACH e); [done |].
    by rewrite (proj2 (Z.eqb_eq _ _) Hi). }
  exists (sendCmd_failed t' (set_queue q m)), r, tr1, tr2.
  split_and!; try done.
  - rewrite Ha. f_equal. lia.
  - rewrite length_app, He. cbn [List.length]. lia.
  - by rewrite Hr', <- Hg.
  - intros Hng Hne. rewrite Hc. change (this (set_queue q m)) with (this m).
    rewrite Hl, Htr. unfold cached_latest. rewrite decide_False by (intros [? | ?]; done).
    rewrite sent_app, latest_app.
    change (sent (OSendCmd (t_id t) (t_cmd t) (t_k t) :: tr2))
      with ([t_cmd t] ++ sent tr2).
    rewrite latest_app. destruct (latest _ (sent tr2)); [done |].
    unfold latest. rewrite filter_cons, decide_True by done.
    by rewrite filter_nil.
Qed.

(** In a reachable state every continuation alive is well formed: a flush
    is on its way through the fixed order. *)
Lemma reachable_konts_ok (m : machine) :
  reachable m → ∀ k, k ∈ konts m → kont_ok k.
Proof.
  intros Hr k Hk. pose proof (reachable_Inv m Hr) as [_ _ _ _ Hp Hq _ _].
  rewrite Forall_forall in Hp. rewrite Forall_forall in Hq. unfold konts in Hk.
  apply elem_of_app in Hk as [Hk | Hk].
  - apply list_elem_of_fmap in Hk as ([p t] & -> & Hpt).
    exact (tk_kont _ _ _ _ (Hp _ Hpt)).
  - apply list_elem_of_omap in Hk as (j & Hj & Hjk).
    specialize (Hq _ Hj). destruct j; cbn in *; simplify_eq; try done.
    exact (tk_kont _ _ _ _ Hq).
Qed.

Lemma sendCmd_flag (cmd : command) (k : kont) (m : machine) :
  _reconciling (this (sendCmd cmd k m)) = _reconciling (this m).
Proof.
  unfold sendCmd, sendCmd_loop, sendCmd_failed, _sendCmd, connect.
  destruct (cachePending_frame cmd (this m)) as (_ & _ & _ & _ & _ & Hf & _).
  repeat (case_match; cbn); done.
Qed.

Lemma flushPending_loop_flag (rest : list string) (m : machine) :
  _reconciling (this (_flushPending_loop rest m)) = _reconciling (this m).
Proof.
  revert m. induction rest as [| meth rest IH]; intros m; cbn; [done |].
  destruct (pendingByKey (this m) !! meth); [| apply IH]. apply sendCmd_flag.
Qed.

Lemma sendCmd_resume_pending (t : send_task) (r : outcome) (m : machine) :
  pendingByKey (this (sendCmd_resume t r m)) = pendingByKey (this m).
Proof.
  unfold sendCmd_resume, sendCmd_loop, sendCmd_failed, _sendCmd, connect.
  repeat (case_match; cbn); done.
Qed.

(** C5. A flush walks the fixed order [set_power], [bg_set_power],
    [set_ct_abx], [set_hsv], [set_bright], [bg_set_hsv], [bg_set_bright].
    From any point [rest] of that walk, in a state the session reaches, it
    skips the methods without a pending entry and enters [sendCmd] with the
    first entry there is, [{ method, params }] as cached: the command is
    mutating, gets the next fresh id, and caching it again changes nothing;
    the walk goes on with the methods after it whatever the outcome of the
    replay; when no entry is left the flush returns.  So the commands
    replayed are [flush_plan], the pending entries in the fixed order;
    neither entering a replay nor resuming from it, successful or not,
    removes a pending entry; and every flush alive in the session is at a
    point of the fixed order. *)
Theorem flush_replays_in_order (m : machine) (rest : list string) :
  reachable m →
  order = [ "set_power"; "bg_set_power"; "set_ct_abx"; "set_hsv";
            "set_bright"; "bg_set_hsv"; "bg_set_bright" ]
  ∧ _flushPending m = _flushPending_loop order m
  ∧ match flush_plan (pendingByKey (this m)) rest with
    | [] =>
        _flushPending_loop rest m =
          enqueue (JKont KOnConnected (Fulfilled VUndefined)) m
    | c :: cs =>
        ∃ rest',
          _flushPending_loop rest m = sendCmd c (KFlush rest') m
          ∧ flush_plan (pendingByKey (this m)) rest' = cs
          ∧ rest' `suffix_of` rest
          ∧ method c ∈ rest
          ∧ method c ≠ "get_prop"
          ∧ pendingByKey (this m) !! method c = Some c
          ∧ pendingByKey (this (sendCmd c (KFlush rest') m)) = pendingByKey (this m)
          ∧ ∃ tr, trace (sendCmd c (KFlush rest') m) =
                  trace m ++ OSendCmd (id_next m) c (KFlush rest') :: tr
    end
  ∧ (∀ rest' r, resume (KFlush rest') r m = _flushPending_loop rest' m)
  ∧ (∀ t r, pendingByKey (this (sendCmd_resume t r m)) = pendingByKey (this m))
  ∧ (∀ rest', KFlush rest' ∈ konts m → rest' `suffix_of` order).
Proof.
  intros Hr. pose proof (reachable_cache_wf m Hr) as Hwf.
  split_and!; [done | done | | done | intros; apply sendCmd_resume_pending
              | intros rest' Hk; exact (reachable_konts_ok m Hr _ Hk)].
  induction rest as [| meth rest IH]; [done |].
  cbn. unfold flush_plan in *. cbn.
  destruct (pendingByKey (this m) !! meth) as [c |] eqn:Hc; cbn.
  - destruct (Hwf _ _ Hc) as (Hm & Hne & Hng). destruct c as [cm cp]. cbn in *. subst cm.
    exists rest. split_and!; try done.
    + by apply suffix_cons_r.
    + left.
    + rewrite sendCmd_pending. cbn. rewrite (proj2 (String.eqb_neq _ _) Hng).
      unfold _cachePending. cbn. rewrite (proj2 (String.eqb_neq _ _) Hne). cbn.
      by apply insert_id.
    + apply sendCmd_trace.
  - destruct (omap _ rest) as [| c cs]; [done |].
    destruct IH as (rest' & ? & ? & ? & ? & ? & ? & ? & ?). exists rest'.
    split_and!; try done; [by apply suffix_cons_r | by right].
Qed.

Lemma flushes_le (k : kont) : (flushes k ≤ reconciles k)%nat.
Proof. induction k; cbn; lia. Qed.

Lemma flush_count_le (m : machine) : (flush_count m ≤ reconciling_count m)%nat.
Proof.
  unfold flush_count, reconciling_count. induction (konts m) as [| k l IH]; cbn; [lia |].
  pose proof (flushes_le k). lia.
Qed.

(** C6. In every state the session reaches at most one [_flushPending] is
    in progress, and none while the reconciling flag is clear.
    [_onConnected] does nothing while the flag is set; otherwise it sets
    the flag and only then starts the flush, which itself never touches the
    flag; the flush hands over to [_onConnected] when it returns, and
    [_onConnected], resumed with either outcome of the flush (fulfilled or
    rejected), clears the flag and passes nothing on: nothing is queued,
    nothing reaches the trace. *)
Theorem onConnected_runs_one_flush (m : machine) :
  reachable m →
  (flush_count m ≤ 1)%nat
  ∧ (_reconciling (this m) = false → flush_count m = 0%nat)
  ∧ (_reconciling (this m) = true → _onConnected m = m)
  ∧ (_reconciling (this m) = false →
       _onConnected m = _flushPending (with_this (set_reconciling true) m)
       ∧ _reconciling (this (_onConnected m)) = true)
  ∧ (∀ rest, _flushPending_loop [] m =
             enqueue (JKont KOnConnected (Fulfilled VUndefined)) m
             ∧ _reconciling (this (_flushPending_loop rest m)) = _reconciling (this m))
  ∧ (∀ r, _reconciling (this (resume KOnConnected r m)) = false
          ∧ trace (resume KOnConnected r m) = trace m
          ∧ queue (resume KOnConnected r m) = queue m
          ∧ pool (resume KOnConnected r m) = pool m).
Proof.
  intros Hr. pose proof (reachable_Inv m Hr) as [_ _ _ _ _ _ _ Hf].
  pose proof (flush_count_le m) as Hle.
  split_and!.
  - destruct (_reconciling (this m)); lia.
  - intros Hg. rewrite Hg in Hf. lia.
  - intros Hg. unfold _onConnected. by rewrite Hg.
  - intros Hg. unfold _onConnected. rewrite Hg. split; [done |].
    unfold _flushPending. by rewrite flushPending_loop_flag.
  - intros rest. split; [done | apply flushPending_loop_flag].
  - done.
Qed.

(** ** The statements at concrete sessions *)

(** C1, as stated, fails in two ways, both by design.  A mutating command
    without a method name passes the guard of [_cachePending] uncached: it
    is given up after six attempts, its caller is answered with the empty
    list, and the pending cache is empty.  And a command overtaken by a
    later one of the same method has lost its entry to that one by the time
    it is given up. *)
Lemma exhausted_command_not_in_cache :
  (run demo_nameless_run demo_init = Some demo_nameless
   ∧ dones (trace demo_nameless) =
       [(1%nat, Command EmptyString (JArr []), 6%nat, 6%nat,
         Fulfilled (VJson (JArr [])))]
   ∧ settled (trace demo_nameless) = [(9%nat, Fulfilled (VJson (JArr [])))]
   ∧ pendingByKey (this demo_nameless) = ∅
   ∧ ¬ stays_cached (Command EmptyString (JArr [])) demo_nameless)
  ∧ (run demo_superseded_run demo_init = Some demo_superseded
     ∧ dones (trace demo_superseded) =
         [(1%nat, bright 50, 6%nat, 6%nat, Fulfilled (VJson (JArr [])))]
     ∧ settled (trace demo_superseded) = [(1%nat, Fulfilled (VJson (JArr [])))]
     ∧ pendingByKey (this demo_superseded) !! "set_bright" = Some (bright 80)
     ∧ ¬ stays_cached (bright 50) demo_superseded).
Proof.
  split; split_and!; try (by vm_compute); unfold stays_cached; by vm_compute.
Qed.


Lemma sendCmd_gives_up_witness :
  reachable demo_last_failure
  ∧ queue demo_last_failure =
      JSendCmd demo_last_task (Rejected (VJson (JStr "ECONNREFUSED")))
      :: [JThen (Attempt 5 (t_cmd demo_last_task) 1 3200)]
  ∧ t_i demo_last_task = t_retries demo_last_task
  ∧ ∃ m', step LJob demo_last_failure = Some m'
      ∧ live (sock (this m')) = false
      ∧ online (this m') = false
      ∧ queue m' =
          [JThen (Attempt 5 (t_cmd demo_last_task) 1 3200);
           JDefer 2 (KSetPower "on" (KCaller 7)) (Fulfilled (VJson (JArr [])))]
      ∧ pendingByKey (this m') !! "set_power" = Some (t_cmd demo_last_task).
Proof.
  assert (reachable demo_last_failure) as Hr.
  { exists default_config, "192.168.1.5:55443", 1%nat, demo_last_failure_run.
    vm_compute. reflexivity. }
  assert (queue demo_last_failure =
            JSendCmd demo_last_task (Rejected (VJson (JStr "ECONNREFUSED")))
            :: [JThen (Attempt 5 (t_cmd demo_last_task) 1 3200)]) as Hq.
  { vm_compute. reflexivity. }
  split_and!; [exact Hr | exact Hq | reflexivity |].
  destruct (sendCmd_gives_up demo_last_failure demo_last_task
              (VJson (JStr "ECONNREFUSED"))
              [JThen (Attempt 5 (t_cmd demo_last_task) 1 3200)] Hr Hq eq_refl)
    as (m' & r & tr1 & tr2 & Hs & _ & _ & Hl & Ho & _ & Hqu & Hres & Hc & _).
  exists m'. split_and!; [exact Hs | exact Hl | exact Ho | |].
  - rewrite Hqu, Hres. vm_compute. reflexivity.
  - rewrite Hc. vm_compute. reflexivity.
Defined.

Lemma sendCmd_attempt_schedule_witness :
  reachable demo_offline
  ∧ dones (trace demo_offline) =
      [(1%nat, Command "set_power" (JArr [JStr "on"; JStr "smooth"; JNum 400]),
        6%nat, 6%nat, Fulfilled (VJson (JArr [])))]
  ∧ ∀ id c attempts errors r,
      ODone id c attempts errors r ∈ trace demo_offline →
      attempts = schedule 100 (List.length attempts)
      ∧ Z.of_nat (List.length attempts) ≤ 6.
Proof.
  assert (reachable demo_offline) as Hr.
  { exists default_config, "192.168.1.5:55443", 1%nat, demo_offline_run.
    vm_compute. reflexivity. }
  split_and!; [exact Hr | vm_compute; reflexivity |].
  intros id c attempts errors r Hd.
  destruct (sendCmd_attempt_schedule demo_offline Hr) as (Hdone & _).
  destruct (Hdone id c attempts errors r Hd) as (Ha & Hn & _).
  split; [exact Ha | exact Hn].
Defined.

Lemma sendCmd_aborts_on_EHOSTUNREACH_witness :
  queue demo_unreachable =
    JSendCmd demo_unreachable_task (Rejected (VJson (JStr "EHOSTUNREACH")))
    :: [JThen (Attempt 0 (t_cmd demo_unreachable_task) 1 100)]
  ∧ ∃ m', step LJob demo_unreachable = Some m'
      ∧ pool m' = pool demo_unreachable
      ∧ next_promise m' = next_promise demo_unreachable
      ∧ live (sock (this m')) = false
      ∧ queue m' =
          [JThen (Attempt 0 (t_cmd demo_unreachable_task) 1 100);
           JDefer 2 (KCaller 3) (Rejected (VError "1"))].
Proof.
  assert (queue demo_unreachable =
            JSendCmd demo_unreachable_task (Rejected (VJson (JStr "EHOSTUNREACH")))
            :: [JThen (Attempt 0 (t_cmd demo_unreachable_task) 1 100)]) as Hq.
  { vm_compute. reflexivity. }
  split; [exact Hq |].
  destruct (sendCmd_aborts_on_EHOSTUNREACH demo_unreachable demo_unreachable_task
              [JThen (Attempt 0 (t_cmd demo_unreachable_task) 1 100)] Hq)
    as (m' & r & Hs & Hnp & Hp & _ & _ & _ & Hl & _ & _ & Hres & Hqu).
  exists m'. split_and!; [exact Hs | exact Hp | exact Hnp | exact Hl |].
  rewrite Hqu, Hres. vm_compute. reflexivity.
Defined.

Lemma flush_replays_in_order_witness :
  reachable demo_inflight
  ∧ flush_plan (pendingByKey (this demo_inflight)) order =
      [Command "set_power" (JArr [JStr "on"; JStr "smooth"; JNum 400])]
  ∧ ∃ rest',
      _flushPending_loop order demo_inflight =
        sendCmd (Command "set_power" (JArr [JStr "on"; JStr "smooth"; JNum 400]))
                (KFlush rest') demo_inflight
      ∧ flush_plan (pendingByKey (this demo_inflight)) rest' = [].
Proof.
  assert (reachable demo_inflight) as Hr.
  { exists default_config, "192.168.1.5:55443", 1%nat, demo_inflight_run.
    vm_compute. reflexivity. }
  split_and!; [exact Hr | vm_compute; reflexivity |].
  destruct (flush_replays_in_order demo_inflight order Hr) as (_ & _ & H & _).
  change (flush_plan (pendingByKey (this demo_inflight)) order)
    with [Command "set_power" (JArr [JStr "on"; JStr "smooth"; JNum 400])] in H.
  destruct H as (rest' & H1 & H2 & _). exists rest'. split; [exact H1 | exact H2].
Defined.

Lemma onConnected_runs_one_flush_witness :
  reachable demo_inflight
  ∧ _reconciling (this demo_inflight) = true
  ∧ flush_count demo_inflight = 1%nat
  ∧ (flush_count demo_inflight ≤ 1)%nat
  ∧ _onConnected demo_inflight = demo_inflight.
Proof.
  assert (reachable demo_inflight) as Hr.
  { exists default_config, "192.168.1.5:55443", 1%nat, demo_inflight_run.
    vm_compute. reflexivity. }
  destruct (onConnected_runs_one_flush demo_inflight Hr) as (H1 & _ & H3 & _).
  split_and!; [exact Hr | vm_compute; reflexivity | vm_compute; reflexivity
              | exact H1 |].
  apply H3. vm_compute. reflexivity.
Defined.

(** * Further properties of the session *)

(** ** Endpoints and deadlines *)

(** X1. The endpoint setter and getter are inverse on well-formed
    endpoints: for a host without a colon and a port of 0..65535 written in
    decimal, setting the endpoint [host:port] stores that host and that
    port, and the getter reads back the same string. *)
Theorem endpoint_round_trip (h : string) (p : Z) (b : bulb) :
  colon_free h = true → 0 ≤ p ≤ 65535 →
  host (endpoint_set (h +:+ ":" +:+ pretty p) b) = h
  ∧ port (endpoint_set (h +:+ ":" +:+ pretty p) b) = Num p
  ∧ endpoint (endpoint_set (h +:+ ":" +:+ pretty p) b) = h +:+ ":" +:+ pretty p.
Proof.
  intros Hh [Hp Hp']. destruct (js_Number_pretty p Hp) as [Hv Hc].
  unfold endpoint, endpoint_set.
  change (":" +:+ pretty p) with (String ":" (pretty p)).
  rewrite split_on_app, split_on_colon_free by done. cbn -[js_Number].
  rewrite js_Number_natural by lia. done.
Qed.

(** X2. An endpoint string without a colon has no port: after
    [updateEndpoint] with it the host is the whole string and the port is
    [NaN], the getter reads [<host>:NaN] (never the string that was given,
    so the same update is taken as a change again), no socket is live, and
    a command entered then opens no socket, because [net.connect] refuses
    the port. *)
Theorem endpoint_without_port (ep : string) (m : machine) :
  colon_free ep = true →
  host (this (updateEndpoint ep m)) = ep
  ∧ port (this (updateEndpoint ep m)) = NaN
  ∧ endpoint (this (updateEndpoint ep m)) = ep +:+ ":NaN"
  ∧ endpoint (this (updateEndpoint ep m)) ≠ ep
  ∧ live (sock (this (updateEndpoint ep m))) = false
  ∧ ∀ cmd k, connects (trace (sendCmd cmd k (updateEndpoint ep m)))
             = connects (trace (updateEndpoint ep m)).
Proof.
  intros Hc.
  assert (String.eqb (endpoint (this m)) ep = false) as Hne.
  { apply String.eqb_neq. intros He. pose proof (endpoint_has_colon (this m)).
    congruence. }
  assert (host (this (updateEndpoint ep m)) = ep
          ∧ port (this (updateEndpoint ep m)) = NaN
          ∧ live (sock (this (updateEndpoint ep m))) = false) as (Hh & Hp & Hl).
  { unfold updateEndpoint. rewrite Hne.
    destruct m as [[h p [[sid [|]] |] ? ? ? ? ? ? ? ?] ? ? ? ? ? ? ? ? ?];
      cbn; unfold endpoint_set; rewrite split_on_colon_free by done; done. }
  split_and!; try done.
  - unfold endpoint. by rewrite Hh, Hp.
  - intros He. pose proof (endpoint_has_colon (this (updateEndpoint ep m))).
    congruence.
  - intros cmd k. apply sendCmd_no_port. by rewrite Hp.
Qed.

(** X3. [updateEndpoint] is idempotent: a second call with the same string
    changes nothing more, whether or not the getter reads that string back
    (no second socket is destroyed, nothing is added to the trace). *)
Theorem updateEndpoint_idempotent (ep : string) (m : machine) :
  updateEndpoint ep (updateEndpoint ep m) = updateEndpoint ep m.
Proof.
  unfold updateEndpoint at 2 3.
  destruct (String.eqb (endpoint (this m)) ep) eqn:He.
  { unfold updateEndpoint. by rewrite He. }
  unfold updateEndpoint.
  destruct m as [[h p [[sid [|]] |] ? ? ? ? ? ? ? ?] ? ? ? ? ? ? ? ? ?]; cbn;
    match goal with |- context [String.eqb ?a ep] => destruct (String.eqb a ep) end;
    done.
Qed.

Lemma land_31 (i : Z) : Z.land (to_uint32 i) 31 = i mod 32.
Proof.
  unfold to_uint32. change 31 with (Z.ones 5). rewrite Z.land_ones by lia.
  change (2 ^ 5) with 32. apply Z.mod_mod_divide. exists (2 ^ 27). lia.
Qed.

(** X4. Exponential backoff: as long as [timeout * 2^i] stays below [2^31]
    the deadline [timeout << i] of attempt [i] is exactly [timeout * 2^i],
    and that is what the schedule holds at index [i]; the shift count of
    [<<] is taken modulo 32, so attempt [i + 32] has the deadline of
    attempt [i] again. *)
Theorem backoff_doubles (t i : Z) :
  0 ≤ t → 0 ≤ i → t * 2 ^ i < 2 ^ 31 →
  js_shl t i = t * 2 ^ i
  ∧ (∀ n : nat, i < Z.of_nat n →
       schedule t n !! Z.to_nat i = Some (i, t * 2 ^ i))
  ∧ ∀ t' i', js_shl t' (i' + 32) = js_shl t' i'.
Proof.
  intros Ht Hi Hb.
  assert (js_shl t i = t * 2 ^ i) as Hs.
  { destruct (decide (t = 0)) as [-> | Hnz].
    - unfold js_shl. change (to_int32 0) with 0. rewrite Z.shiftl_0_l.
      change (to_int32 0) with 0. lia.
    - assert (2 ^ i < 2 ^ 31) as Hp by nia.
      apply Z.pow_lt_mono_r_iff in Hp; [| lia | lia].
      assert (0 < 2 ^ i) by (apply Z.pow_pos_nonneg; lia).
      unfold js_shl. rewrite land_31, (Z.mod_small i) by lia.
      assert (to_int32 t = t) as ->.
      { unfold to_int32. rewrite Z.mod_small by nia.
        destruct (Z.leb_spec (2 ^ 31) t); [nia | done]. }
      rewrite Z.shiftl_mul_pow2 by done.
      unfold to_int32. rewrite Z.mod_small by nia.
      destruct (Z.leb_spec (2 ^ 31) (t * 2 ^ i)); [lia | done]. }
  split_and!.
  - done.
  - intros n Hn. unfold schedule. rewrite list_lookup_fmap, lookup_seq_lt by lia.
    cbn. rewrite Z2Nat.id by done. by rewrite Hs.
  - intros t' i'. unfold js_shl. rewrite !land_31. do 2 f_equal.
    replace (i' + 32) with (i' + 1 * 32) by lia. apply Z_mod_plus_full.
Qed.

(** ** Rejections stay outside the class *)

Create HintDb snd.

Lemma Sound_enqueue (j : job) (m : machine) :
  job_sound j → Sound m → Sound (enqueue j m).
Proof.
  intros Hj [? ? ? ?]. split; try done.
  apply Forall_app. split; [done | by constructor].
Qed.

Lemma Sound_emit (o : obs) (m : machine) :
  obs_sound o → Sound m → Sound (emit o m).
Proof.
  intros Ho [? ? ? ?]. split; try done.
  apply Forall_app. split; [done | by constructor].
Qed.

Lemma Sound_with_this (f : bulb → bulb) (m : machine) :
  pendingByKey (f (this m)) = pendingByKey (this m) →
  Sound m → Sound (with_this f m).
Proof. intros Hp [? ? ? ?]. split; try done. cbn. by rewrite Hp. Qed.

Lemma Sound_set_id_next n m : Sound m → Sound (set_id_next n m).
Proof. by intros []. Qed.
Lemma Sound_set_next_sock n m : Sound m → Sound (set_next_sock n m).
Proof. by intros []. Qed.
Lemma Sound_set_next_promise n m : Sound m → Sound (set_next_promise n m).
Proof. by intros []. Qed.
Lemma Sound_set_next_timer n m : Sound m → Sound (set_next_timer n m).
Proof. by intros []. Qed.
Lemma Sound_set_connecting c m : Sound m → Sound (set_connecting c m).
Proof. by intros []. Qed.
Lemma Sound_set_timers t m : Sound m → Sound (set_timers t m).
Proof. by intros []. Qed.

Lemma Sound_add_task (p : nat) (t : send_task) (l : list (nat * send_task))
    (m : machine) :
  pool m = l → task_sound t → Sound m → Sound (set_pool (l ++ [(p, t)]) m).
Proof.
  intros <- Ht [? ? ? ?]. split; try done.
  apply Forall_app. split; [done | by constructor].
Qed.

Lemma Sound_settle (p : nat) (r : outcome) (m : machine) :
  Sound m → Sound (settle p r m).
Proof.
  intros HS. unfold settle. destruct (pool_find p (pool m)) as [t |] eqn:Hp; [| done].
  destruct HS as [? Hpool ? ?]. split; try done.
  - cbn. rewrite Forall_forall in *. intros x Hx. apply Hpool.
    by apply (pool_remove_sub p).
  - cbn. apply Forall_app. split; [done |]. constructor; [| done].
    cbn. rewrite Forall_forall in Hpool.
    by apply (Hpool (p, t)), pool_find_In.
Qed.

Lemma Sound_settle_connect (sid : nat) (r : outcome) (m : machine) :
  Sound m → Sound (settle_connect sid r m).
Proof.
  intros HS. unfold settle_connect. destruct (connecting m !! sid); [| done].
  apply Sound_enqueue; [done |]. by apply Sound_set_connecting.
Qed.

#[local] Hint Resolve Sound_enqueue Sound_emit Sound_with_this Sound_set_id_next
  Sound_set_next_sock Sound_set_next_promise Sound_set_next_timer
  Sound_set_connecting Sound_set_timers Sound_add_task Sound_settle
  Sound_settle_connect : snd.
#[local] Hint Extern 1 (job_sound _) => (cbn; done) : snd.
#[local] Hint Extern 1 (obs_sound _) => (cbn; done) : snd.
#[local] Hint Extern 1 (_ = _ :> gmap _ _) => reflexivity : snd.

Ltac snd_cases := repeat case_match; eauto 20 with snd.

Lemma Sound_connect a m : Sound m → Sound (connect a m).
Proof. intros HS. unfold connect. snd_cases. Qed.

Lemma Sound__sendCmd a m : Sound m → Sound (_sendCmd a m).
Proof. intros HS. unfold _sendCmd. pose proof Sound_connect. snd_cases. Qed.

Lemma Sound__sendCmd_then a m : Sound m → Sound (_sendCmd_then a m).
Proof. intros HS. unfold _sendCmd_then. cbn. snd_cases. Qed.

Lemma Sound_on_timer tid m : Sound m → Sound (on_timer tid m).
Proof. unfold on_timer. snd_cases. Qed.

Lemma Sound_mark_destroyed sid m : Sound m → Sound (mark_destroyed sid m).
Proof. unfold mark_destroyed. snd_cases. Qed.

Lemma Sound_updateEndpoint ep m : Sound m → Sound (updateEndpoint ep m).
Proof. unfold updateEndpoint. cbn. snd_cases. Qed.

Lemma Sound_clearTimeout tid m : Sound m → Sound (clearTimeout tid m).
Proof. unfold clearTimeout. snd_cases. Qed.

Lemma Sound_delete_cmd key m : Sound m → Sound (delete_cmd key m).
Proof. unfold delete_cmd. snd_cases. Qed.

#[local] Hint Resolve Sound_connect Sound__sendCmd Sound__sendCmd_then
  Sound_on_timer Sound_mark_destroyed Sound_updateEndpoint Sound_clearTimeout
  Sound_delete_cmd : snd.

Lemma Sound_responseHandler msg m : Sound m → Sound (responseHandler msg m).1.
Proof. unfold responseHandler. snd_cases. Qed.

Lemma Sound_apply_props keys ps m : Sound m → Sound (apply_props keys ps m).
Proof.
  revert m. induction keys as [| k keys IH]; intros m HS; [done |].
  cbn [apply_props]. unfold updateStateFromProp.
  destruct (negb _); cbn; apply IH; eauto 10 with snd.
Qed.

Lemma Sound_stateHandler msg m : Sound m → Sound (stateHandler msg m).1.
Proof. unfold stateHandler. pose proof Sound_apply_props. snd_cases. Qed.

Lemma Sound_route msg m : Sound m → Sound (route msg m).1.
Proof.
  intros HS. unfold route.
  pose proof (Sound_responseHandler msg m HS) as H1.
  destruct (responseHandler msg m) as [m1 []]; cbn in *; try done.
  pose proof (Sound_stateHandler msg m1 H1) as H2.
  by destruct (stateHandler msg m1) as [m2 []].
Qed.

Lemma Sound_handle msgs m : Sound m → Sound (handle msgs m).
Proof.
  revert m. induction msgs as [| msg msgs IH]; intros m HS; [done |].
  cbn [handle]. pose proof (Sound_route msg m HS) as H1.
  destruct (route msg m) as [m1 []]; cbn in *; eauto with snd.
Qed.

Lemma Sound_on_error sid code m : Sound m → Sound (on_error sid code m).
Proof. unfold on_error. snd_cases. Qed.

Lemma Sound_on_close sid e m : Sound m → Sound (on_close sid e m).
Proof. unfold on_close. snd_cases. Qed.

#[local] Hint Resolve Sound_handle Sound_on_error Sound_on_close : snd.

Lemma Sound_sendCmd_failed t m :
  task_sound t → Sound m → Sound (sendCmd_failed t m).
Proof.
  intros [Hg Hi] HS. unfold sendCmd_failed.
  apply Sound_enqueue.
  { cbn. intros Hk. by rewrite (Hi Hk). }
  apply Sound_emit.
  { cbn. destruct (t_isGet t) eqn:Hget; [| done].
    split; [| done]. symmetry in Hg. by apply String.eqb_eq in Hg. }
  apply Sound_with_this; [done |]. snd_cases.
Qed.

Lemma Sound_sendCmd_loop t m :
  task_sound t → Sound m → Sound (sendCmd_loop t m).
Proof.
  intros Ht HS. unfold sendCmd_loop. destruct (_ <=? _).
  - apply Sound__sendCmd. apply Sound_add_task; [done | | by apply Sound_set_next_promise].
    by destruct Ht.
  - by apply Sound_sendCmd_failed.
Qed.

Lemma Sound_sendCmd cmd k m :
  (inner k = true → method cmd ≠ "get_prop") →
  Sound m → Sound (sendCmd cmd k m).
Proof.
  intros Hk HS. unfold sendCmd.
  destruct (String.eqb (method cmd) "get_prop") eqn:Hg.
  - apply String.eqb_eq in Hg. apply Sound_sendCmd_loop.
    + split; cbn; [by rewrite Hg | intros Hi; by destruct (Hk Hi)].
    + eauto with snd.
  - apply Sound_sendCmd_loop.
    + split; cbn; [by rewrite Hg | done].
    + apply Sound_emit; [done |]. apply Sound_set_id_next.
      destruct HS as [Hc ? ? ?]. split; try done. cbn. intros k' c.
      rewrite cachePending_lookup. case_decide as Hd; [| apply Hc].
      intros [= <-]. cbn. destruct Hd as [<- _]. by apply String.eqb_neq.
Qed.

Lemma Sound_sendCmd_resume t r m :
  task_sound t → Sound m → Sound (sendCmd_resume t r m).
Proof.
  intros Ht HS. unfold sendCmd_resume. destruct r as [v | e].
  - eauto 10 with snd.
  - assert (∀ i es, task_sound (SendTask (t_cmd t) (t_id t) (t_isGet t)
              (t_retries t) (t_timeout t) i (t_k t) (t_attempts t) es)) as Ht'.
    { intros i es. by destruct Ht. }
    repeat case_match; first [ by apply Sound_sendCmd_failed | by apply Sound_sendCmd_loop ].
Qed.

Lemma Sound_flushPending_loop rest m :
  Sound m → Sound (_flushPending_loop rest m).
Proof.
  revert m. induction rest as [| meth rest IH]; intros m HS; cbn.
  - by apply Sound_enqueue.
  - destruct (pendingByKey (this m) !! meth) as [c |] eqn:Hc; [| by apply IH].
    apply Sound_sendCmd; [| done]. intros _. cbn.
    exact (snd_cache _ HS _ _ Hc).
Qed.

Lemma Sound_onConnected m : Sound m → Sound (_onConnected m).
Proof.
  intros HS. unfold _onConnected, _flushPending.
  destruct (_reconciling (this m)); [done |].
  apply Sound_flushPending_loop. by apply Sound_with_this.
Qed.

Lemma Sound_resume k r m :
  (inner k = true → fulfilled r = true) → Sound m → Sound (resume k r m).
Proof.
  intros Hk HS. destruct k; cbn [resume].
  - by apply Sound_emit.
  - destruct r; [eauto 10 with snd |]. by specialize (Hk eq_refl).
  - snd_cases.
  - by apply Sound_flushPending_loop.
  - by apply Sound_with_this.
Qed.

Lemma Sound_run_job j m : job_sound j → Sound m → Sound (run_job j m).
Proof.
  intros Hj HS. destruct j as [a r | a [v | e] | a | t r | [| [| n]] k r | k r];
    cbn [run_job]; eauto 10 with snd.
  - by apply Sound_sendCmd_resume.
  - by apply Sound_resume.
Qed.

Lemma Sound_setPower p k m : Sound m → Sound (setPower p k m).
Proof.
  intros HS. unfold setPower. destruct (Bool.eqb _ p).
  - by apply Sound_enqueue.
  - by apply Sound_sendCmd.
Qed.

Lemma Sound_step l m m' : Sound m → step l m = Some m' → Sound m'.
Proof.
  intros HS Hs. unfold step in Hs.
  destruct l; [destruct (queue m) as [| j q] eqn:Hq; simplify_eq | ..].
  { destruct HS as [? ? Hjobs ?]. rewrite Hq in Hjobs.
    apply Forall_cons in Hjobs as [Hj Hjobs].
    apply Sound_run_job; [done |]. by split. }
  all: repeat case_match; simplify_eq;
    first [ by apply Sound_sendCmd | by apply Sound_setPower
          | by apply Sound_settle_connect, Sound_onConnected, Sound_with_this
          | eauto 10 with snd ].
Qed.

Lemma Sound_run (ls : list label) (m m' : machine) :
  Sound m → run ls m = Some m' → Sound m'.
Proof.
  revert m. induction ls as [| l ls IH]; intros m HS Hr; cbn in Hr.
  - by injection Hr as <-.
  - destruct (step l m) as [m1 |] eqn:Hs; [| done].
    eapply IH; [| done]. by eapply Sound_step.
Qed.

Lemma reachable_Sound (m : machine) : reachable m → Sound m.
Proof.
  intros (cfg & ep & id0 & ls & Hr). eapply Sound_run; [| exact Hr].
  split; cbn; try done. by repeat constructor.
Qed.

(** ** What no transition undoes *)

Create HintDb ev.

Section Evolves.
Context (K : list nat) (m0 : machine).

Lemma evolves_refl : evolves K m0 m0.
Proof. exists []. split; [by rewrite app_nil_r | auto]. Qed.

Lemma evolves_same (m m' : machine) :
  this m' = this m → trace m' = trace m → evolves K m0 m → evolves K m0 m'.
Proof. intros Hb Ht (tr & ? & ?). exists tr. by rewrite Hb, Ht. Qed.

Lemma evolves_emit (o : obs) (m : machine) :
  evolves K m0 m → evolves K m0 (emit o m).
Proof.
  intros (tr & Ht & Hs). exists (tr ++ [o]). cbn. rewrite Ht, app_assoc.
  split; [done |]. intros s H1 H2. destruct (Hs s H1 H2) as [? | [? | ?]]; auto.
  right. left. apply elem_of_app. by left.
Qed.

Lemma evolves_with_this (f : bulb → bulb) (m : machine) :
  sock_kept f (this m) →
  evolves K m0 m → evolves K m0 (with_this f m).
Proof.
  intros Hf (tr & Ht & Hs). exists tr. split; [done |].
  intros s H1 H2. destruct (Hs s H1 H2) as [Hk | [? | ?]]; auto.
  left. cbn. destruct Hf as [-> | Hl]; [done |].
  rewrite Hk in Hl. cbn in Hl. by rewrite H2 in Hl.
Qed.

(** [this.sock.destroy()], as [sendCmd] does it and as [updateEndpoint]
    does it. *)
Lemma evolves_destroy (s : socket) (s' : option socket) (m : machine) :
  sock (this m) = Some s →
  evolves K m0 m →
  evolves K m0 (emit (ODestroy (sock_id s)) (with_this (set_sock s') m)).
Proof.
  intros Hm (tr & Ht & Hs). exists (tr ++ [ODestroy (sock_id s)]).
  cbn. rewrite Ht, app_assoc. split; [done |].
  intros s1 H1 H2. destruct (Hs s1 H1 H2) as [Hk | [? | ?]]; auto.
  - right. left. apply elem_of_app. right. rewrite Hk in Hm.
    injection Hm as ->. left.
  - right. left. apply elem_of_app. by left.
Qed.

Lemma evolves_destroy' (s : socket) (s' : option socket) (m : machine) :
  sock (this m) = Some s →
  evolves K m0 m →
  evolves K m0 (with_this (set_sock s') (emit (ODestroy (sock_id s)) m)).
Proof. intros Hm HE. exact (evolves_destroy s s' m Hm HE). Qed.

Lemma evolves_set_id_next n m : evolves K m0 m → evolves K m0 (set_id_next n m).
Proof. by apply evolves_same. Qed.
Lemma evolves_set_next_sock n m : evolves K m0 m → evolves K m0 (set_next_sock n m).
Proof. by apply evolves_same. Qed.
Lemma evolves_set_next_promise n m : evolves K m0 m → evolves K m0 (set_next_promise n m).
Proof. by apply evolves_same. Qed.
Lemma evolves_set_next_timer n m : evolves K m0 m → evolves K m0 (set_next_timer n m).
Proof. by apply evolves_same. Qed.
Lemma evolves_set_connecting c m : evolves K m0 m → evolves K m0 (set_connecting c m).
Proof. by apply evolves_same. Qed.
Lemma evolves_set_timers t m : evolves K m0 m → evolves K m0 (set_timers t m).
Proof. by apply evolves_same. Qed.
Lemma evolves_set_pool p m : evolves K m0 m → evolves K m0 (set_pool p m).
Proof. by apply evolves_same. Qed.
Lemma evolves_set_queue q m : evolves K m0 m → evolves K m0 (set_queue q m).
Proof. by apply evolves_same. Qed.
Lemma evolves_enqueue j m : evolves K m0 m → evolves K m0 (enqueue j m).
Proof. by apply evolves_same. Qed.

Lemma evolves_settle p r m : evolves K m0 m → evolves K m0 (settle p r m).
Proof.
  intros HE. unfold settle. destruct (pool_find _ _); [| done].
  by apply (evolves_same m).
Qed.

Lemma evolves_settle_connect sid r m :
  evolves K m0 m → evolves K m0 (settle_connect sid r m).
Proof.
  intros HE. unfold settle_connect. destruct (_ !! _); [| done].
  by apply (evolves_same m).
Qed.

#[local] Hint Resolve evolves_emit
  evolves_with_this evolves_set_id_next
  evolves_set_next_sock evolves_set_next_promise evolves_set_next_timer
  evolves_set_connecting evolves_set_timers evolves_set_pool evolves_set_queue
  evolves_enqueue evolves_settle evolves_settle_connect : ev.
#[local] Hint Extern 1 (sock_kept _ _) =>
  solve [left; reflexivity | right; assumption] : ev.

Ltac ev_cases := repeat case_match; eauto 20 with ev.

Lemma evolves_connect a m : evolves K m0 m → evolves K m0 (connect a m).
Proof. intros HE. unfold connect. ev_cases. Qed.

Lemma evolves__sendCmd a m : evolves K m0 m → evolves K m0 (_sendCmd a m).
Proof. intros HE. unfold _sendCmd. pose proof evolves_connect. ev_cases. Qed.

Lemma evolves__sendCmd_then a m : evolves K m0 m → evolves K m0 (_sendCmd_then a m).
Proof. intros HE. unfold _sendCmd_then. cbn. ev_cases. Qed.

Lemma evolves_on_timer tid m : evolves K m0 m → evolves K m0 (on_timer tid m).
Proof. unfold on_timer. ev_cases. Qed.

Lemma evolves_updateEndpoint ep m : evolves K m0 m → evolves K m0 (updateEndpoint ep m).
Proof.
  intros HE. unfold updateEndpoint. destruct (String.eqb _ _); [done |].
  cbn. destruct (sock (this m)) as [s |] eqn:Hs; [| eauto with ev].
  destruct (destroyed s); [eauto with ev |].
  change (evolves K m0 (with_this (set_sock None)
            (emit (ODestroy (sock_id s)) (with_this (endpoint_set ep) m)))).
  apply evolves_destroy'; eauto with ev.
Qed.

Lemma evolves_clearTimeout tid m : evolves K m0 m → evolves K m0 (clearTimeout tid m).
Proof. unfold clearTimeout. ev_cases. Qed.

Lemma evolves_delete_cmd key m : evolves K m0 m → evolves K m0 (delete_cmd key m).
Proof. unfold delete_cmd. ev_cases. Qed.

#[local] Hint Resolve evolves_connect evolves__sendCmd evolves__sendCmd_then
  evolves_on_timer evolves_updateEndpoint evolves_clearTimeout
  evolves_delete_cmd : ev.

Lemma evolves_responseHandler msg m :
  evolves K m0 m → evolves K m0 (responseHandler msg m).1.
Proof. unfold responseHandler. ev_cases. Qed.

Lemma evolves_apply_props keys ps m :
  evolves K m0 m → evolves K m0 (apply_props keys ps m).
Proof.
  revert m. induction keys as [| k keys IH]; intros m HE; [done |].
  cbn [apply_props]. unfold updateStateFromProp.
  destruct (negb _); cbn; apply IH; eauto 10 with ev.
Qed.

Lemma evolves_stateHandler msg m :
  evolves K m0 m → evolves K m0 (stateHandler msg m).1.
Proof. unfold stateHandler. pose proof evolves_apply_props. ev_cases. Qed.

Lemma evolves_route msg m : evolves K m0 m → evolves K m0 (route msg m).1.
Proof.
  intros HE. unfold route.
  pose proof (evolves_responseHandler msg m HE) as H1.
  destruct (responseHandler msg m) as [m1 []]; cbn in *; try done.
  pose proof (evolves_stateHandler msg m1 H1) as H2.
  by destruct (stateHandler msg m1) as [m2 []].
Qed.

Lemma evolves_handle msgs m : evolves K m0 m → evolves K m0 (handle msgs m).
Proof.
  revert m. induction msgs as [| msg msgs IH]; intros m HE; [done |].
  cbn [handle]. pose proof (evolves_route msg m HE) as H1.
  destruct (route msg m) as [m1 []]; cbn in *; eauto with ev.
Qed.

#[local] Hint Resolve evolves_handle : ev.

Lemma evolves_sendCmd_failed t m :
  evolves K m0 m → evolves K m0 (sendCmd_failed t m).
Proof.
  intros HE. unfold sendCmd_failed.
  apply evolves_enqueue, evolves_emit, evolves_with_this; [by left |].
  destruct (sock (this m)) as [s |] eqn:Hs; [| done].
  destruct (destroyed s); [done |]. by apply evolves_destroy.
Qed.

Lemma evolves_sendCmd_loop t m :
  evolves K m0 m → evolves K m0 (sendCmd_loop t m).
Proof.
  intros HE. unfold sendCmd_loop. destruct (_ <=? _).
  - eauto 10 with ev.
  - by apply evolves_sendCmd_failed.
Qed.

Lemma evolves_sendCmd cmd k m : evolves K m0 m → evolves K m0 (sendCmd cmd k m).
Proof.
  intros HE. unfold sendCmd. apply evolves_sendCmd_loop.
  destruct (cachePending_frame cmd (this m)) as (_ & _ & Hs & _).
  destruct (String.eqb _ _); [eauto 10 with ev |].
  apply evolves_emit, evolves_set_id_next, evolves_with_this; [by left | done].
Qed.

Lemma evolves_sendCmd_resume t r m :
  evolves K m0 m → evolves K m0 (sendCmd_resume t r m).
Proof.
  intros HE. unfold sendCmd_resume.
  pose proof evolves_sendCmd_failed. pose proof evolves_sendCmd_loop. ev_cases.
Qed.

Lemma evolves_flushPending_loop rest m :
  evolves K m0 m → evolves K m0 (_flushPending_loop rest m).
Proof.
  revert m. induction rest as [| meth rest IH]; intros m HE; cbn.
  - by apply evolves_enqueue.
  - destruct (pendingByKey (this m) !! meth); [| by apply IH].
    by apply evolves_sendCmd.
Qed.

Lemma evolves_onConnected m : evolves K m0 m → evolves K m0 (_onConnected m).
Proof.
  intros HE. unfold _onConnected, _flushPending.
  destruct (_reconciling (this m)); [done |].
  apply evolves_flushPending_loop. eauto with ev.
Qed.

Lemma evolves_resume k r m : evolves K m0 m → evolves K m0 (resume k r m).
Proof.
  intros HE. destruct k; cbn [resume].
  - by apply evolves_emit.
  - destruct r; eauto 10 with ev.
  - ev_cases.
  - by apply evolves_flushPending_loop.
  - eauto with ev.
Qed.

Lemma evolves_run_job j m : evolves K m0 m → evolves K m0 (run_job j m).
Proof.
  intros HE. destruct j as [a r | a [v | e] | a | t r | [| [| n]] k r | k r];
    cbn [run_job]; eauto 10 with ev.
  - by apply evolves_sendCmd_resume.
  - by apply evolves_resume.
Qed.

Lemma evolves_setPower p k m : evolves K m0 m → evolves K m0 (setPower p k m).
Proof.
  intros HE. unfold setPower. destruct (Bool.eqb _ p).
  - by apply evolves_enqueue.
  - by apply evolves_sendCmd.
Qed.

End Evolves.

Lemma evolves_mark_destroyed (sid : nat) (m : machine) :
  evolves [sid] m (mark_destroyed sid m).
Proof.
  exists []. unfold mark_destroyed.
  destruct (sock (this m)) as [s0 |] eqn:Hs0; [| by rewrite app_nil_r].
  destruct (Nat.eqb_spec (sock_id s0) sid) as [<- | Hne]; cbn; rewrite app_nil_r.
  - split; [done |]. intros s [= ->] _. right. right. left.
  - split; [done |]. intros s [= ->] _. by left.
Qed.

Lemma evolves_step (l : label) (m m' : machine) :
  step l m = Some m' → evolves (option_list (runtime_kills l)) m m'.
Proof.
  intros Hs. unfold step in Hs.
  destruct l; repeat case_match; simplify_eq; cbn.
  - apply evolves_run_job, evolves_set_queue, evolves_refl.
  - apply evolves_sendCmd, evolves_refl.
  - apply evolves_setPower, evolves_refl.
  - apply evolves_sendCmd, evolves_refl.
  - apply evolves_sendCmd, evolves_refl.
  - apply evolves_sendCmd, evolves_refl.
  - apply evolves_updateEndpoint, evolves_refl.
  - apply evolves_settle_connect, evolves_onConnected, evolves_with_this;
      [by left | apply evolves_refl].
  - apply evolves_mark_destroyed.
  - apply evolves_settle_connect, evolves_with_this; [by left |].
    apply evolves_mark_destroyed.
  - apply evolves_settle_connect, evolves_with_this; [by left |].
    apply evolves_mark_destroyed.
  - apply evolves_handle, evolves_refl.
  - apply evolves_on_timer, evolves_refl.
  - apply evolves_set_id_next, evolves_refl.
Qed.

Lemma evolves_trans (K1 K2 : list nat) (m1 m2 m3 : machine) :
  evolves K1 m1 m2 → evolves K2 m2 m3 → evolves (K1 ++ K2) m1 m3.
Proof.
  intros (tr1 & Ht1 & Hs1) (tr2 & Ht2 & Hs2). exists (tr1 ++ tr2).
  split; [by rewrite Ht2, Ht1, app_assoc |].
  intros s H1 H2. destruct (Hs1 s H1 H2) as [Hk | [? | ?]].
  - destruct (Hs2 s Hk H2) as [? | [? | ?]]; [by left | |].
    + right. left. apply elem_of_app. by right.
    + right. right. apply elem_of_app. by right.
  - right. left. apply elem_of_app. by left.
  - right. right. apply elem_of_app. by left.
Qed.

Lemma evolves_run (ls : list label) (m m' : machine) :
  run ls m = Some m' → evolves (omap runtime_kills ls) m m'.
Proof.
  revert m. induction ls as [| l ls IH]; intros m Hr; cbn in Hr.
  - injection Hr as <-. apply evolves_refl.
  - destruct (step l m) as [m1 |] eqn:Hs; [| done].
    pose proof (evolves_trans _ _ _ _ _ (evolves_step _ _ _ Hs) (IH _ Hr)) as HE.
    cbn. by destruct (runtime_kills l).
Qed.

(** ** Consequences for every run *)

Lemma run_app (l1 l2 : list label) (m : machine) :
  run (l1 ++ l2) m = match run l1 m with Some m1 => run l2 m1 | None => None end.
Proof.
  revert m. induction l1 as [| l l1 IH]; intros m; cbn; [done |].
  destruct (step l m); [apply IH | done].
Qed.

Lemma reachable_run (ls : list label) (m m' : machine) :
  reachable m → run ls m = Some m' → reachable m'.
Proof.
  intros (cfg & ep & id0 & ls0 & Hr) Hs. exists cfg, ep, id0, (ls0 ++ ls).
  by rewrite run_app, Hr.
Qed.

(** X5. [sendCmd] rejects queries only.  In every state the session
    reaches, a [sendCmd] that has returned a rejection was given a
    [get_prop] command and rejected with [new Error(id)] for the id of the
    command; and a rejection on its way to an awaiting function is on its
    way to a caller outside the class or to the [get] listener, never to
    [setPower], [_flushPending] or [_onConnected]. *)
Theorem sendCmd_rejects_only_queries (m : machine) :
  reachable m →
  (∀ id c attempts errors e,
     ODone id c attempts errors (Rejected e) ∈ trace m →
     method c = "get_prop" ∧ e = VError (id_key id))
  ∧ (∀ k e, JKont k (Rejected e) ∈ queue m →
       ∃ tag, k = KCaller tag ∨ k = KCharGet tag)
  ∧ (∀ n k e, JDefer n k (Rejected e) ∈ queue m →
       ∃ tag, k = KCaller tag ∨ k = KCharGet tag)
  ∧ (∀ t e, JSendCmd t (Rejected e) ∈ queue m →
       t_isGet t = true → ∃ tag, t_k t = KCaller tag ∨ t_k t = KCharGet tag).
Proof.
  intros Hr. destruct (reachable_Sound m Hr) as [_ _ Hq Ht].
  rewrite Forall_forall in Hq. rewrite Forall_forall in Ht.
  assert (∀ k, (inner k = true → false = true) →
               ∃ tag, k = KCaller tag ∨ k = KCharGet tag) as Hk.
  { intros [tag | ? ? | tag | ? |] Hi; try (by specialize (Hi eq_refl));
      exists tag; auto. }
  split_and!.
  - intros id c attempts errors e Hd. exact (Ht _ Hd).
  - intros k e Hj. apply Hk. exact (Hq _ Hj).
  - intros n k e Hj. apply Hk. exact (Hq _ Hj).
  - intros t e Hj Hg. apply Hk. intros Hi.
    destruct (Hq _ Hj) as [_ Hin]. rewrite (Hin Hi) in Hg. done.
Qed.

(** X6. [setPower] always mirrors what was asked.  In every state the
    session reaches, when [setPower] resumes from [await this.sendCmd(req)]
    it resumes with a fulfilled promise (also when the command was given
    up), sets the mirrored power to the requested state, and fulfils its
    own promise with [undefined]; it writes nothing and touches neither the
    pending attempts nor the pending cache. *)
Theorem setPower_mirrors_request (m : machine) (state : string) (k : kont)
    (r : outcome) (q : list job) :
  reachable m → queue m = JKont (KSetPower state k) r :: q →
  ∃ v m', r = Fulfilled v
    ∧ step LJob m = Some m'
    ∧ power (this m') = String.eqb state "on"
    ∧ queue m' = q ++ [JKont k (Fulfilled VUndefined)]
    ∧ trace m' = trace m
    ∧ pool m' = pool m
    ∧ pendingByKey (this m') = pendingByKey (this m).
Proof.
  intros Hr Hq. destruct (reachable_Sound m Hr) as [_ _ Hs _].
  rewrite Hq in Hs. apply Forall_cons in Hs as [Hj _]. cbn in Hj.
  destruct r as [v | e]; [| by specialize (Hj eq_refl)].
  exists v. eexists. split; [done |]. split.
  { unfold step. rewrite Hq. reflexivity. }
  cbn. done.
Qed.

(** X7. The pending cache over any sequence of events, calls and jobs from
    a state the session reaches: the trace only grows, and the entry of a
    method afterwards is the latest command of that method entered into
    [sendCmd] meanwhile (queries and nameless commands apart), or the entry
    it had when none was entered.  So an entry is never removed, and
    [retries] and [timeout] never change. *)
Theorem pending_cache_after_run (ls : list label) (m m' : machine) :
  reachable m → run ls m = Some m' →
  ∃ tr, trace m' = trace m ++ tr
    ∧ (∀ k, pendingByKey (this m') !! k =
            match cached_latest k (sent tr) with
            | Some c => Some c
            | None => pendingByKey (this m) !! k
            end)
    ∧ (∀ k, is_Some (pendingByKey (this m) !! k) →
            is_Some (pendingByKey (this m') !! k))
    ∧ retries (this m') = retries (this m)
    ∧ timeout (this m') = timeout (this m).
Proof.
  intros Hr Hs. destruct (evolves_run ls m m' Hs) as (tr & Ht & _).
  pose proof (reachable_Inv m Hr) as HI.
  pose proof (Inv_run _ _ _ _ _ HI Hs) as HI'.
  assert (∀ k, pendingByKey (this m') !! k =
            match cached_latest k (sent tr) with
            | Some c => Some c
            | None => pendingByKey (this m) !! k
            end) as Hc.
  { intros k. rewrite (inv_latest _ _ _ _ HI'), (inv_latest _ _ _ _ HI), Ht, sent_app.
    unfold cached_latest. case_decide; [done |]. apply latest_app. }
  exists tr. split_and!; try done.
  - intros k Hk. rewrite Hc. by destruct (cached_latest k (sent tr)).
  - exact (inv_retries _ _ _ _ HI').
  - exact (inv_timeout _ _ _ _ HI').
Qed.

(** X8. The session never drops a live socket.  Over any sequence of
    events, calls and jobs, the socket that was live at the start is still
    the session's socket at the end, unless the session has called
    [destroy()] on it meanwhile or the runtime has destroyed it (an error,
    a close or a destruction of that socket is among the events). *)
Theorem live_socket_is_never_dropped (ls : list label) (m m' : machine) (s : socket) :
  run ls m = Some m' → sock (this m) = Some s → destroyed s = false →
  sock (this m') = Some s
  ∨ (∃ tr, trace m' = trace m ++ tr ∧ ODestroy (sock_id s) ∈ tr)
  ∨ sock_id s ∈ omap runtime_kills ls.
Proof.
  intros Hs H1 H2. destruct (evolves_run ls m m' Hs) as (tr & Ht & Hk).
  destruct (Hk s H1 H2) as [? | [? | ?]]; eauto.
Qed.

(** ** Events on the socket *)

(** The key of a command id is a run of digits, so it is none of the names
    a plain object inherits. *)
Lemma id_key_own (id : nat) (A : Type) (c : gmap string A) :
  js_in (id_key id) c = match c !! id_key id with Some _ => true | None => false end.
Proof.
  unfold js_in. destruct (c !! id_key id); [done |].
  apply bool_decide_eq_false. intros Hin.
  destruct (js_Number_pretty (Z.of_nat id)) as [Hd _]; [lia |].
  assert (Forall (fun k => digits_value 0 k = None) Object_prototype_keys) as Hall.
  { by repeat constructor. }
  rewrite Forall_forall in Hall. unfold id_key in Hin.
  rewrite (Hall _ Hin) in Hd. done.
Qed.

(** X9. A close or an error on a socket whose [connect()] promise is
    already settled rejects nothing: [close] empties [this.cmds] and both
    clear [online], but the pending attempts, the job queue, the armed
    timers, the trace and the pending cache stay as they are.  A request in
    flight at that moment fails only when its own deadline timer fires,
    which rejects its attempt with [new Error(id)]. *)
Theorem close_fails_no_request (sid : nat) (m : machine) :
  connecting m !! sid = None →
  (∀ hadError,
     cmds (this (on_close sid hadError m)) = ∅
     ∧ online (this (on_close sid hadError m)) = false
     ∧ pool (on_close sid hadError m) = pool m
     ∧ queue (on_close sid hadError m) = queue m
     ∧ timers (on_close sid hadError m) = timers m
     ∧ trace (on_close sid hadError m) = trace m
     ∧ pendingByKey (this (on_close sid hadError m)) = pendingByKey (this m))
  ∧ (∀ code,
       cmds (this (on_error sid code m)) = cmds (this m)
       ∧ online (this (on_error sid code m)) = false
       ∧ pool (on_error sid code m) = pool m
       ∧ queue (on_error sid code m) = queue m
       ∧ timers (on_error sid code m) = timers m
       ∧ trace (on_error sid code m) = trace m)
  ∧ (∀ hadError tid p id t,
       timers m !! tid = Some (p, id) → pool_find p (pool m) = Some t →
       queue (on_timer tid (on_close sid hadError m)) =
         queue m ++ [JSendCmd t (Rejected (VError (id_key id)))]
       ∧ pool (on_timer tid (on_close sid hadError m)) = pool_remove p (pool m)
       ∧ timers (on_timer tid (on_close sid hadError m)) = delete tid (timers m)).
Proof.
  intros Hc.
  assert (∀ r m1, connecting m1 = connecting m → settle_connect sid r m1 = m1) as Hsc.
  { intros r m1 Hm. unfold settle_connect. by rewrite Hm, Hc. }
  assert (∀ x, connecting (mark_destroyed sid x) = connecting x
               ∧ pool (mark_destroyed sid x) = pool x
               ∧ queue (mark_destroyed sid x) = queue x
               ∧ timers (mark_destroyed sid x) = timers x
               ∧ trace (mark_destroyed sid x) = trace x
               ∧ cmds (this (mark_destroyed sid x)) = cmds (this x)
               ∧ pendingByKey (this (mark_destroyed sid x)) = pendingByKey (this x))
    as Hmd.
  { intros x. unfold mark_destroyed. by repeat case_match. }
  destruct (Hmd m) as (H1 & H2 & H3 & H4 & H5 & H6 & H7).
  split_and!.
  - intros hadError. unfold on_close. rewrite Hsc by (cbn; done).
    split_and!; cbn; rewrite ?H2, ?H3, ?H4, ?H5, ?H6, ?H7; done.
  - intros code. unfold on_error. rewrite Hsc by (cbn; done).
    split_and!; cbn; rewrite ?H2, ?H3, ?H4, ?H5, ?H6, ?H7; done.
  - intros hadError tid p id t Ht Hp. unfold on_close.
    rewrite Hsc by (cbn; done). unfold on_timer, settle. cbn.
    rewrite H4, Ht. cbn. rewrite H2, Hp. cbn. by rewrite ?H2, ?H3, ?H4.
Qed.


(** X13. [identify] is cached but never replayed.  The [start_cf] request
    of [identify] is entered into [sendCmd] like any state change, so it is
    cached under [start_cf]; but in every state the session reaches, the
    entries a flush replays, from any point of its order, are cached
    under their own method, which is one of the seven of the order and so
    never [start_cf]. *)
Theorem identify_is_never_replayed (m : machine) :
  reachable m →
  (∀ k, pendingByKey (this (identify k m)) !! "start_cf" =
          Some (Command "start_cf"
                  (JArr [JNum 10; JNum 0; JStr "500,2,0,10,500,2,0,100"])))
  ∧ (∀ rest c, rest `suffix_of` order →
       c ∈ flush_plan (pendingByKey (this m)) rest →
       method c ∈ order ∧ method c ≠ "start_cf"
       ∧ pendingByKey (this m) !! method c = Some c).
Proof.
  intros Hr. pose proof (reachable_cache_wf m Hr) as Hwf. split.
  - intros k. unfold identify. rewrite sendCmd_pending. cbn.
    unfold _cachePending. cbn. apply lookup_insert_eq.
  - intros rest c Hs Hc. unfold flush_plan in Hc.
    apply list_elem_of_omap in Hc as (key & Hkey & Hl).
    destruct (Hwf _ _ Hl) as (Hm & _ & _). subst key.
    assert (method c ∈ order) as Ho.
    { destruct Hs as [pre ->]. apply elem_of_app. by right. }
    split_and!; [done | | done].
    intros He. rewrite He in Ho. unfold order in Ho.
    repeat (apply elem_of_cons in Ho as [Ho | Ho]; [done |]).
    by apply elem_of_nil in Ho.
Qed.

(** X14. Messages the handlers throw on.  The state handler throws a
    [TypeError], changing nothing, on a [props] notification whose [params]
    is missing or [null]; the response handler throws a [TypeError],
    changing nothing, on a message whose id names a property every object
    inherits (such as [constructor]) while no request has that id, and on
    a message that is a JSON primitive; an array is declined by both. *)
Theorem handlers_throw_on_malformed (m : machine) :
  (∀ fs, obj_get "method" fs = Some (JStr "props") →
     (obj_get "params" fs = None ∨ obj_get "params" fs = Some JNull) →
     ∃ w, stateHandler (JObj fs) m = (m, Threw (VTypeError w)))
  ∧ (∀ fs idv key, obj_get "id" fs = Some idv → js_to_string idv = Some key →
       key ∈ Object_prototype_keys → cmds (this m) !! key = None →
       ∃ w, responseHandler (JObj fs) m = (m, Threw (VTypeError w)))
  ∧ (∀ msg, match msg with JObj _ | JArr _ => False | _ => True end →
       ∃ w, responseHandler msg m = (m, Threw (VTypeError w)))
  ∧ (∀ items, responseHandler (JArr items) m = (m, Declined)
              ∧ stateHandler (JArr items) m = (m, Declined)).
Proof.
  split_and!.
  - intros fs Hm Hp. unfold stateHandler, has_key. rewrite Hm. cbn.
    destruct Hp as [-> | ->]; eauto.
  - intros fs idv key Hid Hk Hin Hc. unfold responseHandler, has_key.
    rewrite Hid. cbn. rewrite Hk. unfold js_in. rewrite Hc.
    rewrite bool_decide_eq_true_2 by done. cbn. eauto.
  - intros msg Hmsg. destruct msg; try done; cbn; eauto.
  - done.
Qed.

(** ** Connecting with commands pending *)

Lemma flush_first (rest : list string) (c : command) (cs : list command)
    (m : machine) :
  flush_plan (pendingByKey (this m)) rest = c :: cs →
  ∃ rest', _flushPending_loop rest m = sendCmd c (KFlush rest') m
           ∧ rest' `suffix_of` rest.
Proof.
  induction rest as [| meth rest IH]; [done |]. unfold flush_plan in *. cbn.
  destruct (pendingByKey (this m) !! meth) as [c' |] eqn:Hc; cbn.
  - intros [= -> _]. exists rest. destruct c. split; [done |]. by apply suffix_cons_r.
  - intros H. destruct (IH H) as (rest' & ? & ?). exists rest'.
    split; [done |]. by apply suffix_cons_r.
Qed.

(** Entering [sendCmd] over a live socket: the first attempt is started and
    its body is queued; nothing is written yet. *)
Lemma sendCmd_live (cmd : command) (k : kont) (m : machine) (s : socket) :
  sock (this m) = Some s → destroyed s = false → 0 ≤ retries (this m) →
  ∃ m', sendCmd cmd k m = m'
    ∧ queue m' = queue m ++ [JCatch (Attempt (next_promise m) cmd (id_next m)
                                       (js_shl (timeout (this m)) 0))
                               (Fulfilled VUndefined)]
    ∧ trace m' = trace m ++ [OSendCmd (id_next m) cmd k]
    ∧ pool m' = pool m ++ [(next_promise m,
                            SendTask cmd (id_next m)
                              (String.eqb (method cmd) "get_prop")
                              (retries (this m)) (timeout (this m)) 0 k
                              [(0, js_shl (timeout (this m)) 0)] [])]
    ∧ sock (this m') = Some s
    ∧ next_timer m' = next_timer m ∧ timers m' = timers m
    ∧ connecting m' = connecting m ∧ next_sock m' = next_sock m
    ∧ cmds (this m') = cmds (this m)
    ∧ online (this m') = online (this m)
    ∧ _reconciling (this m') = _reconciling (this m)
    ∧ _power (this m') = _power (this m).
Proof.
  intros Hs Hd Hr. eexists. split; [reflexivity |].
  destruct (cachePending_frame cmd (this m))
    as (_ & _ & Hs' & Hr' & Ht' & Hrc & Hc & Ho & Hp & _).
  unfold sendCmd, sendCmd_loop, _sendCmd.
  destruct (String.eqb (method cmd) "get_prop"); cbn;
    rewrite ?Hr', ?Ht', ?Hs', ?Hs; cbn; rewrite ?Hd; cbn;
    (destruct (Z.leb_spec 0 (retries (this m))); [| lia]); cbn;
    rewrite ?Hs', ?Hs; cbn; rewrite ?Hd; cbn; rewrite ?Hs', ?Hs; done.
Qed.

(** *** One step at a time *)

Lemma run_cons (l : label) (ls : list label) (m : machine) :
  run (l :: ls) m = match step l m with Some m' => run ls m' | None => None end.
Proof. reflexivity. Qed.

Lemma step_job (m : machine) (j : job) (q : list job) :
  queue m = j :: q → step LJob m = Some (run_job j (set_queue q m)).
Proof. intros H. unfold step. by rewrite H. Qed.

(** The function passed to [.then] in [_sendCmd], when there is a socket. *)
Lemma sendCmd_then_sock (a : attempt) (m : machine) (s : socket) :
  sock (this m) = Some s →
  _sendCmd_then a m =
    with_this (fun b => set_cmds (<[id_key (a_id a) :=
                                     Inflight (a_promise a) (next_timer m)]> (cmds b)) b)
      (emit (OWrite (sock_id s) (a_id a) (a_cmd a))
         (emit (OSetTimeout (next_timer m) (a_id a) (a_duration a))
            (set_next_timer (S (next_timer m))
               (set_timers (<[next_timer m := (a_promise a, a_id a)]> (timers m)) m)))).
Proof. intros H. unfold _sendCmd_then. cbn. by rewrite H. Qed.

Lemma settle_found (p : nat) (r : outcome) (m : machine) (t : send_task) :
  pool_find p (pool m) = Some t →
  settle p r m = enqueue (JSendCmd t r) (set_pool (pool_remove p (pool m)) m).
Proof. intros H. unfold settle. by rewrite H. Qed.

Ltac next_job :=
  rewrite run_cons; erewrite step_job by (cbn; reflexivity); cbn [run_job].

(** Two attempts on their way to the socket, the second still waiting for
    [connect()]: their bodies run in that order. *)
Lemma two_attempt_bodies (M : machine) (af a : attempt) (v1 v2 : jsval) (s : socket) :
  queue M = [JCatch af (Fulfilled v1); JConnected a (Fulfilled v2)] →
  sock (this M) = Some s →
  ∃ M', run [LJob; LJob; LJob; LJob; LJob] M = Some M'
    ∧ trace M' = trace M ++
        [OSetTimeout (next_timer M) (a_id af) (a_duration af);
         OWrite (sock_id s) (a_id af) (a_cmd af);
         OSetTimeout (S (next_timer M)) (a_id a) (a_duration a);
         OWrite (sock_id s) (a_id a) (a_cmd a)]
    ∧ queue M' = []
    ∧ pool M' = pool M
    ∧ cmds (this M') =
        <[id_key (a_id a) := Inflight (a_promise a) (S (next_timer M))]>
          (<[id_key (a_id af) := Inflight (a_promise af) (next_timer M)]>
             (cmds (this M)))
    ∧ timers M' =
        <[S (next_timer M) := (a_promise a, a_id a)]>
          (<[next_timer M := (a_promise af, a_id af)]> (timers M))
    ∧ online (this M') = online (this M)
    ∧ _reconciling (this M') = _reconciling (this M)
    ∧ sock (this M') = Some s.
Proof.
  intros Hq Hs. eexists. split.
  { rewrite run_cons, (step_job M _ _ Hq). cbn [run_job].
    next_job. next_job.
    erewrite sendCmd_then_sock by (cbn; exact Hs).
    next_job. next_job.
    erewrite sendCmd_then_sock by (cbn; exact Hs).
    cbn [run]. reflexivity. }
  cbn. rewrite <- !app_assoc. done.
Qed.

(** X11. On connect the first replay goes out before the command that
    opened the connection.  When the connect event arrives for a socket
    that an attempt is waiting for, no reconciliation is in progress, the
    pending cache has an entry in the flush order and the retry budget is
    not negative, then [_onConnected] enters [sendCmd] with the first
    pending entry under a fresh id, and after five promise jobs that replay
    has been written to the session's socket, with its deadline timer
    armed, before the waiting attempt's own command is written. *)
Theorem replay_precedes_connecting_command (m : machine) (sid : nat)
    (a : attempt) (s : socket) (c : command) (cs : list command) :
  queue m = [] → (sid < next_sock m)%nat → connecting m !! sid = Some a →
  sock (this m) = Some s → destroyed s = false →
  _reconciling (this m) = false → 0 ≤ retries (this m) →
  flush_plan (pendingByKey (this m)) order = c :: cs →
  ∃ m' rest',
    run [LConnect sid; LJob; LJob; LJob; LJob; LJob] m = Some m'
    ∧ trace m' = trace m ++
        [OSendCmd (id_next m) c (KFlush rest');
         OSetTimeout (next_timer m) (id_next m) (js_shl (timeout (this m)) 0);
         OWrite (sock_id s) (id_next m) c;
         OSetTimeout (S (next_timer m)) (a_id a) (a_duration a);
         OWrite (sock_id s) (a_id a) (a_cmd a)]
    ∧ rest' `suffix_of` order
    ∧ online (this m') = true
    ∧ _reconciling (this m') = true
    ∧ queue m' = [].
Proof.
  intros Hq Hsid Hc Hs Hd Hrc Hr Hp.
  set (m2 := with_this (set_reconciling true) (with_this (set_online true) m)).
  destruct (flush_first order c cs m2 Hp) as (rest' & Hf & Hsuf).
  destruct (sendCmd_live c (KFlush rest') m2 s Hs Hd Hr)
    as (M & HM & HMq & HMt & HMp & HMs & HMnt & HMti & HMc & _ & _ & HMo & HMr & _).
  set (M2 := enqueue (JConnected a (Fulfilled VUndefined))
               (set_connecting (delete sid (connecting M)) M)).
  assert (on_connect sid m = M2) as Hon.
  { unfold on_connect, _onConnected.
    change (_reconciling (this (with_this (set_online true) m)))
      with (_reconciling (this m)).
    rewrite Hrc. unfold _flushPending. fold m2. rewrite Hf, HM.
    unfold settle_connect. rewrite HMc.
    change (connecting m2) with (connecting m). rewrite Hc.
    unfold M2. rewrite HMc. reflexivity. }
  destruct (two_attempt_bodies M2
              (Attempt (next_promise m2) c (id_next m2) (js_shl (timeout (this m2)) 0))
              a VUndefined VUndefined s)
    as (m' & Hrun & Ht & Hq' & _ & _ & _ & Ho & Hr' & _).
  { cbn. rewrite HMq. cbn. by rewrite Hq. }
  { cbn. exact HMs. }
  exists m', rest'. split_and!; try done.
  - rewrite run_cons. unfold step at 1.
    apply Nat.ltb_lt in Hsid. rewrite Hsid, Hon. exact Hrun.
  - rewrite Ht. cbn. rewrite HMt, HMnt. cbn. by rewrite <- app_assoc.
  - rewrite Ho. cbn. by rewrite HMo.
  - rewrite Hr'. cbn. by rewrite HMr.
Qed.

(** ** A command and its answer *)

Lemma pool_find_snoc (p : nat) (t : send_task) (l : list (nat * send_task)) :
  pool_find p l = None →
  pool_find p (l ++ [(p, t)]) = Some t ∧ pool_remove p (l ++ [(p, t)]) = l.
Proof.
  induction l as [| [q u] l IH]; cbn.
  - by rewrite Nat.eqb_refl.
  - destruct (Nat.eqb p q); [done |]. intros H. destruct (IH H) as [-> ->]. done.
Qed.

(** The response handler on a message with a result for a request in
    flight. *)
Lemma responseHandler_result (fs : list (string * json)) (idv result : json)
    (key : string) (e : inflight) (m : machine) :
  obj_get "id" fs = Some idv → js_to_string idv = Some key →
  cmds (this m) !! key = Some e → obj_get "result" fs = Some result →
  responseHandler (JObj fs) m =
    (delete_cmd key
       (settle (if_promise e) (Fulfilled (VJson result)) (clearTimeout (if_timer e) m)),
     Claimed).
Proof.
  intros Hid Hk Hc Hres. unfold responseHandler, has_key. rewrite Hid. cbn.
  rewrite Hk. unfold js_in. rewrite Hc. cbn. by rewrite Hres.
Qed.

(** An attempt over a live socket, answered with a result: the body writes
    the command, the response settles the attempt and [sendCmd] returns the
    result to who awaits it. *)
Lemma answered_attempt (M : machine) (a : attempt) (t : send_task) (v : jsval)
    (s : socket) (pl : list (nat * send_task)) (fs : list (string * json))
    (idv result : json) :
  queue M = [JCatch a (Fulfilled v)] → sock (this M) = Some s →
  pool M = pl ++ [(a_promise a, t)] → pool_find (a_promise a) pl = None →
  obj_get "id" fs = Some idv → js_to_string idv = Some (id_key (a_id a)) →
  obj_get "result" fs = Some result →
  ∃ M2 M3 M4,
    run [LJob; LJob] M = Some M2
    ∧ responseHandler (JObj fs) M2 = (M3, Claimed)
    ∧ step LJob M3 = Some M4
    ∧ queue M4 = [JKont (t_k t) (Fulfilled (VJson result))]
    ∧ trace M4 = trace M ++
        [OSetTimeout (next_timer M) (a_id a) (a_duration a);
         OWrite (sock_id s) (a_id a) (a_cmd a);
         ODone (t_id t) (t_cmd t) (t_attempts t) (t_errors t)
               (Fulfilled (VJson result))]
    ∧ pool M4 = pl
    ∧ cmds (this M4) !! id_key (a_id a) = None
    ∧ timers M4 !! next_timer M = None
    ∧ _power (this M4) = _power (this M)
    ∧ pendingByKey (this M4) = pendingByKey (this M).
Proof.
  intros Hq Hs Hp Hf Hid Hk Hres.
  destruct (pool_find_snoc _ t pl Hf) as [Hfind Hrem].
  eexists. eexists. eexists. split.
  { rewrite run_cons, (step_job M _ _ Hq). cbn [run_job].
    next_job. erewrite sendCmd_then_sock by (cbn; exact Hs).
    cbn [run]. reflexivity. }
  split.
  { erewrite responseHandler_result;
      [| exact Hid | exact Hk | cbn; apply lookup_insert_eq | exact Hres].
    cbn [if_promise if_timer].
    erewrite settle_found by (cbn; rewrite Hp; exact Hfind).
    reflexivity. }
  split.
  { erewrite step_job by (cbn; reflexivity). cbn [run_job sendCmd_resume].
    reflexivity. }
  cbn. rewrite Hp, Hrem, !lookup_delete_eq, <- !app_assoc. done.
Qed.

(** [sendCmd] entered over a live socket and answered with a result, up to
    the moment its caller is about to resume. *)
Lemma sendCmd_answered (cmd : command) (k : kont) (m : machine) (s : socket)
    (fs : list (string * json)) (idv result : json) :
  queue m = [] → sock (this m) = Some s → destroyed s = false →
  0 ≤ retries (this m) → pool_find (next_promise m) (pool m) = None →
  obj_get "id" fs = Some idv → js_to_string idv = Some (id_key (id_next m)) →
  obj_get "result" fs = Some result →
  ∃ M2 M3 M4,
    run [LJob; LJob] (sendCmd cmd k m) = Some M2
    ∧ responseHandler (JObj fs) M2 = (M3, Claimed)
    ∧ step LJob M3 = Some M4
    ∧ queue M4 = [JKont k (Fulfilled (VJson result))]
    ∧ trace M4 = trace m ++
        [OSendCmd (id_next m) cmd k;
         OSetTimeout (next_timer m) (id_next m) (js_shl (timeout (this m)) 0);
         OWrite (sock_id s) (id_next m) cmd;
         ODone (id_next m) cmd [(0, js_shl (timeout (this m)) 0)] []
               (Fulfilled (VJson result))]
    ∧ pool M4 = pool m
    ∧ cmds (this M4) !! id_key (id_next m) = None
    ∧ timers M4 !! next_timer m = None
    ∧ _power (this M4) = _power (this m)
    ∧ pendingByKey (this M4) = pendingByKey (this (sendCmd cmd k m)).
Proof.
  intros Hq Hs Hd Hr Hf Hid Hk Hres.
  destruct (sendCmd_live cmd k m s Hs Hd Hr)
    as (M & HM & HMq & HMt & HMp & HMs & HMnt & _ & _ & _ & _ & _ & _ & HMpw).
  rewrite Hq in HMq. cbn [app] in HMq.
  destruct (answered_attempt M _ _ _ s (pool m) fs idv result HMq HMs HMp Hf Hid Hk Hres)
    as (M2 & M3 & M4 & H2 & H3 & H4 & Hq4 & Ht4 & Hp4 & Hc4 & Hti4 & Hpw4 & Hpb4).
  exists M2, M3, M4. rewrite HM.
  cbn [a_id a_cmd a_duration a_promise t_k t_id t_cmd t_attempts t_errors] in *.
  split_and!; try done.
  - rewrite Ht4, HMt, HMnt. by rewrite <- app_assoc.
  - by rewrite <- HMnt.
  - by rewrite Hpw4.
Qed.

(** X15. A command and its answer.  [sendCmd] called from outside over a
    live socket, with a retry budget that is not negative, writes the
    command once, under a fresh id and with the base deadline armed; when
    the response with that id and a result has been handled, two promise
    jobs later the caller's promise is fulfilled with the result, and
    neither the in-flight entry, nor the timer, nor the pending attempt is
    left behind. *)
Theorem sendCmd_round_trip (cmd : command) (tag : nat) (m : machine) (s : socket)
    (fs : list (string * json)) (idv result : json) :
  queue m = [] → sock (this m) = Some s → destroyed s = false →
  0 ≤ retries (this m) → pool_find (next_promise m) (pool m) = None →
  obj_get "id" fs = Some idv → js_to_string idv = Some (id_key (id_next m)) →
  obj_get "result" fs = Some result →
  ∃ m2 m3 m',
    run [LSendCmd cmd tag; LJob; LJob] m = Some m2
    ∧ responseHandler (JObj fs) m2 = (m3, Claimed)
    ∧ run [LJob; LJob] m3 = Some m'
    ∧ trace m' = trace m ++
        [OSendCmd (id_next m) cmd (KCaller tag);
         OSetTimeout (next_timer m) (id_next m) (js_shl (timeout (this m)) 0);
         OWrite (sock_id s) (id_next m) cmd;
         ODone (id_next m) cmd [(0, js_shl (timeout (this m)) 0)] []
               (Fulfilled (VJson result));
         OSettled tag (Fulfilled (VJson result))]
    ∧ queue m' = []
    ∧ pool m' = pool m
    ∧ cmds (this m') !! id_key (id_next m) = None
    ∧ timers m' !! next_timer m = None.
Proof.
  intros Hq Hs Hd Hr Hf Hid Hk Hres.
  destruct (sendCmd_answered cmd (KCaller tag) m s fs idv result
              Hq Hs Hd Hr Hf Hid Hk Hres)
    as (M2 & M3 & M4 & H2 & H3 & H4 & Hq4 & Ht4 & Hp4 & Hc4 & Hti4 & _).
  exists M2, M3. eexists. split_and!.
  - rewrite run_cons. unfold step at 1. exact H2.
  - exact H3.
  - rewrite run_cons, H4, run_cons, (step_job M4 _ _ Hq4). cbn [run_job resume run].
    reflexivity.
  - cbn. rewrite Ht4. by rewrite <- app_assoc.
  - done.
  - done.
  - done.
  - done.
Qed.

(** X12. The [get] listener of the On characteristic, answered.  Over a
    live socket it enters [sendCmd] with [get_prop ['power']], which is
    written once with the base deadline; when the response with that id
    and the result [[x, ...]] has been handled and two promise jobs have
    run, the mirrored power is on exactly when [x] is the string ['on'], the
    callback has been given that boolean, nothing is left pending, and the
    pending cache is as before. *)
Theorem get_listener_round_trip (tag : nat) (m : machine) (s : socket)
    (fs : list (string * json)) (idv x : json) (xs : list json) :
  queue m = [] → sock (this m) = Some s → destroyed s = false →
  0 ≤ retries (this m) → pool_find (next_promise m) (pool m) = None →
  obj_get "id" fs = Some idv → js_to_string idv = Some (id_key (id_next m)) →
  obj_get "result" fs = Some (JArr (x :: xs)) →
  ∃ m2 m3 m',
    run [LCharGet tag; LJob; LJob] m = Some m2
    ∧ responseHandler (JObj fs) m2 = (m3, Claimed)
    ∧ run [LJob; LJob] m3 = Some m'
    ∧ power (this m') = match x with JStr v => String.eqb v "on" | _ => false end
    ∧ trace m' = trace m ++
        [OSendCmd (id_next m) (Command "get_prop" (JArr [JStr "power"])) (KCharGet tag);
         OSetTimeout (next_timer m) (id_next m) (js_shl (timeout (this m)) 0);
         OWrite (sock_id s) (id_next m) (Command "get_prop" (JArr [JStr "power"]));
         ODone (id_next m) (Command "get_prop" (JArr [JStr "power"]))
               [(0, js_shl (timeout (this m)) 0)] []
               (Fulfilled (VJson (JArr (x :: xs))));
         OSettled tag (Fulfilled (VJson (JBool (power (this m')))))]
    ∧ queue m' = []
    ∧ pool m' = pool m
    ∧ pendingByKey (this m') = pendingByKey (this m).
Proof.
  intros Hq Hs Hd Hr Hf Hid Hk Hres.
  destruct (sendCmd_answered (Command "get_prop" (JArr [JStr "power"]))
              (KCharGet tag) m s fs idv _ Hq Hs Hd Hr Hf Hid Hk Hres)
    as (M2 & M3 & M4 & H2 & H3 & H4 & Hq4 & Ht4 & Hp4 & _ & _ & _ & Hpb4).
  rewrite sendCmd_pending in Hpb4. cbn in Hpb4.
  exists M2, M3. eexists. split_and!.
  - rewrite run_cons. unfold step at 1. exact H2.
  - exact H3.
  - rewrite run_cons, H4, run_cons, (step_job M4 _ _ Hq4).
    cbn [run_job resume first_of run]. reflexivity.
  - cbn. by destruct x.
  - cbn. rewrite Ht4. rewrite <- !app_assoc. cbn. by destruct x.
  - done.
  - done.
  - cbn. exact Hpb4.
Qed.

(** ** Deadlines and refused connections *)

Lemma sendCmd_loop_live (t : send_task) (m : machine) (s : socket) :
  t_i t ≤ t_retries t → sock (this m) = Some s → destroyed s = false →
  sendCmd_loop t m =
    enqueue (JCatch (attempt_of t m) (Fulfilled VUndefined))
      (set_pool (pool m ++ [(next_promise m, suspended t)])
         (set_next_promise (S (next_promise m)) m)).
Proof.
  intros Hi Hs Hd. unfold sendCmd_loop, _sendCmd.
  destruct (Z.leb_spec (t_i t) (t_retries t)); [| lia].
  cbn. rewrite Hs. cbn. by rewrite Hd.
Qed.

Lemma sendCmd_loop_connect (t : send_task) (m : machine) :
  t_i t ≤ t_retries t → live (sock (this m)) = false →
  valid_port (port (this m)) = true →
  sendCmd_loop t m =
    set_connecting (<[next_sock m := attempt_of t m]> (connecting m))
      (emit (OConnect (next_sock m) (host (this m)) (port (this m)))
         (set_next_sock (S (next_sock m))
            (with_this (set_sock (Some (Socket (next_sock m) false)))
               (set_pool (pool m ++ [(next_promise m, suspended t)])
                  (set_next_promise (S (next_promise m)) m))))).
Proof.
  intros Hi Hl Hv. unfold sendCmd_loop, _sendCmd, connect.
  destruct (Z.leb_spec (t_i t) (t_retries t)); [| lia].
  cbn. by rewrite Hl, Hv.
Qed.

Lemma sendCmd_resume_retry (t : send_task) (e : jsval) (m : machine) :
  is_EHOSTUNREACH e = false → t_i t < t_retries t →
  sendCmd_resume t (Rejected e) m = sendCmd_loop (caught e t) m.
Proof.
  intros He Hi. unfold sendCmd_resume. rewrite He.
  destruct (Z.eqb_spec (t_i t) (t_retries t)); [lia | done].
Qed.

(** X16. A deadline that fires with budget left sends the command again.
    When the deadline timer of an attempt fires while its [sendCmd] has
    attempts left and the socket is live, then after three promise jobs the
    same command has been written again under the same id, with the
    deadline [timeout << (i + 1)] armed, and [sendCmd] is suspended at
    attempt [i + 1] having caught [new Error(id)]. *)
Theorem deadline_retries_with_same_id (m : machine) (tid p id : nat)
    (t : send_task) (s : socket) :
  queue m = [] → timers m !! tid = Some (p, id) →
  pool_find p (pool m) = Some t → t_i t < t_retries t →
  sock (this m) = Some s → destroyed s = false →
  ∃ m',
    run [LTimer tid; LJob; LJob; LJob] m = Some m'
    ∧ trace m' = trace m ++
        [OSetTimeout (next_timer m) (t_id t) (js_shl (t_timeout t) (t_i t + 1));
         OWrite (sock_id s) (t_id t) (t_cmd t)]
    ∧ queue m' = []
    ∧ timers m' = <[next_timer m := (next_promise m, t_id t)]> (delete tid (timers m))
    ∧ cmds (this m') =
        <[id_key (t_id t) := Inflight (next_promise m) (next_timer m)]>
          (delete (id_key id) (cmds (this m)))
    ∧ ∃ t', pool m' = pool_remove p (pool m) ++ [(next_promise m, t')]
        ∧ t_i t' = t_i t + 1 ∧ t_id t' = t_id t ∧ t_cmd t' = t_cmd t
        ∧ t_k t' = t_k t
        ∧ t_errors t' = t_errors t ++ [VError (id_key id)].
Proof.
  intros Hq Ht Hp Hi Hs Hd. eexists. split.
  { rewrite run_cons. unfold step at 1. rewrite Ht.
    unfold on_timer. rewrite Ht.
    erewrite settle_found by (cbn; exact Hp).
    rewrite run_cons. erewrite step_job by (cbn; rewrite Hq; reflexivity).
    cbn [run_job].
    rewrite sendCmd_resume_retry by done.
    erewrite sendCmd_loop_live; [| cbn; lia | cbn; exact Hs | exact Hd].
    next_job. next_job.
    erewrite sendCmd_then_sock by (cbn; exact Hs).
    cbn [run]. reflexivity. }
  cbn. rewrite <- !app_assoc. split_and!; try done.
  eexists. split; [reflexivity |]. done.
Qed.

(** X17. A refused connection is retried on a new socket, and the failed
    attempt's body still runs.  When the session's connecting socket
    reports an error other than EHOSTUNREACH and [sendCmd] has attempts
    left, then after four promise jobs a new socket has been opened to the
    same host and port for the next attempt (with the next deadline), the
    session is marked offline, and the function passed to [.then] of the
    attempt that failed has run all the same: it has armed that attempt's
    timer, called [write] with its command on the new socket, and entered
    it in [this.cmds]. *)
Theorem refused_connection_reconnects (m : machine) (sid : nat) (d : bool)
    (a : attempt) (t : send_task) (code : option string) :
  queue m = [] → (sid < next_sock m)%nat → connecting m !! sid = Some a →
  pool_find (a_promise a) (pool m) = Some t → t_i t < t_retries t →
  code ≠ Some "EHOSTUNREACH" →
  sock (this m) = Some (Socket sid d) → valid_port (port (this m)) = true →
  ∃ m',
    run [LError sid code; LJob; LJob; LJob; LJob] m = Some m'
    ∧ trace m' = trace m ++
        [OConnect (next_sock m) (host (this m)) (port (this m));
         OSetTimeout (next_timer m) (a_id a) (a_duration a);
         OWrite (next_sock m) (a_id a) (a_cmd a)]
    ∧ sock (this m') = Some (Socket (next_sock m) false)
    ∧ online (this m') = false
    ∧ connecting m' =
        <[next_sock m := Attempt (next_promise m) (t_cmd t) (t_id t)
                           (js_shl (t_timeout t) (t_i t + 1))]>
          (delete sid (connecting m))
    ∧ cmds (this m') =
        <[id_key (a_id a) := Inflight (a_promise a) (next_timer m)]> (cmds (this m))
    ∧ queue m' = [].
Proof.
  intros Hq Hsid Hc Hp Hi Hcode Hs Hv.
  apply Nat.ltb_lt in Hsid.
  set (e := match code with
            | Some c0 => VJson (JStr c0)
            | None => VUndefined
            end).
  assert (is_EHOSTUNREACH e = false) as He.
  { unfold e. destruct code as [c0 |]; [| done]. cbn. apply String.eqb_neq. congruence. }
  assert (mark_destroyed sid m = with_this (set_sock (Some (Socket sid true))) m) as Hmd.
  { unfold mark_destroyed. rewrite Hs. cbn. by rewrite Nat.eqb_refl. }
  eexists. split.
  { rewrite run_cons. unfold step at 1. rewrite Hsid.
    unfold on_error. fold e. rewrite Hmd. unfold settle_connect.
    change (connecting (with_this (set_online false)
              (with_this (set_sock (Some (Socket sid true))) m)))
      with (connecting m).
    rewrite Hc.
    rewrite run_cons. erewrite step_job by (cbn; rewrite Hq; reflexivity).
    cbn [run_job].
    next_job.
    erewrite settle_found by (cbn; exact Hp).
    next_job.
    rewrite sendCmd_resume_retry by done.
    erewrite sendCmd_loop_connect; [| cbn; lia | reflexivity | cbn; exact Hv].
    next_job.
    erewrite sendCmd_then_sock by (cbn; reflexivity).
    cbn [run]. reflexivity. }
  cbn. rewrite <- !app_assoc. done.
Qed.

(** ** Nothing but entered commands *)

Create HintDb en.

Lemma entered_mono (tr tr' : list obs) (id : nat) (c : command) :
  tr ⊆ tr' → entered tr id c → entered tr' id c.
Proof. intros Hs [k Hk]. exists k. by apply Hs. Qed.

Lemma job_entered_mono (tr tr' : list obs) (j : job) :
  tr ⊆ tr' → job_entered tr j → job_entered tr' j.
Proof. intros Hs. destruct j; cbn; eauto using entered_mono. Qed.

Lemma obs_entered_mono (tr tr' : list obs) (o : obs) :
  tr ⊆ tr' → obs_entered tr o → obs_entered tr' o.
Proof.
  intros Hs. destruct o; cbn; eauto using entered_mono.
  intros [c Hc]. eauto using entered_mono.
Qed.

Lemma Entered_enqueue (j : job) (m : machine) :
  job_entered (trace m) j → Entered m → Entered (enqueue j m).
Proof.
  intros Hj [? ? ? ?]. split; try done.
  apply Forall_app. split; [done | by constructor].
Qed.

Lemma Entered_emit (o : obs) (m : machine) :
  obs_entered (trace m ++ [o]) o → Entered m → Entered (emit o m).
Proof.
  intros Ho [Hc Hp Hq Ht].
  assert (trace m ⊆ trace m ++ [o]) as Hsub by set_solver.
  split; cbn.
  - eapply map_Forall_impl; [exact Hc |]. intros ? a. by apply entered_mono.
  - eapply Forall_impl; [exact Hp |]. intros pt. by apply entered_mono.
  - eapply Forall_impl; [exact Hq |]. intros j. by apply job_entered_mono.
  - apply Forall_app. split; [| by constructor].
    eapply Forall_impl; [exact Ht |]. intros o'. by apply obs_entered_mono.
Qed.

Lemma Entered_with_this (f : bulb → bulb) (m : machine) :
  Entered m → Entered (with_this f m).
Proof. by intros []. Qed.
Lemma Entered_set_id_next n m : Entered m → Entered (set_id_next n m).
Proof. by intros []. Qed.
Lemma Entered_set_next_sock n m : Entered m → Entered (set_next_sock n m).
Proof. by intros []. Qed.
Lemma Entered_set_next_promise n m : Entered m → Entered (set_next_promise n m).
Proof. by intros []. Qed.
Lemma Entered_set_next_timer n m : Entered m → Entered (set_next_timer n m).
Proof. by intros []. Qed.
Lemma Entered_set_timers t m : Entered m → Entered (set_timers t m).
Proof. by intros []. Qed.

Lemma Entered_connecting_insert sid a c m :
  connecting m = c → entered (trace m) (a_id a) (a_cmd a) →
  Entered m → Entered (set_connecting (<[sid := a]> c) m).
Proof.
  intros <- Ha [Hc ? ? ?]. split; try done. cbn. by apply map_Forall_insert_2.
Qed.

Lemma Entered_connecting_delete sid m :
  Entered m → Entered (set_connecting (delete sid (connecting m)) m).
Proof.
  intros [Hc ? ? ?]. split; try done. cbn. by apply map_Forall_delete.
Qed.

Lemma Entered_add_task (p : nat) (t : send_task) (l : list (nat * send_task))
    (m : machine) :
  pool m = l → entered (trace m) (t_id t) (t_cmd t) →
  Entered m → Entered (set_pool (l ++ [(p, t)]) m).
Proof.
  intros <- Ht [? ? ? ?]. split; try done.
  apply Forall_app. split; [done | by constructor].
Qed.

Lemma Entered_settle (p : nat) (r : outcome) (m : machine) :
  Entered m → Entered (settle p r m).
Proof.
  intros HE. unfold settle. destruct (pool_find p (pool m)) as [t |] eqn:Hp; [| done].
  destruct HE as [? Hpool ? ?]. split; try done.
  - cbn. rewrite Forall_forall in *. intros x Hx. apply Hpool.
    by apply (pool_remove_sub p).
  - cbn. apply Forall_app. split; [done |]. constructor; [| done].
    cbn. rewrite Forall_forall in Hpool.
    by apply (Hpool (p, t)), pool_find_In.
Qed.

Lemma trace_settle (p : nat) (r : outcome) (m : machine) :
  trace (settle p r m) = trace m.
Proof. unfold settle. by destruct (pool_find p (pool m)). Qed.

Lemma Entered_settle_connect (sid : nat) (r : outcome) (m : machine) :
  Entered m → Entered (settle_connect sid r m).
Proof.
  intros HE. unfold settle_connect.
  destruct (connecting m !! sid) as [a |] eqn:Ha; [| done].
  apply Entered_enqueue; [| by apply Entered_connecting_delete].
  exact (en_connecting _ HE sid a Ha).
Qed.

#[local] Hint Resolve Entered_enqueue Entered_emit Entered_with_this
  Entered_set_id_next Entered_set_next_sock Entered_set_next_promise
  Entered_set_next_timer Entered_set_timers Entered_connecting_insert
  Entered_connecting_delete Entered_add_task Entered_settle
  Entered_settle_connect : en.
#[local] Hint Extern 1 (job_entered _ _) => (cbn; done) : en.
#[local] Hint Extern 1 (entered _ _ _) => (cbn; done) : en.
#[local] Hint Extern 1 (obs_entered _ _) =>
  (cbn; first [ done
              | eapply entered_mono; [| eassumption]; set_solver
              | eexists; eapply entered_mono; [| eassumption]; set_solver ]) : en.
#[local] Hint Extern 1 (_ = _ :> gmap _ _) => reflexivity : en.

Ltac en_cases := repeat case_match; eauto 20 with en.

Lemma Entered_connect a m :
  entered (trace m) (a_id a) (a_cmd a) → Entered m → Entered (connect a m).
Proof.
  intros Ha HE. unfold connect. repeat case_match; eauto 10 with en.
  apply Entered_connecting_insert; [done | | eauto 10 with en].
  cbn. eapply entered_mono; [| exact Ha]. set_solver.
Qed.

Lemma Entered__sendCmd a m :
  entered (trace m) (a_id a) (a_cmd a) → Entered m → Entered (_sendCmd a m).
Proof. intros Ha HE. unfold _sendCmd. pose proof Entered_connect. en_cases. Qed.

Lemma Entered__sendCmd_then a m :
  entered (trace m) (a_id a) (a_cmd a) → Entered m → Entered (_sendCmd_then a m).
Proof.
  intros Ha HE. unfold _sendCmd_then. cbn.
  assert (Entered (emit (OSetTimeout (next_timer m) (a_id a) (a_duration a))
            (set_next_timer (S (next_timer m))
               (set_timers (<[next_timer m := (a_promise a, a_id a)]> (timers m)) m))))
    as HE1.
  { apply Entered_emit; [| eauto with en]. cbn. eexists.
    eapply entered_mono; [| exact Ha]. set_solver. }
  destruct (sock (this m)); [| eauto with en].
  apply Entered_with_this, Entered_emit; [| done].
  cbn. eapply entered_mono; [| exact Ha]. set_solver.
Qed.

Lemma Entered_on_timer tid m : Entered m → Entered (on_timer tid m).
Proof. unfold on_timer. en_cases. Qed.

Lemma Entered_mark_destroyed sid m : Entered m → Entered (mark_destroyed sid m).
Proof. unfold mark_destroyed. en_cases. Qed.

Lemma Entered_updateEndpoint ep m : Entered m → Entered (updateEndpoint ep m).
Proof. unfold updateEndpoint. cbn. en_cases. Qed.

Lemma Entered_clearTimeout tid m : Entered m → Entered (clearTimeout tid m).
Proof. unfold clearTimeout. en_cases. Qed.

Lemma Entered_delete_cmd key m : Entered m → Entered (delete_cmd key m).
Proof. unfold delete_cmd. en_cases. Qed.

#[local] Hint Resolve Entered_connect Entered__sendCmd Entered__sendCmd_then
  Entered_on_timer Entered_mark_destroyed Entered_updateEndpoint
  Entered_clearTimeout Entered_delete_cmd : en.

Lemma Entered_responseHandler msg m : Entered m → Entered (responseHandler msg m).1.
Proof. unfold responseHandler. en_cases. Qed.

Lemma Entered_apply_props keys ps m : Entered m → Entered (apply_props keys ps m).
Proof.
  revert m. induction keys as [| k keys IH]; intros m HE; [done |].
  cbn [apply_props]. unfold updateStateFromProp.
  destruct (negb _); cbn; apply IH; eauto 10 with en.
Qed.

Lemma Entered_stateHandler msg m : Entered m → Entered (stateHandler msg m).1.
Proof. unfold stateHandler. pose proof Entered_apply_props. en_cases. Qed.

Lemma Entered_route msg m : Entered m → Entered (route msg m).1.
Proof.
  intros HE. unfold route.
  pose proof (Entered_responseHandler msg m HE) as H1.
  destruct (responseHandler msg m) as [m1 []]; cbn in *; try done.
  pose proof (Entered_stateHandler msg m1 H1) as H2.
  by destruct (stateHandler msg m1) as [m2 []].
Qed.

Lemma Entered_handle msgs m : Entered m → Entered (handle msgs m).
Proof.
  revert m. induction msgs as [| msg msgs IH]; intros m HE; [done |].
  cbn [handle]. pose proof (Entered_route msg m HE) as H1.
  destruct (route msg m) as [m1 []]; cbn in *; eauto with en.
Qed.

Lemma Entered_on_error sid code m : Entered m → Entered (on_error sid code m).
Proof. unfold on_error. en_cases. Qed.

Lemma Entered_on_close sid e m : Entered m → Entered (on_close sid e m).
Proof. unfold on_close. en_cases. Qed.

#[local] Hint Resolve Entered_handle Entered_on_error Entered_on_close : en.

Lemma Entered_sendCmd_failed t m :
  entered (trace m) (t_id t) (t_cmd t) → Entered m → Entered (sendCmd_failed t m).
Proof.
  intros Ht HE. unfold sendCmd_failed.
  apply Entered_enqueue; [done |]. apply Entered_emit.
  - cbn. eapply entered_mono; [| exact Ht]. clear. repeat case_match; cbn; set_solver.
  - apply Entered_with_this. en_cases.
Qed.

Lemma Entered_sendCmd_loop t m :
  entered (trace m) (t_id t) (t_cmd t) → Entered m → Entered (sendCmd_loop t m).
Proof.
  intros Ht HE. unfold sendCmd_loop. destruct (_ <=? _).
  - apply Entered__sendCmd; [done |].
    apply Entered_add_task; [done | done | by apply Entered_set_next_promise].
  - by apply Entered_sendCmd_failed.
Qed.

Lemma Entered_sendCmd cmd k m : Entered m → Entered (sendCmd cmd k m).
Proof.
  intros HE. unfold sendCmd. apply Entered_sendCmd_loop.
  - cbn. exists k. destruct (String.eqb _ _); cbn; set_solver.
  - apply Entered_emit; [done |]. destruct (String.eqb _ _); eauto with en.
Qed.

Lemma Entered_sendCmd_resume t r m :
  entered (trace m) (t_id t) (t_cmd t) → Entered m → Entered (sendCmd_resume t r m).
Proof.
  intros Ht HE. unfold sendCmd_resume. destruct r as [v | e].
  - apply Entered_enqueue; [done |]. apply Entered_emit; [| done].
    cbn. eapply entered_mono; [| exact Ht]. set_solver.
  - repeat case_match;
      first [ by apply Entered_sendCmd_failed | by apply Entered_sendCmd_loop ].
Qed.

Lemma Entered_flushPending_loop rest m :
  Entered m → Entered (_flushPending_loop rest m).
Proof.
  revert m. induction rest as [| meth rest IH]; intros m HE; cbn.
  - by apply Entered_enqueue.
  - destruct (pendingByKey (this m) !! meth); [| by apply IH].
    by apply Entered_sendCmd.
Qed.

Lemma Entered_onConnected m : Entered m → Entered (_onConnected m).
Proof.
  intros HE. unfold _onConnected, _flushPending.
  destruct (_reconciling (this m)); [done |].
  apply Entered_flushPending_loop. by apply Entered_with_this.
Qed.

Lemma Entered_resume k r m : Entered m → Entered (resume k r m).
Proof.
  intros HE. destruct k; cbn [resume].
  - by apply Entered_emit.
  - destruct r; eauto 10 with en.
  - en_cases.
  - by apply Entered_flushPending_loop.
  - by apply Entered_with_this.
Qed.

Lemma Entered_run_job j m :
  job_entered (trace m) j → Entered m → Entered (run_job j m).
Proof.
  intros Hj HE. destruct j as [a r | a [v | e] | a | t r | [| [| n]] k r | k r];
    cbn [run_job]; cbn in Hj; eauto 10 with en.
  - apply Entered_enqueue; [| by apply Entered_settle].
    cbn. by rewrite trace_settle.
  - by apply Entered_sendCmd_resume.
  - by apply Entered_resume.
Qed.

Lemma Entered_setPower p k m : Entered m → Entered (setPower p k m).
Proof.
  intros HE. unfold setPower. destruct (Bool.eqb _ p).
  - by apply Entered_enqueue.
  - by apply Entered_sendCmd.
Qed.

Lemma Entered_step l m m' : Entered m → step l m = Some m' → Entered m'.
Proof.
  intros HE Hs. unfold step in Hs.
  destruct l; [destruct (queue m) as [| j q] eqn:Hq; simplify_eq | ..].
  { destruct HE as [? ? Hjobs ?]. rewrite Hq in Hjobs.
    apply Forall_cons in Hjobs as [Hj Hjobs].
    apply Entered_run_job; [done |]. by split. }
  all: repeat case_match; simplify_eq;
    first [ by apply Entered_sendCmd | by apply Entered_setPower
          | by apply Entered_settle_connect, Entered_onConnected, Entered_with_this
          | eauto 10 with en ].
Qed.

Lemma Entered_run (ls : list label) (m m' : machine) :
  Entered m → run ls m = Some m' → Entered m'.
Proof.
  revert m. induction ls as [| l ls IH]; intros m HE Hr; cbn in Hr.
  - by injection Hr as <-.
  - destruct (step l m) as [m1 |] eqn:Hs; [| done].
    eapply IH; [| done]. by eapply Entered_step.
Qed.

Lemma reachable_Entered (m : machine) : reachable m → Entered m.
Proof.
  intros (cfg & ep & id0 & ls & Hr). eapply Entered_run; [| exact Hr].
  split; cbn; try done. by repeat constructor.
Qed.

(** X18. The session acts only for commands that were entered.  In every
    state the session reaches, every command written on a socket, every
    timer armed, every return of [sendCmd], every suspended [sendCmd] and
    every attempt waiting for a connection belongs to a command that was
    entered into [sendCmd], under the id [sendCmd] gave it. *)
Theorem writes_only_entered_commands (m : machine) :
  reachable m →
  (∀ sid id c, OWrite sid id c ∈ trace m → ∃ k, OSendCmd id c k ∈ trace m)
  ∧ (∀ tid id d, OSetTimeout tid id d ∈ trace m →
       ∃ c k, OSendCmd id c k ∈ trace m)
  ∧ (∀ id c attempts errors r, ODone id c attempts errors r ∈ trace m →
       ∃ k, OSendCmd id c k ∈ trace m)
  ∧ (∀ p t, (p, t) ∈ pool m → ∃ k, OSendCmd (t_id t) (t_cmd t) k ∈ trace m)
  ∧ (∀ sid a, connecting m !! sid = Some a →
       ∃ k, OSendCmd (a_id a) (a_cmd a) k ∈ trace m).
Proof.
  intros Hr. destruct (reachable_Entered m Hr) as [Hc Hp _ Ht].
  rewrite Forall_forall in Hp. rewrite Forall_forall in Ht.
  split_and!.
  - intros sid id c Ho. exact (Ht _ Ho).
  - intros tid id d Ho. exact (Ht _ Ho).
  - intros id c attempts errors r Ho. exact (Ht _ Ho).
  - intros p t Hpt. exact (Hp _ Hpt).
  - intros sid a Ha. exact (Hc _ _ Ha).
Qed.

(** ** Discovery *)

(** *** Splitting *)

Lemma prefix_head (c a : ascii) (t s : string) :
  Ascii.eqb a c = false → String.prefix (String c t) (String a s) = false.
Proof.
  intros H. cbn. destruct (ascii_dec c a) as [-> |]; [| done].
  by rewrite Ascii.eqb_refl in H.
Qed.

Lemma prefix_app (s r : string) : String.prefix s (s +:+ r) = true.
Proof.
  induction s as [| a s IH]; [by destruct r |]. rewrite string_app_cons. cbn.
  by destruct (ascii_dec a a).
Qed.

(** A piece in which the first character of the separator does not occur
    is passed over whole. *)
Lemma split_go_avoids (c : ascii) (t l cur rest : string) :
  avoids c l = true →
  split_go (String c t) 0 cur (l +:+ rest) =
    split_go (String c t) 0 (cur +:+ l) rest.
Proof.
  revert cur. induction l as [| a l IH]; intros cur Ha.
  - by rewrite string_app_nil_r.
  - cbn in Ha. apply andb_true_iff in Ha as [Ha Hl].
    apply negb_true_iff in Ha. rewrite string_app_cons.
    cbn [split_go]. rewrite (prefix_head c a t _ Ha), IH by done.
    by rewrite string_app_assoc.
Qed.

Lemma split_go_skip (sep t cur rest : string) :
  split_go sep (String.length t) cur (t +:+ rest) = split_go sep 0 cur rest.
Proof.
  induction t as [| a t IH]; [done |]. rewrite string_app_cons. cbn. exact IH.
Qed.

(** At an occurrence of the separator the piece ends. *)
Lemma split_go_sep (c : ascii) (t cur rest : string) :
  split_go (String c t) 0 cur (String c t +:+ rest) =
    cur :: split_go (String c t) 0 EmptyString rest.
Proof.
  rewrite string_app_cons. cbn [split_go].
  rewrite <- string_app_cons, prefix_app. cbn [String.length].
  rewrite Nat.sub_1_r. cbn [Nat.pred]. by rewrite split_go_skip.
Qed.

Lemma occurs_avoids (c : ascii) (t s : string) :
  avoids c s = true → occurs (String c t) s = false.
Proof.
  induction s as [| a s IH]; [done |]. cbn [avoids occurs].
  intros [Ha Hs]%andb_true_iff. apply negb_true_iff in Ha.
  by rewrite (prefix_head c a t s Ha), IH.
Qed.

(** A string in which the separator does not occur is one piece. *)
Lemma split_go_free (c : ascii) (t cur s : string) :
  occurs (String c t) s = false →
  split_go (String c t) 0 cur s = [cur +:+ s].
Proof.
  revert cur. induction s as [| a s IH]; intros cur Ho.
  - by rewrite string_app_nil_r.
  - cbn [occurs] in Ho. apply orb_false_iff in Ho as [Hp Ho].
    cbn [split_go]. rewrite Hp, IH by done. by rewrite string_app_assoc.
Qed.

(** [k + sep + v] splits into [k] and [v] when the first character of
    [sep] is not in [k] and [sep] does not occur in [v]. *)
Lemma split_str_pair (c : ascii) (t k v : string) :
  avoids c k = true → occurs (String c t) v = false →
  split_str (String c t) (k +:+ String c t +:+ v) = [k; v].
Proof.
  intros Hk Hv. unfold split_str.
  rewrite split_go_avoids, split_go_sep, split_go_free by done. done.
Qed.

(** Splitting undoes joining, for pieces without the first character of
    the separator. *)
Lemma split_str_concat (c : ascii) (t : string) (l : string) (ls : list string) :
  Forall (fun x => avoids c x = true) (l :: ls) →
  split_str (String c t) (String.concat (String c t) (l :: ls)) = l :: ls.
Proof.
  unfold split_str. revert l. induction ls as [| l' ls IH]; intros l Hall.
  - apply Forall_cons in Hall as [Hl _]. cbn [String.concat].
    rewrite split_go_free by (by apply occurs_avoids). done.
  - apply Forall_cons in Hall as [Hl Hall].
    change (String.concat (String c t) (l :: l' :: ls))
      with (l +:+ String c t +:+ String.concat (String c t) (l' :: ls)).
    rewrite split_go_avoids, split_go_sep by done. cbn [String.append].
    by rewrite IH.
Qed.

Lemma split_on_cons (c : ascii) (s : string) :
  ∃ w ws, split_on c s = w :: ws.
Proof.
  induction s as [| a s (w & ws & IH)]; cbn; [eauto |].
  rewrite IH. destruct (Ascii.eqb a c); eauto.
Qed.

(** The two models of [split] agree on a separator of one character. *)
Lemma split_on_go (c : ascii) (cur s : string) :
  ∃ w ws, split_on c s = w :: ws
    ∧ split_go (String c EmptyString) 0 cur s = (cur +:+ w) :: ws.
Proof.
  revert cur. induction s as [| a s IH]; intros cur.
  - exists EmptyString, []. cbn. by rewrite string_app_nil_r.
  - cbn [split_go split_on].
    destruct (Ascii.eqb a c) eqn:Hac.
    + apply Ascii.eqb_eq in Hac. subst a.
      pose proof (prefix_app (String c EmptyString) s) as Hp.
      rewrite string_app_cons in Hp. change (EmptyString +:+ s) with s in Hp.
      rewrite Hp. cbn [String.length Nat.sub].
      destruct (IH EmptyString) as (w & ws & -> & ->).
      eexists _, _. split; [reflexivity |]. cbn. by rewrite string_app_nil_r.
    + rewrite (prefix_head c a EmptyString s Hac).
      destruct (IH (cur +:+ String a EmptyString)) as (w & ws & -> & ->).
      eexists _, _. split; [reflexivity |]. by rewrite string_app_assoc.
Qed.

Lemma split_str_split_on (c : ascii) (s : string) :
  split_str (String c EmptyString) s = split_on c s.
Proof.
  unfold split_str. by destruct (split_on_go c EmptyString s) as (w & ws & -> & ->).
Qed.

Lemma avoids_app (c : ascii) (s1 s2 : string) :
  avoids c (s1 +:+ s2) = avoids c s1 && avoids c s2.
Proof.
  induction s1 as [| a s1 IH]; [done |]. rewrite string_app_cons. cbn.
  by rewrite IH, andb_assoc.
Qed.

Lemma digits_avoid (c : ascii) (s : string) (acc z : Z) :
  digits_value acc s = Some z → digit_of c = None → avoids c s = true.
Proof.
  intros Hd Hc. revert acc Hd. induction s as [| a s IH]; intros acc Hd; [done |].
  cbn in Hd. destruct (digit_of a) as [d |] eqn:Ha; [| done]. cbn.
  rewrite (IH _ Hd), andb_true_r. apply negb_true_iff, Ascii.eqb_neq.
  intros ->. congruence.
Qed.

(** *** The headers *)

Lemma add_header_line (h : gmap string (option string)) (kv : string * string) :
  header_ok kv →
  add_header h (header_line kv) =
    if String.eqb kv.1 "__proto__" then h else <[kv.1 := Some kv.2]> h.
Proof.
  intros [Hk Hv]. unfold add_header, parse_header, header_line.
  by rewrite (split_str_pair ":" " " _ _ Hk Hv).
Qed.

Lemma headers_keep (k : string) (l : list (string * string))
    (h : gmap string (option string)) :
  Forall header_ok l → k ∉ map fst l →
  foldl add_header h (map header_line l) !! k = h !! k.
Proof.
  revert h. induction l as [| kv l IH]; intros h Hall Hk; [done |].
  apply Forall_cons in Hall as [Hkv Hall]. cbn in Hk.
  apply not_elem_of_cons in Hk as [Hne Hk]. cbn [map foldl].
  rewrite IH by done. rewrite add_header_line by done.
  destruct (String.eqb kv.1 "__proto__"); [done |].
  by rewrite lookup_insert_ne.
Qed.

Lemma headers_last (k v : string) (pre post : list (string * string)) :
  Forall header_ok (pre ++ (k, v) :: post) → k ∉ map fst post →
  k ≠ "__proto__" →
  headers_of (map header_line (pre ++ (k, v) :: post)) !! k = Some (Some v).
Proof.
  intros Hall Hk Hp. apply Forall_app in Hall as [_ Hall].
  apply Forall_cons in Hall as [Hkv Hall].
  unfold headers_of. rewrite map_app, foldl_app. cbn [map foldl].
  rewrite headers_keep by done. rewrite add_header_line by done. cbn.
  apply String.eqb_neq in Hp. rewrite Hp. apply lookup_insert_eq.
Qed.

(** X19. From an advertisement to the session's host and port.  For a
    datagram that is not a search request, whose lines are joined by
    [global.EOL] and whose header lines are [key: value], the last
    [Location] header being [scheme//host:port] (no slash in the scheme or
    the host, no colon in the host, a decimal port of 0..65535),
    [handleMessage] calls [buildDevice] with the endpoint [host:port], and
    the endpoint setter of the session stores that host and that port. *)
Theorem advertisement_endpoint (e0 : ascii) (et method scheme h : string) (p : Z)
    (pre post : list (string * string)) :
  Forall (fun l => avoids e0 l = true)
    (method :: map header_line
       (pre ++ ("Location", scheme +:+ "//" +:+ h +:+ ":" +:+ pretty p) :: post)) →
  Forall header_ok
    (pre ++ ("Location", scheme +:+ "//" +:+ h +:+ ":" +:+ pretty p) :: post) →
  "Location" ∉ map fst post →
  String.prefix "M-SEARCH" method = false →
  avoids "/" scheme = true → avoids "/" h = true → colon_free h = true →
  0 ≤ p ≤ 65535 →
  ∃ hs,
    handleMessage (String e0 et)
      (String.concat (String e0 et)
         (method :: map header_line
            (pre ++ ("Location", scheme +:+ "//" +:+ h +:+ ":" +:+ pretty p) :: post)))
    = Advertised (Some (h +:+ ":" +:+ pretty p)) hs
    ∧ hs !! "Location" = Some (Some (scheme +:+ "//" +:+ h +:+ ":" +:+ pretty p))
    ∧ ∀ b, host (endpoint_set (h +:+ ":" +:+ pretty p) b) = h
           ∧ port (endpoint_set (h +:+ ":" +:+ pretty p) b) = Num p.
Proof.
  intros Hlines Hok Hpost Hm Hs Hh Hc [Hp Hp'].
  eexists. split_and!.
  - unfold handleMessage. rewrite split_str_concat by done. rewrite Hm.
    rewrite headers_last by done.
    rewrite (split_str_pair "/" "/" scheme (h +:+ ":" +:+ pretty p)); [done | done |].
    apply occurs_avoids. rewrite !avoids_app, Hh. cbn.
    destruct (js_Number_pretty p Hp) as [Hd _].
    by rewrite (digits_avoid "/" _ _ _ Hd).
  - by apply headers_last.
  - intros b. apply endpoint_set_host_port; [done | lia].
Qed.

(** *** The capability mixins *)

Lemma elem_of_if_singleton {A} (x y : A) (b : bool) :
  x ∈ (if b then [y] else []) ↔ b = true ∧ x = y.
Proof.
  destruct b.
  - rewrite list_elem_of_singleton. split; [by intros -> | by intros [_ ->]].
  - split; [by intros ?%elem_of_nil | by intros [? _]].
Qed.

Lemma includes_features (hidden : string → bool) (support : string)
    (props : list string) (f : string) :
  includes (features hidden support props) f = true ↔
    hidden f = false ∧ (f ∈ split_on " " support ∨ f ∈ props).
Proof.
  unfold includes, features. rewrite bool_decide_eq_true, list_elem_of_filter.
  by rewrite elem_of_app.
Qed.

(** X20. The capability mixins of a new bulb.  [buildDevice] pushes the
    mixins in one fixed order and each at most once; the moonlight mixin
    is there exactly when [active_mode] is not hidden, whatever the bulb
    supports; and each other mixin is there exactly when its feature is
    not hidden and is a word of the [support] header or the key of another
    header. *)
Theorem capability_mixins (hidden : string → bool) (support : string)
    (props : list string) :
  mixins hidden (features hidden support props)
    `sublist_of` [MoonlightMode; Brightness; Color; Temperature; Backlight;
                  BacklightBrightness; BacklightColor]
  ∧ NoDup (mixins hidden (features hidden support props))
  ∧ (MoonlightMode ∈ mixins hidden (features hidden support props) ↔
       hidden "active_mode" = false)
  ∧ ∀ x, x ≠ MoonlightMode →
      (x ∈ mixins hidden (features hidden support props) ↔
         hidden (capability x) = false
         ∧ (capability x ∈ split_on " " support ∨ capability x ∈ props)).
Proof.
  assert (mixins hidden (features hidden support props)
            `sublist_of` [MoonlightMode; Brightness; Color; Temperature; Backlight;
                          BacklightBrightness; BacklightColor]) as Hsub.
  { unfold mixins. repeat case_match; cbn;
      repeat first [apply sublist_skip | apply sublist_cons | apply sublist_nil]. }
  split_and!.
  - exact Hsub.
  - eapply sublist_NoDup; [| exact Hsub].
    apply (bool_decide_unpack _). by vm_compute.
  - unfold mixins. rewrite !elem_of_app, !elem_of_if_singleton.
    rewrite negb_true_iff. intuition discriminate.
  - intros x Hx. rewrite <- includes_features.
    unfold mixins. rewrite !elem_of_app, !elem_of_if_singleton.
    destruct x; cbn [capability]; intuition (try discriminate; try congruence).
Qed.

(** ** The further properties at concrete sessions *)

Lemma reachable_demo_inflight : reachable demo_inflight.
Proof.
  exists default_config, "192.168.1.5:55443", 1%nat, demo_inflight_run.
  vm_compute. reflexivity.
Defined.

Lemma endpoint_round_trip_witness :
  endpoint (endpoint_set ("192.168.1.5" +:+ ":" +:+ pretty 55443) (this demo_init))
  = "192.168.1.5:55443"
  ∧ port (endpoint_set ("192.168.1.5" +:+ ":" +:+ pretty 55443) (this demo_init))
    = Num 55443.
Proof.
  destruct (endpoint_round_trip "192.168.1.5" 55443 (this demo_init))
    as (_ & Hp & He); [reflexivity | lia |].
  split; [| exact Hp]. rewrite He. vm_compute. reflexivity.
Defined.

Lemma endpoint_without_port_witness :
  endpoint (this (updateEndpoint "bulb.local" demo_inflight)) = "bulb.local:NaN"
  ∧ live (sock (this (updateEndpoint "bulb.local" demo_inflight))) = false
  ∧ connects (trace (sendCmd (bright 50) (KCaller 1)
                       (updateEndpoint "bulb.local" demo_inflight)))
    = connects (trace (updateEndpoint "bulb.local" demo_inflight)).
Proof.
  destruct (endpoint_without_port "bulb.local" demo_inflight)
    as (_ & _ & He & _ & Hl & Hc); [reflexivity |].
  split_and!; [exact He | exact Hl | exact (Hc (bright 50) (KCaller 1))].
Defined.

Lemma backoff_doubles_witness :
  js_shl 100 5 = 3200 ∧ schedule 100 6 !! 5%nat = Some (5, 3200).
Proof.
  destruct (backoff_doubles 100 5) as (H1 & H2 & _); [lia | lia | lia |].
  split; [exact H1 |]. apply (H2 6%nat). lia.
Defined.

Lemma sendCmd_rejects_only_queries_witness :
  reachable demo_rejected
  ∧ dones (trace demo_rejected) =
      [(1%nat, Command "get_prop" (JArr [JStr "power"]), 1%nat, 1%nat,
        Rejected (VError "1"))]
  ∧ ∀ id c attempts errors e,
      ODone id c attempts errors (Rejected e) ∈ trace demo_rejected →
      method c = "get_prop" ∧ e = VError (id_key id).
Proof.
  assert (reachable demo_rejected) as Hr.
  { exists default_config, "192.168.1.5:55443", 1%nat, (demo_unreachable_run ++ [LJob]).
    vm_compute. reflexivity. }
  destruct (sendCmd_rejects_only_queries demo_rejected Hr) as (H & _).
  split_and!; [exact Hr | vm_compute; reflexivity | exact H].
Defined.

Lemma setPower_mirrors_request_witness :
  reachable demo_giving_up
  ∧ power (this demo_giving_up) = false
  ∧ live (sock (this demo_giving_up)) = false
  ∧ ∃ m', step LJob demo_giving_up = Some m'
      ∧ power (this m') = true
      ∧ queue m' = [JKont (KCaller 7) (Fulfilled VUndefined)].
Proof.
  assert (reachable demo_giving_up) as Hr.
  { exists default_config, "192.168.1.5:55443", 1%nat, demo_giving_up_run.
    vm_compute. reflexivity. }
  destruct (setPower_mirrors_request demo_giving_up "on" (KCaller 7)
              (Fulfilled (VJson (JArr []))) [] Hr)
    as (v & m' & _ & Hs & Hp & Hq & _); [vm_compute; reflexivity |].
  split_and!; [exact Hr | vm_compute; reflexivity | vm_compute; reflexivity |].
  exists m'. split_and!; [exact Hs | exact Hp | exact Hq].
Defined.

Lemma pending_cache_after_run_witness :
  ∃ m', run [LSendCmd (bright 50) 1; LJob; LJob; LSendCmd (bright 80) 2] demo_inflight = Some m'
    ∧ (∀ k, is_Some (pendingByKey (this demo_inflight) !! k) →
            is_Some (pendingByKey (this m') !! k))
    ∧ retries (this m') = retries (this demo_inflight).
Proof.
  assert (∃ m', run [LSendCmd (bright 50) 1; LJob; LJob; LSendCmd (bright 80) 2] demo_inflight
                = Some m') as [m' Hs].
  { eexists. vm_compute. reflexivity. }
  exists m'. split; [exact Hs |].
  destruct (pending_cache_after_run _ _ _ reachable_demo_inflight Hs)
    as (tr & _ & _ & H & Hr & _).
  split; [exact H | exact Hr].
Defined.

Lemma live_socket_is_never_dropped_witness :
  sock (this demo_inflight) = Some (Socket 0 false)
  ∧ ∃ m', run [LUpdateEndpoint "192.168.1.9:55443"] demo_inflight = Some m'
      ∧ (sock (this m') = Some (Socket 0 false)
         ∨ (∃ tr, trace m' = trace demo_inflight ++ tr ∧ ODestroy 0 ∈ tr)
         ∨ 0%nat ∈ omap runtime_kills [LUpdateEndpoint "192.168.1.9:55443"]).
Proof.
  split; [vm_compute; reflexivity |].
  eexists. split; [vm_compute; reflexivity |].
  apply (live_socket_is_never_dropped
           [LUpdateEndpoint "192.168.1.9:55443"] demo_inflight _ (Socket 0 false));
    vm_compute; reflexivity.
Defined.

Lemma close_fails_no_request_witness :
  connecting demo_inflight !! 0%nat = None
  ∧ cmds (this (on_close 0 false demo_inflight)) = ∅
  ∧ pool (on_close 0 false demo_inflight) = pool demo_inflight
  ∧ timers (on_close 0 false demo_inflight) = timers demo_inflight.
Proof.
  assert (connecting demo_inflight !! 0%nat = None) as Hc.
  { vm_compute. reflexivity. }
  destruct (close_fails_no_request 0 demo_inflight Hc) as (H & _).
  destruct (H false) as (H1 & _ & H3 & _ & H5 & _).
  split_and!; [exact Hc | exact H1 | exact H3 | exact H5].
Defined.


Lemma replay_precedes_connecting_command_witness :
  ∃ m' rest',
    run [LConnect 0; LJob; LJob; LJob; LJob; LJob] demo_connecting = Some m'
    ∧ trace m' = trace demo_connecting ++
        [OSendCmd 2 (Command "set_power" (JArr [JStr "on"; JStr "smooth"; JNum 400]))
           (KFlush rest');
         OSetTimeout 0 2 100;
         OWrite 0 2 (Command "set_power" (JArr [JStr "on"; JStr "smooth"; JNum 400]));
         OSetTimeout 1 1 100;
         OWrite 0 1 (Command "set_power" (JArr [JStr "on"; JStr "smooth"; JNum 400]))].
Proof.
  destruct (replay_precedes_connecting_command demo_connecting 0
              (Attempt 0 (Command "set_power" (JArr [JStr "on"; JStr "smooth"; JNum 400]))
                 1 100)
              (Socket 0 false)
              (Command "set_power" (JArr [JStr "on"; JStr "smooth"; JNum 400])) [])
    as (m' & rest' & Hr & Ht & _);
    [vm_compute; reflexivity | vm_compute; lia | vm_compute; reflexivity
    | vm_compute; reflexivity | reflexivity | vm_compute; reflexivity
    | vm_compute; discriminate | vm_compute; reflexivity |].
  exists m', rest'. split; [exact Hr | exact Ht].
Defined.

Lemma get_listener_round_trip_witness :
  ∃ m2 m3 m',
    run [LCharGet 4; LJob; LJob] demo_inflight = Some m2
    ∧ responseHandler (JObj [("id", JNum 3); ("result", JArr [JStr "on"])]) m2
      = (m3, Claimed)
    ∧ run [LJob; LJob] m3 = Some m'
    ∧ power (this m') = true
    ∧ queue m' = [].
Proof.
  destruct (get_listener_round_trip 4 demo_inflight (Socket 0 false)
              [("id", JNum 3); ("result", JArr [JStr "on"])] (JNum 3)
              (JStr "on") [])
    as (m2 & m3 & m' & H1 & H2 & H3 & H4 & _ & H6 & _);
    [vm_compute; reflexivity | vm_compute; reflexivity | reflexivity
    | vm_compute; discriminate | vm_compute; reflexivity | reflexivity
    | vm_compute; reflexivity | reflexivity |].
  exists m2, m3, m'. split_and!; [exact H1 | exact H2 | exact H3 | exact H4 | exact H6].
Defined.

Lemma identify_is_never_replayed_witness :
  reachable demo_inflight
  ∧ pendingByKey (this (identify (KCaller 5) demo_inflight)) !! "start_cf" =
      Some (Command "start_cf"
              (JArr [JNum 10; JNum 0; JStr "500,2,0,10,500,2,0,100"]))
  ∧ ∀ c, c ∈ flush_plan (pendingByKey (this demo_inflight)) order →
         method c ≠ "start_cf".
Proof.
  destruct (identify_is_never_replayed demo_inflight reachable_demo_inflight)
    as (H1 & H2).
  split_and!; [exact reachable_demo_inflight | exact (H1 (KCaller 5)) |].
  intros c Hc. destruct (H2 order c (reflexivity order) Hc) as (_ & H & _).
  exact H.
Defined.

Lemma sendCmd_round_trip_witness :
  ∃ m2 m3 m',
    run [LSendCmd (bright 50) 8; LJob; LJob] demo_inflight = Some m2
    ∧ responseHandler (JObj [("id", JNum 3); ("result", JArr [JStr "ok"])]) m2
      = (m3, Claimed)
    ∧ run [LJob; LJob] m3 = Some m'
    ∧ settled (trace m') = [(8%nat, Fulfilled (VJson (JArr [JStr "ok"])))]
    ∧ pool m' = pool demo_inflight.
Proof.
  destruct (sendCmd_round_trip (bright 50) 8 demo_inflight (Socket 0 false)
              [("id", JNum 3); ("result", JArr [JStr "ok"])] (JNum 3)
              (JArr [JStr "ok"]))
    as (m2 & m3 & m' & H1 & H2 & H3 & H4 & _ & H6 & _);
    [vm_compute; reflexivity | vm_compute; reflexivity | reflexivity
    | vm_compute; discriminate | vm_compute; reflexivity | reflexivity
    | vm_compute; reflexivity | reflexivity |].
  exists m2, m3, m'. split_and!; [exact H1 | exact H2 | exact H3 | | exact H6].
  rewrite H4. vm_compute. reflexivity.
Defined.

Lemma deadline_retries_with_same_id_witness :
  ∃ m',
    run [LTimer 1; LJob; LJob; LJob] demo_inflight = Some m'
    ∧ trace m' = trace demo_inflight ++
        [OSetTimeout 2 1 200;
         OWrite 0 1 (Command "set_power" (JArr [JStr "on"; JStr "smooth"; JNum 400]))].
Proof.
  destruct (deadline_retries_with_same_id demo_inflight 1 0 1
              (SendTask (Command "set_power" (JArr [JStr "on"; JStr "smooth"; JNum 400]))
                 1 false 5 100 0 (KSetPower "on" (KCaller 7)) [(0, 100)] [])
              (Socket 0 false))
    as (m' & Hr & Ht & _);
    [vm_compute; reflexivity | vm_compute; reflexivity | vm_compute; reflexivity
    | vm_compute; reflexivity | vm_compute; reflexivity | reflexivity |].
  exists m'. split; [exact Hr |]. rewrite Ht. vm_compute. reflexivity.
Defined.

Lemma refused_connection_reconnects_witness :
  ∃ m',
    run (refused 0) demo_connecting = Some m'
    ∧ trace m' = trace demo_connecting ++
        [OConnect 1 "192.168.1.5" (Num 55443);
         OSetTimeout 0 1 100;
         OWrite 1 1 (Command "set_power" (JArr [JStr "on"; JStr "smooth"; JNum 400]))]
    ∧ sock (this m') = Some (Socket 1 false).
Proof.
  destruct (refused_connection_reconnects demo_connecting 0 false
              (Attempt 0 (Command "set_power" (JArr [JStr "on"; JStr "smooth"; JNum 400]))
                 1 100)
              (SendTask (Command "set_power" (JArr [JStr "on"; JStr "smooth"; JNum 400]))
                 1 false 5 100 0 (KSetPower "on" (KCaller 7)) [(0, 100)] [])
              (Some "ECONNREFUSED"))
    as (m' & Hr & Ht & Hs & _);
    [vm_compute; reflexivity | vm_compute; lia | vm_compute; reflexivity
    | vm_compute; reflexivity | vm_compute; reflexivity | discriminate
    | vm_compute; reflexivity | vm_compute; reflexivity |].
  exists m'. split_and!; [exact Hr | | exact Hs].
  rewrite Ht. vm_compute. reflexivity.
Defined.

Lemma writes_only_entered_commands_witness :
  reachable demo_inflight
  ∧ OWrite 0 2 (Command "set_power" (JArr [JStr "on"; JStr "smooth"; JNum 400]))
      ∈ trace demo_inflight
  ∧ ∀ sid id c, OWrite sid id c ∈ trace demo_inflight →
      ∃ k, OSendCmd id c k ∈ trace demo_inflight.
Proof.
  destruct (writes_only_entered_commands demo_inflight reachable_demo_inflight)
    as (H & _).
  split_and!; [exact reachable_demo_inflight | | exact H].
  vm_compute. do 5 apply list_elem_of_further. apply list_elem_of_here.
Defined.

Lemma advertisement_endpoint_witness :
  ∃ hs,
    handleMessage crlf
      (String.concat crlf
         (demo_status :: map header_line
            (demo_headers_before
             ++ ("Location", "yeelight:" +:+ "//" +:+ "192.168.1.5" +:+ ":" +:+ pretty 55443)
                :: demo_headers_after)))
    = Advertised (Some ("192.168.1.5" +:+ ":" +:+ pretty 55443)) hs
    ∧ host (endpoint_set ("192.168.1.5" +:+ ":" +:+ pretty 55443) (this demo_init))
      = "192.168.1.5".
Proof.
  destruct (advertisement_endpoint "013" (String "010" EmptyString) demo_status
              "yeelight:" "192.168.1.5" 55443 demo_headers_before demo_headers_after)
    as (hs & H & _ & Hb).
  - cbn [map app demo_headers_before demo_headers_after].
    repeat (apply Forall_cons; split; [vm_compute; reflexivity |]). constructor.
  - cbn [app demo_headers_before demo_headers_after].
    repeat (apply Forall_cons; split; [split; vm_compute; reflexivity |]).
    constructor.
  - apply (bool_decide_unpack _). vm_compute. exact I.
  - reflexivity.
  - reflexivity.
  - reflexivity.
  - reflexivity.
  - lia.
  - exists hs. split; [exact H | exact (proj1 (Hb (this demo_init)))].
Defined.
